(** * Diblob: the Chinese Postman Tour engine (testing_criterions/CPT.py)

    A shallow embedding of [WeightedDigraphManager] and [CPTDigraphManager]
    and the properties of the cost closure, the feasible assignment, the
    residual graph, the cycle canceller, the tour extraction and the
    orchestrating [compute_cpt].

    Python dictionaries are finite maps ([gmap]); they are only ever read by
    key in this module, so their insertion order is immaterial.  The node and
    edge containers are iterated, so they are lists.  Python integers are
    unbounded: [Z].  Methods mutate the instance and may raise: they live in a
    state-and-exception monad over the instance record, and a raised exception
    leaves the instance as mutated so far.  Every [while] loop takes a bound
    on its number of iterations, and running out of it is an outcome of its
    own. *)

From stdpp Require Import gmap strings list fin_maps.
From Stdlib Require Import ZArith Lia.

Local Open Scope Z_scope.

(** ** Identifiers *)

(** Node identifiers are Python strings; an edge identifier is the tuple
    (tail, head). *)
Abbreviation node := string (only parsing).
Abbreviation edge := (string * string)%type (only parsing).

(** ** The instance *)

(** The attributes of a [CPTDigraphManager] that CPT.py reads or writes.
    [nodes] and [edges] are the containers inherited from [DigraphManager],
    in their iteration order. *)
Record CPTDigraphManager : Type := mkCPT {
  nodes : list node;
  edges : list edge;
  cost_function : gmap edge Z;
  default_cost : Z;
  cost : gmap edge Z;
  spanning_tree : gmap edge node;
  delta : gmap node Z;
  basic_cost : Z;
  feasible : gmap edge Z
}.

Definition with_cost (c : gmap edge Z) (s : CPTDigraphManager) : CPTDigraphManager :=
  mkCPT (nodes s) (edges s) (cost_function s) (default_cost s)
        c (spanning_tree s) (delta s) (basic_cost s) (feasible s).

Definition with_spanning_tree (t : gmap edge node) (s : CPTDigraphManager) : CPTDigraphManager :=
  mkCPT (nodes s) (edges s) (cost_function s) (default_cost s)
        (cost s) t (delta s) (basic_cost s) (feasible s).

Definition with_delta (d : gmap node Z) (s : CPTDigraphManager) : CPTDigraphManager :=
  mkCPT (nodes s) (edges s) (cost_function s) (default_cost s)
        (cost s) (spanning_tree s) d (basic_cost s) (feasible s).

Definition with_basic_cost (b : Z) (s : CPTDigraphManager) : CPTDigraphManager :=
  mkCPT (nodes s) (edges s) (cost_function s) (default_cost s)
        (cost s) (spanning_tree s) (delta s) b (feasible s).

Definition with_feasible (f : gmap edge Z) (s : CPTDigraphManager) : CPTDigraphManager :=
  mkCPT (nodes s) (edges s) (cost_function s) (default_cost s)
        (cost s) (spanning_tree s) (delta s) (basic_cost s) f.

Definition with_cost_function (cf : gmap edge Z) (s : CPTDigraphManager) : CPTDigraphManager :=
  mkCPT (nodes s) (edges s) cf (default_cost s)
        (cost s) (spanning_tree s) (delta s) (basic_cost s) (feasible s).

Definition with_nodes (ns : list node) (s : CPTDigraphManager) : CPTDigraphManager :=
  mkCPT ns (edges s) (cost_function s) (default_cost s)
        (cost s) (spanning_tree s) (delta s) (basic_cost s) (feasible s).

Definition with_edges (es : list edge) (s : CPTDigraphManager) : CPTDigraphManager :=
  mkCPT (nodes s) es (cost_function s) (default_cost s)
        (cost s) (spanning_tree s) (delta s) (basic_cost s) (feasible s).

(** ** Exceptions and the method monad *)

Inductive exn : Type :=
| NotSCGException   (* raised by compute_cpt *)
| KeyError.         (* d[k] on a dictionary without k *)

Inductive outcome (A : Type) : Type :=
| Ret (a : A)
| Raise (e : exn)
| OutOfFuel.
Arguments Ret {A} a.
Arguments Raise {A} e.
Arguments OutOfFuel {A}.

Definition M (A : Type) : Type := CPTDigraphManager → outcome A * CPTDigraphManager.

Definition ret {A} (a : A) : M A := λ s, (Ret a, s).
Definition raise {A} (e : exn) : M A := λ s, (Raise e, s).
Definition out_of_fuel {A} : M A := λ s, (OutOfFuel, s).

Definition bind {A B} (m : M A) (k : A → M B) : M B :=
  λ s, match m s with
       | (Ret a, s') => k a s'
       | (Raise e, s') => (Raise e, s')
       | (OutOfFuel, s') => (OutOfFuel, s')
       end.

Notation "'let!' x ':=' m 'in' k" := (bind m (λ x, k))
  (at level 10, x name, m at level 100, k at level 200).
Notation "m '>>' k" := (bind m (λ _, k))
  (at level 100, k at level 200, right associativity).

Definition gets {A} (f : CPTDigraphManager → A) : M A := λ s, (Ret (f s), s).
Definition modify (f : CPTDigraphManager → CPTDigraphManager) : M unit := λ s, (Ret tt, f s).

(** [d[k]]: the value, or KeyError. *)
Definition getitem {K V} `{Countable K} (d : gmap K V) (k : K) : M V :=
  match d !! k with
  | Some v => ret v
  | None => raise KeyError
  end.

(** [d.get(k, dflt)]. *)
Definition dict_get {K V} `{Countable K} (d : gmap K V) (k : K) (dflt : V) : V :=
  default dflt (d !! k).

(** [k in d]. *)
Definition dict_in {K V} `{Countable K} (d : gmap K V) (k : K) : bool :=
  bool_decide (is_Some (d !! k)).

(** A [for x in l] loop whose body answers [true] when it has executed a
    [return] or [break] that ends the loop; the answer of the loop says
    whether that happened. *)
Fixpoint for_in {X} (l : list X) (body : X → M bool) : M bool :=
  match l with
  | [] => ret false
  | x :: l' => let! stop := body x in if stop then ret true else for_in l' body
  end.

(** [itertools.product(a, b)]. *)
Definition product {A B} (a : list A) (b : list B) : list (A * B) := list_prod a b.

(** ** GraphStore (diblob.DigraphManager) *)

(** Modelled from the spec: [Node.outgoing_dim] of diblob's node class, which
    is not part of this module; the spec gives the out-degree of the node
    (the imbalance is |outgoing| − |incoming|). *)
Definition outgoing_dim (es : list edge) (n : node) : Z :=
  Z.of_nat (length (filter (λ e, e.1 = n) es)).

(** Modelled from the spec: [Node.incoming_dim] of diblob's node class, the
    in-degree of the node. *)
Definition incoming_dim (es : list edge) (n : node) : Z :=
  Z.of_nat (length (filter (λ e, e.2 = n) es)).

(** Modelled from the spec: [DigraphManager.connect_nodes] for one edge; the
    edge set has no multi-edges, so an edge already present is not added
    again. *)
Definition graph_connect (es : list edge) (e : edge) : list edge :=
  if decide (e ∈ es) then es else es ++ [e].

(** Modelled from the spec: [DigraphManager.add_nodes], which CPT.py inherits
    unchanged; the node identifiers not yet present join the node set, in
    the order given. *)
Definition graph_add_node (ns : list node) (n : node) : list node :=
  if decide (n ∈ ns) then ns else ns ++ [n].

(** ** WeightedDigraphManager *)

Definition _set_cost : M unit :=
  modify (λ s, with_cost
    (foldl (λ (d : gmap edge Z) e, <[e := dict_get (cost_function s) e (default_cost s)]> d)
           ∅ (edges s)) s).

Definition _set_spanning_tree : M unit :=
  modify (λ s, with_spanning_tree
    (foldl (λ (d : gmap edge node) e, <[e := e.2]> d) ∅ (edges s)) s).

Definition update_cost_function (cf : gmap edge Z) : M unit :=
  modify (λ s, with_cost_function (cf ∪ cost_function s) s).

(** The body of the innermost loop of [least_cost_paths]; answers [true]
    when the [return] on a negative self-pair is executed. *)
Definition relax (k i j : node) : M bool :=
  let! c := gets cost in
  if dict_in c (k, j) then
    let! better := (if negb (dict_in c (i, j)) then ret true
                    else let! cij := getitem c (i, j) in
                         let! cik := getitem c (i, k) in
                         let! ckj := getitem c (k, j) in
                         ret (bool_decide (cij > cik + ckj))) in
    if better : bool then
      let! t := gets spanning_tree in
      let! hop := getitem t (i, k) in
      modify (with_spanning_tree (<[(i, j) := hop]> t)) >>
      modify (with_cost (<[(i, j) := dict_get c (i, k) 0 + dict_get c (k, j) 0]> c)) >>
      if decide (i = j) then
        let! c' := gets cost in
        let! cii := getitem c' (i, j) in
        ret (bool_decide (cii < 0))
      else ret false
    else ret false
  else ret false.

(** The body of the outer loop, for one (node_k, node_i) of the product. *)
Definition relax_row (ki : node * node) : M bool :=
  let! c := gets cost in
  if dict_in c (ki.2, ki.1) then
    let! ns := gets nodes in
    for_in ns (relax ki.1 ki.2)
  else ret false.

(** Answers whether the early [return] was taken; Python's method returns
    None either way. *)
Definition least_cost_paths_run : M bool :=
  let! ns := gets nodes in
  for_in (product ns ns) relax_row.

Definition least_cost_paths : M unit :=
  least_cost_paths_run >> ret tt.

Definition check_if_digraph_is_strongly_connected : M bool :=
  least_cost_paths >>
  let! cost_function' := gets cost in
  let! ns := gets nodes in
  let! missing := for_in (product ns ns)
               (λ th, ret (negb (dict_in cost_function' th))) in
  ret (negb missing).

(** ** CPTDigraphManager *)

Definition _set_delta : M unit :=
  modify (λ s, with_delta
    (foldl (λ (d : gmap node Z) n,
              <[n := outgoing_dim (edges s) n - incoming_dim (edges s) n]> d)
           ∅ (nodes s)) s).

Definition _set_basic_cost : M unit :=
  modify (λ s, with_basic_cost
    (foldl (λ acc e, acc + dict_get (cost_function s) e (default_cost s)) 0 (edges s)) s).

(** [CPTDigraphManager(digraph, cost_function, default_cost)], given the node
    and edge containers that [DigraphManager.__init__] builds from the
    dictionary representation. *)
Definition new_CPTDigraphManager (ns : list node) (es : list edge)
    (cf : gmap edge Z) (dc : Z) : CPTDigraphManager :=
  ((_set_cost >> _set_spanning_tree >> _set_delta >> _set_basic_cost >>
    modify (with_feasible ∅))
     (mkCPT ns es cf dc ∅ ∅ ∅ 0 ∅)).2.

(** [add_nodes], inherited: no attribute of CPT.py is refreshed. *)
Definition add_nodes (node_ids : list node) : M unit :=
  modify (λ s, with_nodes (foldl graph_add_node (nodes s) node_ids) s).

(** [connect_nodes] with the given edge identifiers. *)
Definition connect_nodes (edge_ids : list edge) : M unit :=
  modify (λ s, with_edges (foldl graph_connect (edges s) edge_ids) s) >>
  _set_cost >> _set_spanning_tree >>
  _set_delta >> _set_basic_cost.

Fixpoint split_loop (ns : list node) (delta_neq delta_pos : list node)
    : M (list node * list node) :=
  match ns with
  | [] => ret (delta_neq, delta_pos)
  | node_id :: ns' =>
      let! d := gets delta in
      let! dn := getitem d node_id in
      if bool_decide (dn < 0) then split_loop ns' (delta_neq ++ [node_id]) delta_pos
      else if bool_decide (dn > 0) then split_loop ns' delta_neq (delta_pos ++ [node_id])
      else split_loop ns' delta_neq delta_pos
  end.

Definition _split_nodes_based_on_delta : M (list node * list node) :=
  let! ns := gets nodes in
  split_loop ns [] [].

(** The body of the loop of [_find_feasible]. *)
Definition feasible_step (np : node * node) : M bool :=
  let! d := gets delta in
  let! a := getitem d np.1 in
  let! b := getitem d np.2 in
  modify (λ s, with_feasible (<[np := if bool_decide (- a < b) then - a else b]> (feasible s)) s) >>
  let! f := gets feasible in
  let! x := getitem f np in
  let! d1 := gets delta in
  let! a1 := getitem d1 np.1 in
  modify (with_delta (<[np.1 := a1 + x]> d1)) >>
  let! f' := gets feasible in
  let! y := getitem f' np in
  let! d2 := gets delta in
  let! b2 := getitem d2 np.2 in
  modify (with_delta (<[np.2 := b2 - y]> d2)) >>
  ret false.

Definition _find_feasible (delta_neq delta_pos : list node) : M unit :=
  for_in (product delta_neq delta_pos) feasible_step >> ret tt.

(** The loop of [_get_residual_diblob_manager_for_cpt], with the edges of
    [residual_digraph] and [residual_cost] as its local state. *)
Fixpoint residual_loop (ps : list (node * node)) (res_edges : list edge)
    (residual_cost : gmap edge Z) : M (list edge * gmap edge Z) :=
  match ps with
  | [] => ret (res_edges, residual_cost)
  | (node_neq, node_pos) :: ps' =>
      let! c := gets cost in
      let! f := gets feasible in
      let res_edges1 := graph_connect res_edges (node_neq, node_pos) in
      let! w := getitem c (node_neq, node_pos) in
      let residual_cost1 := <[(node_neq, node_pos) := w]> residual_cost in
      let! a := getitem f (node_neq, node_pos) in
      if decide (a ≠ 0) then
        let res_edges2 := graph_connect res_edges1 (node_pos, node_neq) in
        let! w' := getitem c (node_neq, node_pos) in
        residual_loop ps' res_edges2 (<[(node_pos, node_neq) := - w']> residual_cost1)
      else residual_loop ps' res_edges1 residual_cost1
  end.

(** The residual digraph gets every node of the instance
    ([residual_digraph.add_nodes] of all of [self.nodes]) and the edges connected in the
    loop; it is wrapped in a fresh [CPTDigraphManager]. *)
Definition _get_residual_diblob_manager_for_cpt (delta_neq delta_pos : list node)
    : M CPTDigraphManager :=
  let! r := residual_loop (product delta_neq delta_pos) [] ∅ in
  let! ns := gets nodes in
  let! dc := gets default_cost in
  ret (new_CPTDigraphManager ns r.1 r.2 dc).

(** First do-while loop of [_improvements]: finds k. *)
Fixpoint find_k (fuel : nat) (rcost : gmap edge Z) (rtree : gmap edge node)
    (node_id u : node) (k : Z) (flag : bool) : M Z :=
  match fuel with
  | O => out_of_fuel
  | S fuel' =>
      let! v := getitem rtree (u, node_id) in
      let! cuv := getitem rcost (u, v) in
      let! f := gets feasible in
      let upd := bool_decide (cuv < 0) && (flag || bool_decide (k > dict_get f (v, u) 0)) in
      let k' := if upd then dict_get f (v, u) 0 else k in
      let flag' := if upd then false else flag in
      if decide (v = node_id) then ret k'
      else find_k fuel' rcost rtree node_id v k' flag'
  end.

(** Second do-while loop of [_improvements]: cancels k along the cycle. *)
Fixpoint cancel_k (fuel : nat) (rcost : gmap edge Z) (rtree : gmap edge node)
    (node_id u : node) (k : Z) : M unit :=
  match fuel with
  | O => out_of_fuel
  | S fuel' =>
      let! v := getitem rtree (u, node_id) in
      let! cuv := getitem rcost (u, v) in
      let! f := gets feasible in
      (if bool_decide (cuv < 0)
       then modify (with_feasible (<[(v, u) := dict_get f (v, u) 0 - k]> f))
       else modify (with_feasible (<[(u, v) := dict_get f (u, v) 0 + k]> f))) >>
      if decide (v = node_id) then ret tt
      else cancel_k fuel' rcost rtree node_id v k
  end.

Definition improve_at (fuel : nat) (rcost : gmap edge Z) (rtree : gmap edge node)
    (node_id : node) : M bool :=
  if bool_decide (dict_get rcost (node_id, node_id) 0 < 0) then
    let! k := find_k fuel rcost rtree node_id node_id 0 true in
    cancel_k fuel rcost rtree node_id node_id k >>
    ret true
  else ret false.

Definition _improvements (fuel : nat) (residual_cpt : CPTDigraphManager) : M bool :=
  let! ns := gets nodes in
  for_in ns (improve_at fuel (cost residual_cpt) (spanning_tree residual_cpt)).

Definition _get_cost : M Z :=
  gets (λ s,
    foldl (λ phi th, phi + dict_get (cost s) th 0 * - dict_get (feasible s) th 0)
          0 (product (nodes s) (nodes s))
    + basic_cost s).

Definition _find_path (ns : list node) (frm : node) (f : gmap edge Z) : option node :=
  List.find (λ node_id, bool_decide (dict_get f (frm, node_id) 0 > 0)) ns.

(** The inner [while u != v] loop of [_get_cpt]. *)
Fixpoint walk_path (fuel : nat) (u v : node) (cpt : list edge) : M (list edge) :=
  if decide (u = v) then ret cpt
  else match fuel with
       | O => out_of_fuel
       | S fuel' =>
           let! t := gets spanning_tree in
           let! p := getitem t (u, v) in
           walk_path fuel' p v (cpt ++ [(u, p)])
       end.

(** The branch of the loop of [_get_cpt] taken when [_find_path] answers a
    node v: the assignment entry is written and the path from u to v is
    appended. *)
Definition serve_path (bound : nat) (u v : node) (cpt : list edge) : M (list edge) :=
  modify (λ s, with_feasible (<[(u, v) := -1]> (feasible s)) s) >>
  walk_path bound u v cpt.

(** The [for node_id in self.nodes] search of the other branch. *)
Definition unused_edge (ns : list node) (es : list edge) (used : gset edge)
    (u bridge_node : node) : node :=
  default bridge_node
    (List.find (λ node_id, bool_decide (node_id ≠ bridge_node)
                           && bool_decide ((u, node_id) ∈ es)
                           && negb (bool_decide ((u, node_id) ∈ used))) ns).

(** The [while True] loop of [_get_cpt]; [bound] bounds each inner loop. *)
Fixpoint tour_loop (bound fuel : nat) (start_node v : node)
    (edges_will_not_be_processed : gset edge) (cpt : list edge) : M (list edge) :=
  match fuel with
  | O => out_of_fuel
  | S fuel' =>
      let u := v in
      let! ns := gets nodes in
      let! f := gets feasible in
      match _find_path ns u f with
      | Some v' =>
          let! cpt' := serve_path bound u v' cpt in
          tour_loop bound fuel' start_node v' edges_will_not_be_processed cpt'
      | None =>
          let! t := gets spanning_tree in
          let! bridge_node := getitem t (u, start_node) in
          if decide ((u, bridge_node) ∈ edges_will_not_be_processed) then ret cpt
          else
            let! es := gets edges in
            let v' := unused_edge ns es edges_will_not_be_processed u bridge_node in
            tour_loop bound fuel' start_node v'
                      (edges_will_not_be_processed ∪ {[(u, v')]}) (cpt ++ [(u, v')])
      end
  end.

Definition _get_cpt (fuel : nat) (start_node : node) : M (list edge) :=
  tour_loop fuel fuel start_node start_node ∅ [].

(** The [while self._improvements(residual_cpt)] loop of [compute_cpt]. *)
Fixpoint improve_loop (fuel n : nat) (delta_neq delta_pos : list node)
    (residual_cpt : CPTDigraphManager) : M unit :=
  match n with
  | O => out_of_fuel
  | S n' =>
      let! improved := _improvements fuel residual_cpt in
      if improved : bool then
        let! residual_cpt' := _get_residual_diblob_manager_for_cpt delta_neq delta_pos in
        improve_loop fuel n' delta_neq delta_pos residual_cpt'
      else ret tt
  end.

Definition compute_cpt (fuel : nat) (start_node : node) : M (list edge * Z) :=
  let! sc := check_if_digraph_is_strongly_connected in
  if negb sc then raise NotSCGException
  else
    let! dd := _split_nodes_based_on_delta in
    _find_feasible dd.1 dd.2 >>
    let! residual_cpt := _get_residual_diblob_manager_for_cpt dd.1 dd.2 in
    improve_loop fuel fuel dd.1 dd.2 residual_cpt >>
    let! cpt := _get_cpt fuel start_node in
    let! cost' := _get_cost in
    _set_cost >>
    _set_spanning_tree >>
    _set_delta >>
    _set_basic_cost >>
    modify (with_feasible ∅) >>
    ret (cpt, cost').

(** ** The instances built at the end of CPT.py *)

(** The instance of the repeated calls (lines 326-329): an empty graph
    with an empty cost function, then [add_nodes] and [connect_nodes]. *)
Definition cpt_test : CPTDigraphManager :=
  ((add_nodes ["A"; "B"; "C"; "D"; "s"; "t"] >>
    connect_nodes [("A","B"); ("A","C"); ("B","D"); ("C","D");
                   ("s","A"); ("D","t"); ("t","s")])
     (new_CPTDigraphManager [] [] ∅ 1)).2.

(** A node with three incoming and one outgoing edge, and its mirror image:
    the edge a -> b has to be taken three times. *)
Definition fan : CPTDigraphManager :=
  new_CPTDigraphManager ["a"; "b"; "x"; "y"; "z"]
    [("a","b"); ("b","x"); ("b","y"); ("b","z"); ("x","a"); ("y","a"); ("z","a")]
    ∅ 1.

(** Two nodes joined both ways, and a third hanging on a two-cycle of cost
    1 + (-5). *)
Definition neg_cycle : CPTDigraphManager :=
  new_CPTDigraphManager ["a"; "b"; "c"]
    [("a","b"); ("b","a"); ("b","c"); ("c","b")]
    {[ ("c","b") := -5 ]} 1.

(** Two nodes joined both ways, one way at a negative cost; the cycle costs
    1. *)
Definition discount : CPTDigraphManager :=
  new_CPTDigraphManager ["a"; "b"] [("a","b"); ("b","a")] {[ ("a","b") := -1 ]} 2.

(** A path a -> b -> c: not strongly connected. *)
Definition one_way : CPTDigraphManager :=
  new_CPTDigraphManager ["a"; "b"; "c"] [("a","b"); ("b","c")] ∅ 1.

(** Two deficit nodes m, n and two surplus nodes p, q; each deficit node is
    one edge away from one surplus node and three edges from the other. *)
Definition cross : CPTDigraphManager :=
  new_CPTDigraphManager ["m"; "n"; "p"; "q"]
    [("p","m"); ("p","n"); ("q","m"); ("q","n"); ("m","q"); ("n","p")] ∅ 1.

(** ** Vocabulary of the statements *)

(** The statements of [compute_cpt] from the split of the nodes to the end
    of the cancellation loop. *)
Definition build_assignment (fuel : nat) : M (list node * list node) :=
  let! dd := _split_nodes_based_on_delta in
  _find_feasible dd.1 dd.2 >>
  let! residual_cpt := _get_residual_diblob_manager_for_cpt dd.1 dd.2 in
  improve_loop fuel fuel dd.1 dd.2 residual_cpt >>
  ret dd.

(** The statements of [compute_cpt] up to the first residual graph: the
    check, the split and the feasible assignment. *)
Definition first_assignment : M (list node * list node) :=
  check_if_digraph_is_strongly_connected >>
  let! dd := _split_nodes_based_on_delta in
  _find_feasible dd.1 dd.2 >>
  ret dd.

(** The residual graph of [cross] after its feasible assignment, with its
    cost closure computed. *)
Definition cross_residual : CPTDigraphManager :=
  match (_get_residual_diblob_manager_for_cpt ["m"; "n"] ["p"; "q"]
           (first_assignment cross).2).1 with
  | Ret r => (least_cost_paths r).2
  | _ => cross
  end.

(** The statements of [compute_cpt] after the connectivity check. *)
Definition after_check (fuel : nat) (start_node : node) : M (list edge * Z) :=
  build_assignment fuel >>
  let! cpt := _get_cpt fuel start_node in
  let! cost' := _get_cost in
  _set_cost >>
  _set_spanning_tree >>
  _set_delta >>
  _set_basic_cost >>
  modify (with_feasible ∅) >>
  ret (cpt, cost').

(** Where a sequence of edges that starts at [u] and chains head to tail
    ends, if it chains. *)
Fixpoint walk_from (u : node) (w : list edge) : option node :=
  match w with
  | [] => Some u
  | (a, b) :: w' => if decide (a = u) then walk_from b w' else None
  end.

(** A walk that starts and ends at [start_node]. *)
Definition closed_walk (start_node : node) (w : list edge) : Prop :=
  walk_from start_node w = Some start_node.

(** The sum of the per-edge costs of a sequence of edges. *)
Definition walk_cost (cf : gmap edge Z) (dc : Z) (w : list edge) : Z :=
  foldr (λ e acc, dict_get cf e dc + acc) 0 w.

(** Basic cost plus, over the (deficit, surplus) pairs, the closure cost of
    the pair times the duplications assigned to it. *)
Definition planned_cost (s : CPTDigraphManager) (delta_neq delta_pos : list node) : Z :=
  basic_cost s
  + foldr (λ np acc, dict_get (cost s) np 0 * dict_get (feasible s) np 0 + acc)
          0 (product delta_neq delta_pos).

(** A closed sequence of edges of the graph whose costs add up to less than
    zero. *)
Definition negative_cycle (s : CPTDigraphManager) : Prop :=
  ∃ u w, w ≠ [] ∧ closed_walk u w ∧ Forall (λ e, e ∈ edges s) w
         ∧ walk_cost (cost_function s) (default_cost s) w < 0.

(** Every run of [m] leaves the instance [R]-related to the one it started
    from, whatever the outcome, and raises only exceptions in [E]. *)
Definition respects (R : relation CPTDigraphManager) (E : exn → Prop)
    {A} (m : M A) : Prop :=
  ∀ s, R s (m s).2 ∧ ∀ e, (m s).1 = Raise e → E e.

(** The graph and the cost model: no method of a CPT computation writes
    them. *)
Definition static (s s' : CPTDigraphManager) : Prop :=
  nodes s = nodes s' ∧ edges s = edges s'
  ∧ cost_function s = cost_function s' ∧ default_cost s = default_cost s'.

(** Everything but the cost map and the spanning tree. *)
Definition closure_only (s s' : CPTDigraphManager) : Prop :=
  static s s' ∧ delta s = delta s' ∧ basic_cost s = basic_cost s'
  ∧ feasible s = feasible s'.

(** Two sets of exceptions: all of them, and KeyError alone. *)
Definition any_exn (e : exn) : Prop := True.

Definition only_KeyError (e : exn) : Prop := e = KeyError.

(** The state the constructor, [connect_nodes] and the end of [compute_cpt]
    all establish for the graph and cost model of [s]. *)
Definition pristine (s : CPTDigraphManager) : CPTDigraphManager :=
  new_CPTDigraphManager (nodes s) (edges s) (cost_function s) (default_cost s).

(** The edge relation of a graph. *)
Definition edge_rel (es : list edge) (u v : node) : Prop := (u, v) ∈ es.

(** Strong connectivity of the graph itself: every node reaches every
    node along edges. *)
Definition strongly_connected (ns : list node) (es : list edge) : Prop :=
  ∀ u v, u ∈ ns → v ∈ ns → rtc (edge_rel es) u v.

(** Every pair with a closure entry is joined by a non-empty path, and has a
    routing entry. *)
Definition closure_inv (es : list edge) (s : CPTDigraphManager) : Prop :=
  (∀ u v, is_Some (cost s !! (u, v)) → tc (edge_rel es) u v)
  ∧ (∀ e, is_Some (cost s !! e) → is_Some (spanning_tree s !! e)).

(** The cost map only gains keys. *)
Definition cost_grows (s s' : CPTDigraphManager) : Prop :=
  ∀ e, is_Some (cost s !! e) → is_Some (cost s' !! e).

(** A self-pair entry with negative accumulated cost. *)
Definition negative_self (n : node) (s : CPTDigraphManager) : Prop :=
  ∃ c, cost s !! (n, n) = Some c ∧ c < 0.

(** What the connectivity check answers. *)
Definition all_pairs_in (ns : list node) (c : gmap edge Z) : bool :=
  negb (existsb (λ th, negb (dict_in c th)) (product ns ns)).

(** The reverse edges the loop connects: one for each pair whose assignment
    is not zero. *)
Definition reverse_edges (f : gmap edge Z) (ps : list (node * node)) : list edge :=
  map (λ np, (np.2, np.1)) (filter (λ np, f !! np ≠ Some 0) ps).

(** The sum of [g] over a list. *)
Definition sumZ {A} (g : A → Z) (l : list A) : Z := foldr (λ x acc, g x + acc) 0 l.

(** The imbalance of a node: out-degree minus in-degree. *)
Definition imbalance (es : list edge) (n : node) : Z :=
  outgoing_dim es n - incoming_dim es n.

(** The cycle the two loops of [_improvements] walk: from [u], following
    the next hops of the residual routing tree towards [node_id], up to
    the hop that reaches [node_id]. *)
Fixpoint tree_cycle (fuel : nat) (rtree : gmap edge node) (node_id u : node)
    : option (list edge) :=
  match fuel with
  | O => None
  | S fuel' =>
      match rtree !! (u, node_id) with
      | None => None
      | Some v =>
          if decide (v = node_id) then Some [(u, v)]
          else cons (u, v) <$> tree_cycle fuel' rtree node_id v
      end
  end.

(** The assignment amounts of the reverse (negative-cost) edges of a cycle:
    the reverse edge (u, v) carries the assignment of the pair (v, u). *)
Definition reverse_amounts (rcost f : gmap edge Z) (l : list edge) : list Z :=
  map (λ e, dict_get f (e.2, e.1) 0) (filter (λ e, dict_get rcost e 0 < 0) l).

(** The least of the amounts; 0 when there is none. *)
Definition bottleneck (amounts : list Z) : Z :=
  match amounts with
  | [] => 0
  | a :: r => foldl Z.min a r
  end.

(** How many times the pair [e] is a forward edge of the cycle, and how many
    times it is the pair of a reverse edge of the cycle. *)
Definition forward_count (rcost : gmap edge Z) (l : list edge) (e : edge) : Z :=
  sumZ (λ e', if decide (e' = e ∧ ¬ dict_get rcost e' 0 < 0) then 1 else 0) l.

Definition reverse_count (rcost : gmap edge Z) (l : list edge) (e : edge) : Z :=
  sumZ (λ e', if decide ((e'.2, e'.1) = e ∧ dict_get rcost e' 0 < 0) then 1 else 0) l.

(** What the first loop holds in k after the given amounts. *)
Fixpoint pick_k (k : Z) (flag : bool) (amounts : list Z) : Z :=
  match amounts with
  | [] => k
  | a :: r => if flag || bool_decide (k > a) then pick_k a false r else pick_k k flag r
  end.

(** ** Vocabulary of the further properties *)

(** A non-empty sequence of edges of the graph that chains from [i] to
    [j]. *)
Definition is_walk (es : list edge) (i : node) (w : list edge) (j : node) : Prop :=
  w ≠ [] ∧ walk_from i w = Some j ∧ Forall (λ e, e ∈ es) w.

(** Every closure entry is the cost of a walk of the graph between its two
    nodes, and the routing entry of the pair is the first hop of that
    walk. *)
Definition closure_sound (es : list edge) (cf : gmap edge Z) (dc : Z)
    (s : CPTDigraphManager) : Prop :=
  ∀ i j c, cost s !! (i, j) = Some c →
    ∃ h w, spanning_tree s !! (i, j) = Some h
           ∧ is_walk es i ((i, h) :: w) j
           ∧ walk_cost cf dc ((i, h) :: w) = c.

(** The cost map keeps its keys and its values only go down. *)
Definition cost_decreases (s s' : CPTDigraphManager) : Prop :=
  ∀ e c, cost s !! e = Some c → ∃ c', cost s' !! e = Some c' ∧ c' ≤ c.

(** A walk of the graph from [i] to [j] whose intermediate nodes are all in
    [K]. *)
Inductive via (es : list edge) (K : list node) : node → list edge → node → Prop :=
| via_one i j : (i, j) ∈ es → via es K i [(i, j)] j
| via_cons i m w j :
    (i, m) ∈ es → m ∈ K → via es K m w j → via es K i ((i, m) :: w) j.

(** The closure entry of every pair is at most the cost of any walk between
    them through [K]. *)
Definition closure_below (es : list edge) (cf : gmap edge Z) (dc : Z)
    (K : list node) (s : CPTDigraphManager) : Prop :=
  ∀ i j w, via es K i w j →
    ∃ c, cost s !! (i, j) = Some c ∧ c ≤ walk_cost cf dc w.

(** No closed walk of the graph has a cost below zero. *)
Definition closed_walks_nonneg (es : list edge) (cf : gmap edge Z) (dc : Z) : Prop :=
  ∀ u w, is_walk es u w u → 0 ≤ walk_cost cf dc w.

(** The cost map holds, for every pair joined by a walk of the graph, the
    least cost of such a walk, with a routing entry that is the first hop of
    a walk of that cost; it has no entry for the other pairs. *)
Definition closure_least (es : list edge) (cf : gmap edge Z) (dc : Z)
    (s : CPTDigraphManager) : Prop :=
  closure_sound es cf dc s
  ∧ ∀ i j w, is_walk es i w j →
      ∃ c, cost s !! (i, j) = Some c ∧ c ≤ walk_cost cf dc w.

(** How many pairs of nodes hold a positive amount in the assignment map:
    the duplications [_find_path] can still find. *)
Definition pending (ns : list node) (f : gmap edge Z) : nat :=
  length (filter (λ e, 0 < dict_get f e 0) (product ns ns)).

(** The graph, the cost model, the cost map and the routing tree: what the
    assignment and the tour extraction read and never write. *)
Definition routing_kept (s s' : CPTDigraphManager) : Prop :=
  static s s' ∧ cost s = cost s' ∧ spanning_tree s = spanning_tree s'.

(** The edges of a list that leave, and that enter, a node. *)
Definition out_edges (x : node) (l : list edge) : list edge :=
  filter (λ e, e.1 = x) l.

Definition in_edges (x : node) (l : list edge) : list edge :=
  filter (λ e, e.2 = x) l.

(** The tour takes the edge from a node to its routing hop towards the
    start node only after every other edge out of that node. *)
Definition bridge_last (t : gmap edge node) (start_node : node)
    (es cpt : list edge) : Prop :=
  ∀ x b, t !! (x, start_node) = Some b → (x, b) ∈ cpt →
    ∀ y, (x, y) ∈ es → (x, y) ∈ cpt.

(** Every routing entry goes with a cost entry. *)
Definition tree_keys (s : CPTDigraphManager) : Prop :=
  ∀ e, is_Some (spanning_tree s !! e) → is_Some (cost s !! e).

(** The outcome of [m] and what it does to the instance are the same
    whatever the cost function of the instance holds. *)
Definition ignores_cost_function {A} (m : M A) : Prop :=
  ∀ cf s, m (with_cost_function cf s) = ((m s).1, with_cost_function cf (m s).2).

(** The statements of [compute_cpt] up to the reset of the instance. *)
Definition tour_and_cost (fuel : nat) (start_node : node) : M (list edge * Z) :=
  let! sc := check_if_digraph_is_strongly_connected in
  if negb sc then raise NotSCGException
  else
    let! dd := _split_nodes_based_on_delta in
    _find_feasible dd.1 dd.2 >>
    let! residual_cpt := _get_residual_diblob_manager_for_cpt dd.1 dd.2 in
    improve_loop fuel fuel dd.1 dd.2 residual_cpt >>
    let! cpt := _get_cpt fuel start_node in
    let! cost' := _get_cost in
    ret (cpt, cost').

(** The self-pair entries that are negative in [s'] are entries of [s]:
    nothing has written them. *)
Definition diag_kept (s s' : CPTDigraphManager) : Prop :=
  ∀ n c, cost s' !! (n, n) = Some c → c < 0 → cost s !! (n, n) = Some c.

(** No node of [K] has a negative self-pair entry. *)
Definition diag_nonneg (K : list node) (s : CPTDigraphManager) : Prop :=
  ∀ n c, n ∈ K → cost s !! (n, n) = Some c → 0 ≤ c.

(** Whatever [m] does without running out of fuel, [m'] does too. *)
Definition refines {A} (m m' : M A) : Prop :=
  ∀ s o s', m s = (o, s') → o ≠ OutOfFuel → m' s = (o, s').

(** The nodes to which, and from which, the assignment [f] holds a
    duplication of amount 1 for the node [x]. *)
Definition flows_out (ns : list node) (f : gmap edge Z) (x : node) : list node :=
  filter (λ p, f !! (x, p) = Some 1) ns.

Definition flows_in (ns : list node) (f : gmap edge Z) (x : node) : list node :=
  filter (λ n, f !! (n, x) = Some 1) ns.

(** Where the tour extraction stands when it is at the node [v], on an
    assignment [f0] of amounts 0 and 1: [LS] lists the pairs served so far,
    [LU] the edges taken one by one, [M] both in the order of the tour, a
    served pair counting as one step from its deficit to its surplus
    node. *)
Definition tour_inv (es : list edge) (cf : gmap edge Z) (dc : Z)
    (t : CPTDigraphManager) (start_node : node) (f0 : gmap edge Z)
    (s : CPTDigraphManager) (v : node) (used : gset edge)
    (cpt LU LS M : list edge) : Prop :=
  (∀ e, feasible s !! e = if decide (e ∈ LS) then Some (-1) else f0 !! e)
  ∧ NoDup LS ∧ (∀ e, e ∈ LS → f0 !! e = Some 1)
  ∧ NoDup LU ∧ (∀ e, e ∈ used ↔ e ∈ LU) ∧ Forall (λ e, e ∈ es) LU
  ∧ walk_from start_node M = Some v ∧ M ≡ₚ LU ++ LS
  ∧ walk_from start_node cpt = Some v ∧ Forall (λ e, e ∈ es) cpt
  ∧ (∀ e, e ∈ LU → e ∈ cpt)
  ∧ walk_cost cf dc cpt
    = sumZ (λ e, dict_get cf e dc) LU + sumZ (λ e, dict_get (cost t) e 0) LS
  ∧ bridge_last (spanning_tree t) start_node es LU
  ∧ (∀ x y p, (x, y) ∈ LU → f0 !! (x, p) = Some 1 → (x, p) ∈ LS).

(** * Properties *)

(** ** Stepping through the monad *)

Lemma bind_ret {A B} (m : M A) (k : A → M B) s a s' :
  m s = (Ret a, s') → bind m k s = k a s'.
Proof. intros Hm. unfold bind. by rewrite Hm. Qed.

Lemma bind_raise {A B} (m : M A) (k : A → M B) s e s' :
  m s = (Raise e, s') → bind m k s = (Raise e, s').
Proof. intros Hm. unfold bind. by rewrite Hm. Qed.

Lemma bind_inv {A B} (m : M A) (k : A → M B) s o s' :
  bind m k s = (o, s') →
  (∃ a s1, m s = (Ret a, s1) ∧ k a s1 = (o, s'))
  ∨ (∃ e, m s = (Raise e, s') ∧ o = Raise e)
  ∨ (m s = (OutOfFuel, s') ∧ o = OutOfFuel).
Proof.
  unfold bind. destruct (m s) as [[a|e|] s1]; intros Hk.
  - left. eauto.
  - right. left. exists e. by inversion Hk.
  - right. right. by inversion Hk.
Qed.

Lemma getitem_Some {K V} `{Countable K} (d : gmap K V) k v s :
  d !! k = Some v → getitem d k s = (Ret v, s).
Proof. intros Hk. unfold getitem. by rewrite Hk. Qed.

Lemma dict_in_true {K V} `{Countable K} (d : gmap K V) k :
  dict_in d k = true ↔ is_Some (d !! k).
Proof. unfold dict_in. by rewrite bool_decide_eq_true. Qed.

Lemma dict_in_false {K V} `{Countable K} (d : gmap K V) k :
  dict_in d k = false ↔ d !! k = None.
Proof.
  unfold dict_in. rewrite bool_decide_eq_false. by rewrite eq_None_not_Some.
Qed.

(** ** What a method may touch, and what it may raise *)

Section respects.
Variable R : relation CPTDigraphManager.
Variable E : exn → Prop.
Context `{!PreOrder R}.

Local Abbreviation respects := (respects R E).

Lemma respects_ret {A} (a : A) : respects (ret a).
Proof. intros s. split; [reflexivity | discriminate]. Qed.

Lemma respects_out_of_fuel {A} : respects (@out_of_fuel A).
Proof. intros s. split; [reflexivity | discriminate]. Qed.

Lemma respects_gets {A} (f : CPTDigraphManager → A) : respects (gets f).
Proof. intros s. split; [reflexivity | discriminate]. Qed.

Lemma respects_raise {A} e : E e → respects (@raise A e).
Proof. intros He s. split; [reflexivity | by intros e' [= <-]]. Qed.

Lemma respects_modify f : (∀ s, R s (f s)) → respects (modify f).
Proof. intros Hf s. split; [apply Hf | discriminate]. Qed.

Lemma respects_getitem {K V} `{Countable K} (d : gmap K V) k :
  E KeyError → respects (getitem d k).
Proof.
  intros He s. unfold getitem. destruct (d !! k); simpl.
  - split; [reflexivity | discriminate].
  - split; [reflexivity | by intros e [= <-]].
Qed.

Lemma respects_bind {A B} (m : M A) (k : A → M B) :
  respects m → (∀ a, respects (k a)) → respects (bind m k).
Proof.
  intros Hm Hk s. unfold bind. specialize (Hm s).
  destruct (m s) as [[a|e|] s1]; simpl in *.
  - destruct Hm as [HR _]. destruct (Hk a s1) as [HR' HE'].
    split; [by etrans | done].
  - destruct Hm as [HR HE]. split; [done|]. intros e' [= <-]. by apply HE.
  - destruct Hm as [HR _]. split; [done | discriminate].
Qed.

Lemma respects_for_in {X} (l : list X) (body : X → M bool) :
  (∀ x, respects (body x)) → respects (for_in l body).
Proof.
  intros Hb. induction l as [|x l IH]; simpl.
  - apply respects_ret.
  - apply respects_bind; [apply Hb|]. intros [|]; [apply respects_ret | apply IH].
Qed.

Lemma respects_if {A} (b : bool) (m1 m2 : M A) :
  respects m1 → respects m2 → respects (if b then m1 else m2).
Proof. by destruct b. Qed.

Hypothesis R_cost : ∀ c s, R s (with_cost c s).
Hypothesis R_tree : ∀ t s, R s (with_spanning_tree t s).
Hypothesis R_delta : ∀ d s, R s (with_delta d s).
Hypothesis R_basic : ∀ b s, R s (with_basic_cost b s).
Hypothesis R_feasible : ∀ f s, R s (with_feasible f s).
Hypothesis E_key : E KeyError.

Lemma relax_respects k i j : respects (relax k i j).
Proof.
  unfold relax.
  repeat first
    [ apply respects_bind; [|intros ?]
    | apply respects_if
    | apply respects_gets | apply respects_ret
    | apply respects_getitem; [exact E_key]
    | apply respects_modify; intros ?; (apply R_cost || apply R_tree)
    | match goal with |- respects (if decide _ then _ else _) => case_decide end
    | match goal with |- respects (if ?b then _ else _) => destruct b end ].
Qed.

Lemma least_cost_paths_run_respects : respects least_cost_paths_run.
Proof.
  unfold least_cost_paths_run.
  apply respects_bind; [apply respects_gets|]. intros ns.
  apply respects_for_in. intros [k i]. unfold relax_row.
  apply respects_bind; [apply respects_gets|]. intros c.
  apply respects_if; [|apply respects_ret].
  apply respects_bind; [apply respects_gets|]. intros ns'.
  apply respects_for_in. intros j. apply relax_respects.
Qed.

Lemma check_respects : respects check_if_digraph_is_strongly_connected.
Proof.
  unfold check_if_digraph_is_strongly_connected, least_cost_paths.
  apply respects_bind.
  { apply respects_bind; [apply least_cost_paths_run_respects|].
    intros _. apply respects_ret. }
  intros _.
  apply respects_bind; [apply respects_gets|]. intros c.
  apply respects_bind; [apply respects_gets|]. intros ns.
  apply respects_bind; [|intros ?; apply respects_ret].
  apply respects_for_in. intros th. apply respects_ret.
Qed.

Ltac respects_step :=
  first
    [ apply respects_ret | apply respects_gets | apply respects_out_of_fuel
    | apply respects_getitem; [exact E_key]
    | apply respects_modify; intros ?;
      first [apply R_cost | apply R_tree | apply R_delta | apply R_basic
            | apply R_feasible]
    | apply respects_bind; [|intros ?]
    | match goal with |- respects (if decide _ then _ else _) => case_decide end
    | match goal with |- respects (if ?b then _ else _) => destruct b end
    | match goal with |- respects (match ?o with _ => _ end) => destruct o end ].

Lemma split_loop_respects ns a b : respects (split_loop ns a b).
Proof.
  revert a b. induction ns as [|n ns IH]; intros a b; simpl.
  - apply respects_ret.
  - do 2 (apply respects_bind; [respects_step|intros ?]).
    repeat first [apply IH | respects_step].
Qed.

Lemma split_respects : respects _split_nodes_based_on_delta.
Proof.
  unfold _split_nodes_based_on_delta.
  apply respects_bind; [respects_step|intros ?]. apply split_loop_respects.
Qed.

Lemma find_feasible_respects a b : respects (_find_feasible a b).
Proof.
  unfold _find_feasible. apply respects_bind; [|intros ?; apply respects_ret].
  apply respects_for_in. intros np. unfold feasible_step.
  repeat respects_step.
Qed.

Lemma residual_loop_respects ps es rc : respects (residual_loop ps es rc).
Proof.
  revert es rc. induction ps as [|[n p] ps IH]; intros es rc; simpl.
  - apply respects_ret.
  - do 4 (apply respects_bind; [respects_step|intros ?]).
    case_decide; [|apply IH].
    apply respects_bind; [respects_step|intros ?]. apply IH.
Qed.

Lemma residual_respects a b : respects (_get_residual_diblob_manager_for_cpt a b).
Proof.
  unfold _get_residual_diblob_manager_for_cpt.
  apply respects_bind; [apply residual_loop_respects|intros ?].
  repeat respects_step.
Qed.

Lemma find_k_respects fuel rc rt n u k flag : respects (find_k fuel rc rt n u k flag).
Proof.
  revert u k flag. induction fuel as [|fuel IH]; intros u k flag; simpl.
  - apply respects_out_of_fuel.
  - do 3 (apply respects_bind; [respects_step|intros ?]).
    case_decide; [apply respects_ret | apply IH].
Qed.

Lemma cancel_k_respects fuel rc rt n u k : respects (cancel_k fuel rc rt n u k).
Proof.
  revert u. induction fuel as [|fuel IH]; intros u; simpl.
  - apply respects_out_of_fuel.
  - do 3 (apply respects_bind; [respects_step|intros ?]).
    apply respects_bind; [repeat respects_step|intros ?].
    case_decide; [apply respects_ret | apply IH].
Qed.

Lemma improvements_respects fuel r : respects (_improvements fuel r).
Proof.
  unfold _improvements. apply respects_bind; [respects_step|intros ns].
  apply respects_for_in. intros n. unfold improve_at.
  apply respects_if; [|apply respects_ret].
  apply respects_bind; [apply find_k_respects|intros k].
  apply respects_bind; [apply cancel_k_respects|intros ?]. apply respects_ret.
Qed.

Lemma improve_loop_respects fuel n a b r : respects (improve_loop fuel n a b r).
Proof.
  revert r. induction n as [|n IH]; intros r; simpl.
  - apply respects_out_of_fuel.
  - apply respects_bind; [apply improvements_respects|intros improved].
    destruct improved; [|apply respects_ret].
    apply respects_bind; [apply residual_respects|intros ?]. apply IH.
Qed.

Lemma walk_path_respects fuel u v cpt : respects (walk_path fuel u v cpt).
Proof.
  revert u cpt. induction fuel as [|fuel IH]; intros u cpt; simpl.
  - case_decide; [apply respects_ret | apply respects_out_of_fuel].
  - case_decide; [apply respects_ret|].
    do 2 (apply respects_bind; [respects_step|intros ?]). apply IH.
Qed.

Lemma tour_loop_respects bound fuel start v used cpt :
  respects (tour_loop bound fuel start v used cpt).
Proof.
  revert v used cpt. induction fuel as [|fuel IH]; intros v used cpt; simpl.
  - apply respects_out_of_fuel.
  - do 2 (apply respects_bind; [respects_step|intros ?]).
    destruct (_find_path _ _ _).
    + apply respects_bind; [|intros ?; apply IH].
      unfold serve_path. apply respects_bind; [respects_step|intros ?].
      apply walk_path_respects.
    + do 2 (apply respects_bind; [respects_step|intros ?]).
      case_decide; [apply respects_ret|].
      apply respects_bind; [respects_step|intros ?]. apply IH.
Qed.

Lemma get_cpt_respects fuel start : respects (_get_cpt fuel start).
Proof. apply tour_loop_respects. Qed.

(** The part of [compute_cpt] that follows the connectivity check. *)
Lemma solve_respects fuel start :
  respects (let! dd := _split_nodes_based_on_delta in
            _find_feasible dd.1 dd.2 >>
            let! residual_cpt := _get_residual_diblob_manager_for_cpt dd.1 dd.2 in
            improve_loop fuel fuel dd.1 dd.2 residual_cpt >>
            let! cpt := _get_cpt fuel start in
            let! cost' := _get_cost in
            _set_cost >>
            _set_spanning_tree >>
            _set_delta >>
            _set_basic_cost >>
            modify (with_feasible ∅) >>
            ret (cpt, cost')).
Proof.
  apply respects_bind; [apply split_respects|intros dd].
  apply respects_bind; [apply find_feasible_respects|intros ?].
  apply respects_bind; [apply residual_respects|intros r].
  apply respects_bind; [apply improve_loop_respects|intros ?].
  apply respects_bind; [apply get_cpt_respects|intros cpt].
  apply respects_bind; [apply respects_gets|intros c].
  unfold _set_cost, _set_spanning_tree, _set_delta, _set_basic_cost.
  repeat respects_step.
Qed.

End respects.

(** ** What never changes, and what only the closure changes *)

#[local] Instance static_preorder : PreOrder static.
Proof.
  split.
  - by intros s.
  - intros s1 s2 s3 (?&?&?&?) (?&?&?&?). repeat split; congruence.
Qed.

#[local] Instance closure_only_preorder : PreOrder closure_only.
Proof.
  split.
  - by intros s.
  - intros s1 s2 s3 ((?&?&?&?)&?&?&?) ((?&?&?&?)&?&?&?). repeat split; congruence.
Qed.

Lemma respects_run {A} R E (m : M A) s o s' :
  respects R E m → m s = (o, s') → R s s'.
Proof. intros Hm Hs. destruct (Hm s) as [HR _]. by rewrite Hs in HR. Qed.

Lemma respects_exn {A} R E (m : M A) s e s' :
  respects R E m → m s = (Raise e, s') → E e.
Proof. intros Hm Hs. destruct (Hm s) as [_ HE]. apply HE. by rewrite Hs. Qed.

Lemma pristine_new ns es cf dc :
  pristine (new_CPTDigraphManager ns es cf dc) = new_CPTDigraphManager ns es cf dc.
Proof. reflexivity. Qed.

Ltac frame_solve :=
  try apply _; try done; intros; repeat split; reflexivity.

Lemma connect_nodes_pristine edge_ids s :
  feasible s = ∅ →
  pristine (connect_nodes edge_ids s).2 = (connect_nodes edge_ids s).2.
Proof.
  intros Hf. destruct s as [ns es cf dc c t d b f]. simpl in Hf. subst f.
  reflexivity.
Qed.

Tactic Notation "bind_step" hyp(H) "as" ident(a) ident(s1) ident(H1) :=
  apply bind_inv in H as [(a & s1 & H1 & H)|[(? & _ & ?)|[_ ?]]]; [|done..].

(** A successful [compute_cpt] ends in the pristine state of its instance. *)
Lemma compute_cpt_Ret fuel start s r s' :
  compute_cpt fuel start s = (Ret r, s') → s' = pristine s.
Proof.
  intros Hc. unfold compute_cpt in Hc.
  bind_step Hc as sc s1 H1. destruct sc; [simpl in Hc|done].
  bind_step Hc as dd s2 H2. bind_step Hc as u3 s3 H3. bind_step Hc as res s4 H4.
  bind_step Hc as u5 s5 H5. bind_step Hc as cpt s6 H6. bind_step Hc as c s7 H7.
  assert (static s s7) as (Hn & He & Hcf & Hdc).
  { etrans; [eapply (respects_run static any_exn), H1; apply check_respects; frame_solve|].
    etrans; [eapply (respects_run static any_exn), H2; apply split_respects; frame_solve|].
    etrans; [eapply (respects_run static any_exn), H3;
             apply find_feasible_respects; frame_solve|].
    etrans; [eapply (respects_run static any_exn), H4; apply residual_respects; frame_solve|].
    etrans; [eapply (respects_run static any_exn), H5;
             apply improve_loop_respects; frame_solve|].
    etrans; [eapply (respects_run static any_exn), H6; apply get_cpt_respects; frame_solve|].
    eapply (respects_run static any_exn), H7. apply respects_gets; frame_solve. }
  unfold bind, _set_cost, _set_spanning_tree, _set_delta, _set_basic_cost,
    modify, ret in Hc. simpl in Hc.
  injection Hc as _ <-. unfold pristine, new_CPTDigraphManager.
  unfold bind, _set_cost, _set_spanning_tree, _set_delta, _set_basic_cost,
    modify, ret. simpl.
  rewrite Hn, He, Hcf, Hdc. reflexivity.
Qed.

(** ** Loops that only read *)

Lemma for_in_pure {X} (f : X → bool) (l : list X) s :
  for_in l (λ x, ret (f x)) s = (Ret (existsb f l), s).
Proof.
  induction l as [|x l IH]; simpl; [done|].
  unfold bind, ret in *. destruct (f x); simpl; [done|apply IH].
Qed.

Lemma check_after_closure s :
  (check_if_digraph_is_strongly_connected s).2 = (least_cost_paths s).2.
Proof.
  unfold check_if_digraph_is_strongly_connected, bind at 1.
  destruct (least_cost_paths s) as [[[]|e|] s1]; simpl; [|done..].
  unfold bind, gets. simpl. by rewrite for_in_pure.
Qed.

(** [compute_cpt] raises NotSCGException only at its first statement. *)
Lemma compute_cpt_NotSCG fuel start s s' :
  compute_cpt fuel start s = (Raise NotSCGException, s') →
  check_if_digraph_is_strongly_connected s = (Ret false, s').
Proof.
  intros Hc. unfold compute_cpt in Hc.
  apply bind_inv in Hc as [(b & s1 & H1 & Hc)|[(e & H1 & [= <-])|[_ ?]]]; [| |done].
  - destruct b; simpl in Hc.
    + enough (only_KeyError NotSCGException) as Hk by (by unfold only_KeyError in Hk).
      eapply (respects_exn (λ _ _, True)); [|exact Hc].
      apply solve_respects; try done; by split.
    + unfold raise in Hc. by injection Hc as <-.
  - enough (only_KeyError NotSCGException) as Hk by (by unfold only_KeyError in Hk).
    eapply (respects_exn (λ _ _, True)); [|exact H1].
    apply check_respects; try done; by split.
Qed.

(** ** Dictionaries built by comprehension *)

Lemma comprehension_lookup {K V} `{Countable K} (f : K → V) (l : list K)
    (d : gmap K V) (k : K) :
  foldl (λ d e, <[e := f e]> d) d l !! k
  = if decide (k ∈ l) then Some (f k) else d !! k.
Proof.
  revert d. induction l as [|x l IH]; intros d; cbn [foldl].
  - by rewrite decide_False by apply not_elem_of_nil.
  - rewrite IH. destruct (decide (k ∈ l)) as [Hl|Hl].
    + rewrite decide_True; [done | by right].
    + destruct (decide (x = k)) as [->|Hne].
      * rewrite decide_True; [|by left]. by rewrite lookup_insert_eq.
      * rewrite decide_False; [by rewrite lookup_insert_ne|].
        intros [->|?]%elem_of_cons; done.
Qed.

Lemma new_cost_lookup ns es cf dc e :
  cost (new_CPTDigraphManager ns es cf dc) !! e
  = if decide (e ∈ es) then Some (dict_get cf e dc) else None.
Proof. unfold new_CPTDigraphManager. simpl. by rewrite comprehension_lookup. Qed.

Lemma new_spanning_tree_lookup ns es cf dc e :
  spanning_tree (new_CPTDigraphManager ns es cf dc) !! e
  = if decide (e ∈ es) then Some e.2 else None.
Proof. unfold new_CPTDigraphManager. simpl. by rewrite comprehension_lookup. Qed.

Lemma new_delta_lookup ns es cf dc n :
  delta (new_CPTDigraphManager ns es cf dc) !! n
  = if decide (n ∈ ns) then Some (outgoing_dim es n - incoming_dim es n) else None.
Proof.
  unfold new_CPTDigraphManager. simpl.
  by rewrite (comprehension_lookup (λ n, outgoing_dim es n - incoming_dim es n)).
Qed.

(** ** The cost closure holds reachable pairs only *)

Lemma new_closure_inv ns es cf dc :
  closure_inv es (new_CPTDigraphManager ns es cf dc).
Proof.
  split.
  - intros u v. rewrite new_cost_lookup. case_decide; [|by intros [? ?]].
    intros _. by apply tc_once.
  - intros e. rewrite new_cost_lookup, new_spanning_tree_lookup.
    case_decide; [by eauto | by intros [? ?]].
Qed.

Lemma relax_closure es k i j s :
  closure_inv es s → is_Some (cost s !! (i, k)) →
  ∃ b s', relax k i j s = (Ret b, s') ∧ closure_inv es s' ∧ cost_grows s s'
          ∧ (b = true → negative_self i s').
Proof.
  intros [Hpath Htree] Hik. unfold relax, bind at 1, gets at 1. simpl.
  destruct (dict_in (cost s) (k, j)) eqn:Hkj; last first.
  { exists false, s. split; [done|]. split; [by split|]. by split; [intros ?|]. }
  apply dict_in_true in Hkj.
  destruct Hik as [cik Hcik]. destruct Hkj as [ckj Hckj].
  destruct (Htree (i, k)) as [hop Hhop]; [by eauto|].
  assert (∀ (better : bool),
    ∃ b s',
      (if better then
         let! t := gets spanning_tree in
         let! hop := getitem t (i, k) in
         modify (with_spanning_tree (<[(i, j) := hop]> t)) >>
         modify (with_cost (<[(i, j) := dict_get (cost s) (i, k) 0
                                       + dict_get (cost s) (k, j) 0]> (cost s))) >>
         if decide (i = j) then
           let! c' := gets cost in
           let! cii := getitem c' (i, j) in
           ret (bool_decide (cii < 0))
         else ret false
       else ret false) s = (Ret b, s')
      ∧ closure_inv es s' ∧ cost_grows s s' ∧ (b = true → negative_self i s')) as Hrest.
  { intros [|]; last first.
    { exists false, s. split; [done|]. split; [by split|]. by split; [intros ?|]. }
    unfold bind, gets, modify, getitem. simpl. rewrite Hhop. simpl.
    assert (closure_inv es
      (with_cost (<[(i, j) := dict_get (cost s) (i, k) 0 + dict_get (cost s) (k, j) 0]>
                    (cost s))
         (with_spanning_tree (<[(i, j) := hop]> (spanning_tree s)) s))) as Hinv.
    { split; simpl.
      - intros u v. destruct (decide ((i, j) = (u, v))) as [[= <- <-]|Hne].
        + intros _. eapply tc_transitive; apply Hpath; eauto.
        + rewrite lookup_insert_ne by done. apply Hpath.
      - intros e. destruct (decide ((i, j) = e)) as [<-|Hne].
        + rewrite !lookup_insert_eq. eauto.
        + rewrite !lookup_insert_ne by done. apply Htree. }
    assert (cost_grows s
      (with_cost (<[(i, j) := dict_get (cost s) (i, k) 0 + dict_get (cost s) (k, j) 0]>
                    (cost s))
         (with_spanning_tree (<[(i, j) := hop]> (spanning_tree s)) s))) as Hgrow.
    { intros e He. simpl. destruct (decide ((i, j) = e)) as [<-|Hne].
      - rewrite lookup_insert_eq. eauto.
      - by rewrite lookup_insert_ne. }
    case_decide as Hij.
    - subst j. simpl. rewrite lookup_insert_eq. unfold ret.
      eexists _, _. split; [reflexivity|]. split; [done|]. split; [done|].
      intros Hneg%bool_decide_eq_true. eexists. simpl.
      rewrite lookup_insert_eq. split; [reflexivity|done].
    - unfold ret. eexists _, _. split; [reflexivity|]. by split; [|split]. }
  unfold bind at 1.
  destruct (dict_in (cost s) (i, j)) eqn:Hij; simpl.
  - apply dict_in_true in Hij as [cij Hcij].
    unfold bind at 1 2 3, getitem at 1 2 3. rewrite Hcij, Hcik, Hckj. simpl.
    apply Hrest.
  - unfold ret at 1. apply (Hrest true).
Qed.

Lemma relax_loop_closure es k i js s :
  closure_inv es s → is_Some (cost s !! (i, k)) →
  ∃ b s', for_in js (relax k i) s = (Ret b, s') ∧ closure_inv es s'
          ∧ cost_grows s s' ∧ (b = true → negative_self i s').
Proof.
  revert s. induction js as [|j js IH]; intros s Hinv Hik; simpl.
  - exists false, s. split; [done|]. split; [done|]. by split; [intros ?|].
  - destruct (relax_closure es k i j s Hinv Hik) as (b & s1 & Hrun & Hinv1 & Hg1 & Hneg1).
    rewrite (bind_ret _ _ _ _ _ Hrun). destruct b.
    + exists true, s1. by repeat (split; [done|]).
    + destruct (IH s1 Hinv1 (Hg1 _ Hik)) as (b & s2 & Hrun2 & Hinv2 & Hg2 & Hneg2).
      exists b, s2. split; [done|]. split; [done|]. split; [|done].
      intros e He. by apply Hg2, Hg1.
Qed.

Lemma relax_row_closure es ki s :
  closure_inv es s →
  ∃ b s', relax_row ki s = (Ret b, s') ∧ closure_inv es s'
          ∧ (b = true → negative_self ki.2 s').
Proof.
  intros Hinv. unfold relax_row, bind, gets. simpl.
  destruct (dict_in (cost s) (ki.2, ki.1)) eqn:Hik.
  - apply dict_in_true in Hik.
    destruct (relax_loop_closure es ki.1 ki.2 (nodes s) s Hinv Hik)
      as (b & s' & Hrun & Hinv' & _ & Hneg).
    exists b, s'. by rewrite Hrun.
  - exists false, s. by repeat (split; [done|]).
Qed.

Lemma closure_loop es kis s :
  closure_inv es s →
  ∃ b s', for_in kis relax_row s = (Ret b, s') ∧ closure_inv es s'
          ∧ (b = true → ∃ ki, ki ∈ kis ∧ negative_self ki.2 s').
Proof.
  revert s. induction kis as [|ki kis IH]; intros s Hinv; simpl.
  - exists false, s. by repeat (split; [done|]).
  - destruct (relax_row_closure es ki s Hinv) as (b & s1 & Hrun & Hinv1 & Hneg1).
    rewrite (bind_ret _ _ _ _ _ Hrun). destruct b.
    + exists true, s1. split; [done|]. split; [done|].
      intros _. exists ki. split; [by left | by apply Hneg1].
    + destruct (IH s1 Hinv1) as (b & s2 & Hrun2 & Hinv2 & Hneg2).
      exists b, s2. split; [done|]. split; [done|].
      intros Hb. destruct (Hneg2 Hb) as (ki' & Hin & Hn). exists ki'. split; [by right|done].
Qed.

Lemma elem_of_product {A B} (a : list A) (b : list B) x y :
  (x, y) ∈ product a b ↔ x ∈ a ∧ y ∈ b.
Proof. unfold product. rewrite !list_elem_of_In. apply in_prod_iff. Qed.

(** The closure computation never raises from a state that satisfies the
    invariant; when it stops early, a negative self-pair entry of a node is
    in the cost map. *)
Lemma least_cost_paths_run_closure es s :
  closure_inv es s →
  ∃ b s', least_cost_paths_run s = (Ret b, s') ∧ closure_inv es s'
          ∧ (b = true → ∃ n, n ∈ nodes s ∧ negative_self n s').
Proof.
  intros Hinv. unfold least_cost_paths_run, bind, gets. simpl.
  destruct (closure_loop es (product (nodes s) (nodes s)) s Hinv)
    as (b & s' & Hrun & Hinv' & Hneg).
  exists b, s'. split; [done|]. split; [done|].
  intros Hb. destruct (Hneg Hb) as ([k i] & Hin & Hn).
  apply elem_of_product in Hin as [_ Hi]. by exists i.
Qed.

Lemma all_pairs_in_true ns c :
  all_pairs_in ns c = true ↔ ∀ u v, u ∈ ns → v ∈ ns → is_Some (c !! (u, v)).
Proof.
  unfold all_pairs_in. rewrite negb_true_iff. split.
  - intros Hex u v Hu Hv. apply dict_in_true.
    destruct (dict_in c (u, v)) eqn:Hd; [done|]. exfalso.
    assert (existsb (λ th, negb (dict_in c th)) (product ns ns) = true) as Ht; [|congruence].
    apply existsb_exists. exists (u, v). split; [|by rewrite Hd].
    apply list_elem_of_In, elem_of_product. done.
  - intros Hall. apply not_true_is_false. intros ([u v] & Hin & Hd)%existsb_exists.
    apply list_elem_of_In, elem_of_product in Hin as [Hu Hv].
    apply negb_true_iff, dict_in_false in Hd.
    destruct (Hall u v Hu Hv) as [c' Hc']. congruence.
Qed.

Lemma check_closure es s :
  closure_inv es s →
  ∃ s', check_if_digraph_is_strongly_connected s
        = (Ret (all_pairs_in (nodes s) (cost s')), s')
        ∧ closure_inv es s' ∧ closure_only s s'
        ∧ least_cost_paths s = (Ret tt, s').
Proof.
  intros Hinv.
  destruct (least_cost_paths_run_closure es s Hinv) as (b & s' & Hrun & Hinv' & _).
  assert (least_cost_paths s = (Ret tt, s')) as Hl.
  { unfold least_cost_paths. by rewrite (bind_ret _ _ _ _ _ Hrun). }
  assert (closure_only s s') as Hco.
  { eapply (respects_run closure_only any_exn), Hrun.
    apply least_cost_paths_run_respects; frame_solve. }
  exists s'. split; [|done].
  unfold check_if_digraph_is_strongly_connected.
  rewrite (bind_ret _ _ _ _ _ Hl). unfold bind, gets. simpl.
  rewrite for_in_pure. unfold ret, all_pairs_in.
  destruct Hco as ((-> & _) & _). done.
Qed.

Lemma compute_cpt_phases fuel start s :
  compute_cpt fuel start s
  = (let! sc := check_if_digraph_is_strongly_connected in
     if negb sc then raise NotSCGException else after_check fuel start) s.
Proof.
  unfold compute_cpt, after_check, build_assignment, bind.
  destruct (check_if_digraph_is_strongly_connected s) as [[[|]|e|] s1]; simpl; try done.
  destruct (_split_nodes_based_on_delta s1) as [[dd|e|] s2]; try done.
  destruct (_find_feasible dd.1 dd.2 s2) as [[?|e|] s3]; try done.
  destruct (_get_residual_diblob_manager_for_cpt dd.1 dd.2 s3) as [[r|e|] s4]; try done.
  destruct (improve_loop fuel fuel dd.1 dd.2 r s4) as [[?|e|] s5]; try done.
Qed.

(** [first_assignment] is the beginning of [compute_cpt]: the check followed
    by [build_assignment] is [first_assignment] followed by the residual
    graph and the cancellation loop. *)
Lemma build_assignment_first fuel s :
  (check_if_digraph_is_strongly_connected >> build_assignment fuel) s
  = (let! dd := first_assignment in
     let! residual_cpt := _get_residual_diblob_manager_for_cpt dd.1 dd.2 in
     improve_loop fuel fuel dd.1 dd.2 residual_cpt >>
     ret dd) s.
Proof.
  unfold first_assignment, build_assignment, bind.
  destruct (check_if_digraph_is_strongly_connected s) as [[?|e|] s1]; try done.
  destruct (_split_nodes_based_on_delta s1) as [[dd|e|] s2]; try done.
  destruct (_find_feasible dd.1 dd.2 s2) as [[?|e|] s3]; try done.
Qed.

(** When the check of a fresh instance answers True the graph is strongly
    connected. *)
Lemma check_true_strongly_connected ns es cf dc :
  (check_if_digraph_is_strongly_connected (new_CPTDigraphManager ns es cf dc)).1
    = Ret true →
  strongly_connected ns es.
Proof.
  intros Hc.
  destruct (check_closure es _ (new_closure_inv ns es cf dc))
    as (s1 & Hrun & [Hpath _] & _ & _).
  rewrite Hrun in Hc. injection Hc as Hall.
  intros u v Hu Hv. apply tc_rtc, Hpath.
  by apply (proj1 (all_pairs_in_true ns (cost s1)) Hall).
Qed.

Lemma one_way_not_strongly_connected :
  ¬ strongly_connected ["a"; "b"; "c"] [("a","b"); ("b","c")].
Proof.
  intros Hsc.
  assert (rtc (edge_rel [("a","b"); ("b","c")]) "c" "a") as Hr.
  { apply Hsc; apply (bool_decide_unpack _); vm_compute; exact I. }
  apply rtc_inv in Hr as [Heq|(y & Hy & _)]; [done|].
  unfold edge_rel in Hy.
  apply elem_of_cons in Hy as [[=]|Hy]. apply elem_of_cons in Hy as [[=]|Hy].
  by apply elem_of_nil in Hy.
Qed.

(** * The claims *)

(** ** Failure on graphs that are not strongly connected *)

(** C3.  On an instance built from a graph that is not strongly connected,
    [compute_cpt] raises NotSCGException, and it does so straight after the
    cost closure: the instance it leaves is the one [least_cost_paths] left,
    the assignment map has no entry, and the imbalances and the basic cost
    are those of the constructor, so neither the assignment nor any
    cancellation step has run. *)
Theorem compute_cpt_not_strongly_connected ns es cf dc fuel start_node :
  ¬ strongly_connected ns es →
  ∃ s', compute_cpt fuel start_node (new_CPTDigraphManager ns es cf dc)
          = (Raise NotSCGException, s')
        ∧ least_cost_paths (new_CPTDigraphManager ns es cf dc) = (Ret tt, s')
        ∧ feasible s' = ∅
        ∧ delta s' = delta (new_CPTDigraphManager ns es cf dc)
        ∧ basic_cost s' = basic_cost (new_CPTDigraphManager ns es cf dc).
Proof.
  intros Hnsc.
  destruct (check_closure es _ (new_closure_inv ns es cf dc))
    as (s' & Hrun & Hinv & (_ & Hd & Hb & Hf) & Hl).
  exists s'. rewrite compute_cpt_phases, (bind_ret _ _ _ _ _ Hrun).
  destruct (all_pairs_in _ _) eqn:Hall.
  - destruct Hnsc. eapply check_true_strongly_connected. by rewrite Hrun.
  - simpl. by repeat split.
Qed.

Lemma compute_cpt_not_strongly_connected_witness :
  ∃ s', compute_cpt 10 "a" one_way = (Raise NotSCGException, s')
        ∧ least_cost_paths one_way = (Ret tt, s')
        ∧ feasible s' = ∅
        ∧ delta s' = delta one_way
        ∧ basic_cost s' = basic_cost one_way.
Proof.
  exact (compute_cpt_not_strongly_connected ["a"; "b"; "c"] [("a","b"); ("b","c")]
           ∅ 1 10 "a" one_way_not_strongly_connected).
Defined.

(** C10.  Whenever [compute_cpt] raises NotSCGException the instance is left
    exactly as the cost closure left it: the assignment map, the imbalances
    and the basic cost are untouched, and the cost map and the spanning tree
    keep the closure entries, since the reset is never reached.  On the path
    a -> b -> c the closure entry for (a, c) stays behind, which the
    constructor's maps do not have. *)
Theorem compute_cpt_failure_keeps_closure :
  (∀ fuel start_node s,
     (compute_cpt fuel start_node s).1 = Raise NotSCGException →
     (compute_cpt fuel start_node s).2 = (least_cost_paths s).2
     ∧ feasible (compute_cpt fuel start_node s).2 = feasible s
     ∧ delta (compute_cpt fuel start_node s).2 = delta s
     ∧ basic_cost (compute_cpt fuel start_node s).2 = basic_cost s)
  ∧ (let s' := (compute_cpt 10 "a" one_way).2 in
     (compute_cpt 10 "a" one_way).1 = Raise NotSCGException
     ∧ feasible s' = ∅
     ∧ cost one_way !! ("a","c") = None
     ∧ cost s' !! ("a","c") = Some 2
     ∧ spanning_tree one_way !! ("a","c") = None
     ∧ spanning_tree s' !! ("a","c") = Some "b"
     ∧ s' ≠ pristine one_way).
Proof.
  split.
  - intros fuel start_node s Hc.
    destruct (compute_cpt fuel start_node s) as [o s'] eqn:Hrun. simpl in *.
    subst o. apply compute_cpt_NotSCG in Hrun.
    split.
    + rewrite <- check_after_closure. by rewrite Hrun.
    + assert (closure_only s s') as (_ & Hd & Hb & Hf).
      { eapply (respects_run closure_only any_exn), Hrun.
        apply check_respects; frame_solve. }
      done.
  - split; [by vm_compute|]. split; [by vm_compute|].
    split; [by vm_compute|]. split; [by vm_compute|].
    split; [by vm_compute|]. split; [by vm_compute|].
    intros Heq. apply (f_equal (λ s, cost s !! ("a","c"))) in Heq.
    vm_compute in Heq. discriminate.
Qed.

Lemma compute_cpt_failure_keeps_closure_witness :
  (compute_cpt 10 "a" one_way).2 = (least_cost_paths one_way).2
  ∧ feasible (compute_cpt 10 "a" one_way).2 = feasible one_way
  ∧ delta (compute_cpt 10 "a" one_way).2 = delta one_way
  ∧ basic_cost (compute_cpt 10 "a" one_way).2 = basic_cost one_way.
Proof.
  apply (proj1 compute_cpt_failure_keeps_closure 10%nat "a" one_way).
  vm_compute. reflexivity.
Defined.

(** ** Repeated calls *)

(** C9.  On an instance whose cost map, spanning tree, imbalances, basic
    cost and assignment map are the ones the constructor computes for its
    graph and cost function, when [compute_cpt] returns a tour and its total
    cost the reset has put the instance back in the very state it started
    from, and a second call with the same start node returns the same tour
    and the same total cost. *)
Theorem compute_cpt_twice fuel start_node s cpt total :
  pristine s = s →
  (compute_cpt fuel start_node s).1 = Ret (cpt, total) →
  (compute_cpt fuel start_node s).2 = s
  ∧ (compute_cpt fuel start_node (compute_cpt fuel start_node s).2).1
    = Ret (cpt, total).
Proof.
  intros Hp Hc.
  destruct (compute_cpt fuel start_node s) as [o s1] eqn:Hrun. simpl in *.
  subst o. pose proof (compute_cpt_Ret _ _ _ _ _ Hrun) as Hs.
  rewrite Hp in Hs. subst s1. by rewrite Hrun.
Qed.

Lemma compute_cpt_twice_witness :
  (compute_cpt 100 "s" cpt_test).2 = cpt_test
  ∧ (compute_cpt 100 "s" (compute_cpt 100 "s" cpt_test).2).1
    = Ret ([("s","A"); ("A","C"); ("C","D"); ("D","t"); ("t","s");
            ("s","A"); ("A","B"); ("B","D"); ("D","t"); ("t","s")], 10).
Proof.
  apply (compute_cpt_twice 100 "s" cpt_test); vm_compute; reflexivity.
Defined.

(** A call made after [update_cost_function] runs on the cost map and basic
    cost computed before the update; the reset then recomputes them, so the
    next call answers another total. *)
Remark compute_cpt_after_update_cost_function :
  let s := (update_cost_function {[ ("t","s") := 20 ]} cpt_test).2 in
  (compute_cpt 100 "s" s).1
  = Ret ([("s","A"); ("A","C"); ("C","D"); ("D","t"); ("t","s");
          ("s","A"); ("A","B"); ("B","D"); ("D","t"); ("t","s")], 10)
  ∧ (compute_cpt 100 "s" (compute_cpt 100 "s" s).2).1
    = Ret ([("s","A"); ("A","C"); ("C","D"); ("D","t"); ("t","s");
            ("s","A"); ("A","B"); ("B","D"); ("D","t"); ("t","s")], 48).
Proof. split; vm_compute; reflexivity. Qed.

(** ** Negative cycles *)

(** C4, as stated, fails: [neg_cycle] has the cycle b -> c -> b of cost -4,
    the closure computation takes its early return on it, and [compute_cpt]
    raises nothing: it returns a tour with the total cost -2. *)
Lemma compute_cpt_negative_cycle_unreported :
  negative_cycle neg_cycle
  ∧ (least_cost_paths_run neg_cycle).1 = Ret true
  ∧ (compute_cpt 100 "a" neg_cycle).1
    = Ret ([("a","b"); ("b","c"); ("c","b"); ("b","a")], -2).
Proof.
  split; [|split; vm_compute; reflexivity].
  exists "b", [("b","c"); ("c","b")].
  split; [done|]. split; [by vm_compute|]. split; [|by vm_compute].
  repeat constructor; apply (bool_decide_unpack _); vm_compute; exact I.
Qed.

(** C4, amended.  When the closure computation of an instance takes its
    early return, the cost map holds a self-pair entry of negative cost for
    some node, and [least_cost_paths] returns normally: nothing is raised.
    [compute_cpt] then treats the instance as any other: it raises
    NotSCGException if some ordered pair of nodes has no closure entry, and
    goes on to the assignment and the tour otherwise. *)
Theorem least_cost_paths_negative_self ns es cf dc fuel start_node :
  (least_cost_paths_run (new_CPTDigraphManager ns es cf dc)).1 = Ret true →
  let s' := (least_cost_paths_run (new_CPTDigraphManager ns es cf dc)).2 in
  (∃ n, n ∈ ns ∧ negative_self n s')
  ∧ least_cost_paths (new_CPTDigraphManager ns es cf dc) = (Ret tt, s')
  ∧ compute_cpt fuel start_node (new_CPTDigraphManager ns es cf dc)
    = if all_pairs_in ns (cost s') then after_check fuel start_node s'
      else (Raise NotSCGException, s').
Proof.
  intros Hrun.
  destruct (least_cost_paths_run_closure es _ (new_closure_inv ns es cf dc))
    as (b & s1 & Hrun1 & _ & Hneg).
  rewrite Hrun1 in *. simpl in *. injection Hrun as ->.
  split; [by apply Hneg|].
  destruct (check_closure es _ (new_closure_inv ns es cf dc))
    as (s2 & Hcheck & _ & _ & Hl).
  assert (s2 = s1) as ->.
  { unfold least_cost_paths in Hl. rewrite (bind_ret _ _ _ _ _ Hrun1) in Hl.
    by injection Hl. }
  split; [done|].
  rewrite compute_cpt_phases, (bind_ret _ _ _ _ _ Hcheck).
  by destruct (all_pairs_in _ _).
Qed.

Lemma least_cost_paths_negative_self_witness :
  let s' := (least_cost_paths_run neg_cycle).2 in
  (∃ n, n ∈ ["a"; "b"; "c"] ∧ negative_self n s')
  ∧ least_cost_paths neg_cycle = (Ret tt, s')
  ∧ compute_cpt 100 "a" neg_cycle
    = if all_pairs_in ["a"; "b"; "c"] (cost s') then after_check 100 "a" s'
      else (Raise NotSCGException, s').
Proof.
  apply (least_cost_paths_negative_self ["a"; "b"; "c"]
           [("a","b"); ("b","a"); ("b","c"); ("c","b")] {[ ("c","b") := -5 ]} 1).
  vm_compute. reflexivity.
Defined.

(** ** The tour and its cost on a graph that needs an edge three times *)

Lemma fan_strongly_connected : strongly_connected (nodes fan) (edges fan).
Proof.
  apply (check_true_strongly_connected _ _ ∅ 1). vm_compute. reflexivity.
Qed.

(** C1, at [fan]: the graph is strongly connected, and the walk that
    [compute_cpt] returns from a is closed but takes neither b -> x nor
    x -> a. *)
Theorem compute_cpt_fan_misses_edges :
  strongly_connected (nodes fan) (edges fan)
  ∧ (compute_cpt 100 "a" fan).1
    = Ret ([("a","b"); ("b","y"); ("y","a"); ("a","b"); ("b","z"); ("z","a")], 8)
  ∧ closed_walk "a" [("a","b"); ("b","y"); ("y","a"); ("a","b"); ("b","z"); ("z","a")]
  ∧ ("b","x") ∈ edges fan
  ∧ ("b","x") ∉ [("a","b"); ("b","y"); ("y","a"); ("a","b"); ("b","z"); ("z","a")].
Proof.
  split; [apply fan_strongly_connected|].
  split; [vm_compute; reflexivity|]. split; [vm_compute; reflexivity|].
  split; apply (bool_decide_unpack _); vm_compute; exact I.
Qed.

(** C2, at [fan]: after the cancellation loop the plan is two duplications
    of the pair (a, b) of closure cost 1 over a basic cost of 7, that is 9;
    [compute_cpt] returns the total 8; the edges of the walk it returns cost
    6. *)
Theorem compute_cpt_fan_cost :
  let planned := (check_if_digraph_is_strongly_connected >> build_assignment 100) fan in
  planned.1 = Ret (["a"], ["b"])
  ∧ feasible planned.2 = {[ ("a","b") := 2 ]}
  ∧ planned_cost planned.2 ["a"] ["b"] = 9
  ∧ (compute_cpt 100 "a" fan).1
    = Ret ([("a","b"); ("b","y"); ("y","a"); ("a","b"); ("b","z"); ("z","a")], 8)
  ∧ walk_cost (cost_function fan) (default_cost fan)
      [("a","b"); ("b","y"); ("y","a"); ("a","b"); ("b","z"); ("z","a")] = 6.
Proof.
  split; [vm_compute; reflexivity|]. split; [vm_compute; reflexivity|].
  split; [vm_compute; reflexivity|]. split; [vm_compute; reflexivity|].
  vm_compute; reflexivity.
Qed.

(** [walk_path] leaves the assignment map alone. *)
Lemma walk_path_feasible bound u v cpt s :
  feasible (walk_path bound u v cpt s).2 = feasible s.
Proof.
  assert (PreOrder (λ s s' : CPTDigraphManager, feasible s = feasible s')) as HP.
  { split; [by intros ?|]. intros ? ? ? ? ?. congruence. }
  destruct (walk_path_respects (λ s s', feasible s = feasible s') any_exn I
              bound u v cpt s) as [HR _].
  done.
Qed.

(** C8, on the code: serving a pending duplication from u to v leaves the
    entry (u, v) at -1 whatever amount it held; at [fan], where the entry
    (a, b) holds 2 when the extraction starts, the path a -> b is appended
    and the entry then holds -1, not 1. *)
Theorem serve_path_overwrites_entry :
  (∀ bound u v cpt s, feasible (serve_path bound u v cpt s).2 !! (u, v) = Some (-1))
  ∧ (let s1 := ((check_if_digraph_is_strongly_connected >> build_assignment 100) fan).2 in
     feasible s1 !! ("a","b") = Some 2
     ∧ _find_path (nodes s1) "a" (feasible s1) = Some "b"
     ∧ (serve_path 100 "a" "b" [] s1).1 = Ret [("a","b")]
     ∧ feasible (serve_path 100 "a" "b" [] s1).2 !! ("a","b") = Some (-1)).
Proof.
  split.
  - intros bound u v cpt s. unfold serve_path, bind, modify. simpl.
    rewrite walk_path_feasible. simpl. apply lookup_insert_eq.
  - split; [vm_compute; reflexivity|]. split; [vm_compute; reflexivity|].
    split; vm_compute; reflexivity.
Qed.

(** ** The residual graph *)

Lemma elem_of_reverse_edges f ps e :
  e ∈ reverse_edges f ps ↔ (e.2, e.1) ∈ ps ∧ f !! (e.2, e.1) ≠ Some 0.
Proof.
  unfold reverse_edges. rewrite list_elem_of_fmap. split.
  - intros ([n p] & -> & Hin). apply list_elem_of_filter in Hin as [Hf Hin]. done.
  - intros [Hin Hf]. exists (e.2, e.1). destruct e as [a b]. split; [done|].
    apply list_elem_of_filter. done.
Qed.

Lemma elem_of_graph_connect es e e' :
  e' ∈ graph_connect es e ↔ e' ∈ es ∨ e' = e.
Proof.
  unfold graph_connect. case_decide as Hin.
  - split; [by left|]. intros [?| ->]; done.
  - rewrite elem_of_app, list_elem_of_singleton. done.
Qed.

(** The loop, run from the edges [es0] and the cost dictionary [rc0]: it
    never raises when the cost map and the assignment map have the pairs, it
    leaves the instance alone, and its dictionary holds the closure cost on
    the pairs, its negation on the reverse edges, and [rc0] elsewhere. *)
Lemma residual_loop_spec ps es0 rc0 s :
  Forall (λ np, is_Some (cost s !! np) ∧ is_Some (feasible s !! np)) ps →
  Forall (λ np, (np.2, np.1) ∉ ps) ps →
  ∃ es rc, residual_loop ps es0 rc0 s = (Ret (es, rc), s)
    ∧ (∀ e, e ∈ es ↔ e ∈ es0 ∨ e ∈ ps ∨ e ∈ reverse_edges (feasible s) ps)
    ∧ (∀ e, rc !! e =
         if decide (e ∈ ps) then cost s !! e
         else if decide (e ∈ reverse_edges (feasible s) ps)
              then Z.opp <$> cost s !! (e.2, e.1)
              else rc0 !! e).
Proof.
  revert es0 rc0. induction ps as [|[n p] ps IH]; intros es0 rc0 Hdef Hdisj.
  - exists es0, rc0. split; [done|]. split.
    + intros e. unfold reverse_edges. simpl. rewrite !elem_of_nil. tauto.
    + intros e. rewrite decide_False by apply not_elem_of_nil.
      rewrite decide_False; [done|]. unfold reverse_edges. simpl. apply not_elem_of_nil.
  - apply Forall_cons in Hdef as [[[w Hw] [a Ha]] Hdef].
    apply Forall_cons in Hdisj as [Hnp Hdisj]. simpl in Hnp.
    assert (Forall (λ np : string * string, (np.2, np.1) ∉ ps) ps) as Hdisj'.
    { eapply Forall_impl; [exact Hdisj|]. intros np Hn Hin. apply Hn. by right. }
    assert (∀ e, e ∈ ps → (e.2, e.1) ≠ (n, p)) as Hrev.
    { intros e He Heq. rewrite Forall_forall in Hdisj.
      apply (Hdisj e He). rewrite Heq. by left. }
    assert (n ≠ p) as Hne.
    { intros ->. apply Hnp. by left. }
    cbn [residual_loop]. unfold bind at 1, gets at 1. cbn [fst snd].
    unfold bind at 1, gets at 1. cbn [fst snd].
    unfold bind at 1. rewrite (getitem_Some _ _ _ _ Hw).
    unfold bind at 1. rewrite (getitem_Some _ _ _ _ Ha).
    destruct (decide (a ≠ 0)) as [Ha0|Ha0].
    + unfold bind at 1. rewrite (getitem_Some _ _ _ _ Hw).
      destruct (IH (graph_connect (graph_connect es0 (n, p)) (p, n))
                   (<[(p, n) := - w]> (<[(n, p) := w]> rc0)) Hdef Hdisj')
        as (es & rc & Hrun & Hes & Hrc).
      exists es, rc. split; [done|]. split.
      * intros e. rewrite Hes, !elem_of_graph_connect, elem_of_cons.
        rewrite !elem_of_reverse_edges, elem_of_cons.
        split.
        -- intros [[[?| ->]| ->]|[?|[? ?]]]; try tauto.
           right. right. simpl. rewrite Ha. split; [by left|]. by intros [= ->].
        -- intros [?|[[->|?]|[[Heq|?] Hf]]]; try tauto.
           left. right. destruct e as [e1 e2]. simpl in *. by injection Heq as -> ->.
      * intros e. rewrite Hrc.
        destruct (decide (e ∈ ps)) as [Hin|Hin].
        { rewrite decide_True; [done | by right]. }
        destruct (decide (e ∈ reverse_edges (feasible s) ps)) as [Hr|Hr].
        { apply elem_of_reverse_edges in Hr as [Hr1 Hr2].
          rewrite decide_False.
          - rewrite decide_True; [done|]. apply elem_of_reverse_edges.
            split; [by right | done].
          - intros [->|?]%elem_of_cons; [|done]. simpl in Hr1. apply Hnp. by right. }
        destruct (decide (e = (p, n))) as [->|Hpn].
        { rewrite lookup_insert_eq. rewrite decide_False.
          - rewrite decide_True.
            + simpl. rewrite Hw. done.
            + apply elem_of_reverse_edges. simpl. rewrite Ha.
              split; [by left|]. by intros [= ->].
          - exact Hnp. }
        rewrite lookup_insert_ne by done.
        destruct (decide (e = (n, p))) as [->|Hnp'].
        { rewrite lookup_insert_eq. rewrite decide_True; [done | by left]. }
        rewrite lookup_insert_ne by done.
        rewrite decide_False; [|intros [->|?]%elem_of_cons; done].
        rewrite decide_False; [done|].
        intros [[Heq|?]%elem_of_cons Hf]%elem_of_reverse_edges.
        -- destruct e as [e1 e2]. simpl in *. injection Heq as -> ->. done.
        -- apply Hr. apply elem_of_reverse_edges. done.
    + apply dec_stable in Ha0. subst a.
      destruct (IH (graph_connect es0 (n, p)) (<[(n, p) := w]> rc0) Hdef Hdisj')
        as (es & rc & Hrun & Hes & Hrc).
      exists es, rc. split; [done|]. split.
      * intros e. rewrite Hes, !elem_of_graph_connect, elem_of_cons.
        rewrite !elem_of_reverse_edges, elem_of_cons.
        split.
        -- intros [[?| ->]|[?|[? ?]]]; tauto.
        -- intros [?|[[->|?]|[[Heq|?] Hf]]]; try tauto.
           destruct e as [e1 e2]. simpl in *. injection Heq as -> ->. done.
      * intros e. rewrite Hrc.
        destruct (decide (e ∈ ps)) as [Hin|Hin].
        { rewrite decide_True; [done | by right]. }
        destruct (decide (e ∈ reverse_edges (feasible s) ps)) as [Hr|Hr].
        { apply elem_of_reverse_edges in Hr as [Hr1 Hr2].
          rewrite decide_False.
          - rewrite decide_True; [done|]. apply elem_of_reverse_edges.
            split; [by right | done].
          - intros [->|?]%elem_of_cons; [|done]. simpl in Hr1. apply Hnp. by right. }
        destruct (decide (e = (n, p))) as [->|Hnp'].
        { rewrite lookup_insert_eq. rewrite decide_True; [done | by left]. }
        rewrite lookup_insert_ne by done.
        rewrite decide_False; [|intros [->|?]%elem_of_cons; done].
        rewrite decide_False; [done|].
        intros [[Heq|?]%elem_of_cons Hf]%elem_of_reverse_edges.
        -- destruct e as [e1 e2]. simpl in *. injection Heq as -> ->. done.
        -- apply Hr. apply elem_of_reverse_edges. done.
Qed.

Lemma product_disjoint (dn dp : list node) :
  Forall (λ n, n ∉ dp) dn →
  Forall (λ np : node * node, (np.2, np.1) ∉ product dn dp) (product dn dp).
Proof.
  intros Hd. apply Forall_forall. intros [n p] [Hn Hp]%elem_of_product.
  simpl. intros [_ Hn']%elem_of_product.
  rewrite Forall_forall in Hd. by apply (Hd n).
Qed.

(** C6, as stated, fails on the node set: when [compute_cpt] builds the
    residual graph of [cpt_test] the deficit nodes are D and the surplus
    nodes are A, and the residual graph has all six nodes of the instance,
    B among them. *)
Lemma residual_graph_keeps_all_nodes :
  (first_assignment cpt_test).1 = Ret (["D"], ["A"])
  ∧ (bind (_get_residual_diblob_manager_for_cpt ["D"] ["A"])
          (λ r, ret (nodes r, edges r)) (first_assignment cpt_test).2).1
    = Ret (["A"; "B"; "C"; "D"; "s"; "t"], [("D","A"); ("A","D")])
  ∧ "B" ∉ ["D"] ++ ["A"].
Proof.
  split; [vm_compute; reflexivity|]. split; [vm_compute; reflexivity|].
  apply (bool_decide_unpack _); vm_compute; exact I.
Qed.

(** C6, amended.  When the cost map and the assignment map have an entry
    for every (deficit, surplus) pair, and no node is in both lists, the
    residual graph is built without raising and without touching the
    instance.  Its nodes are all the nodes of the instance.  Its edges are
    the pairs and the reverse edges and no others: every pair is an edge,
    costed at the closure entry of the pair; the reverse of a pair is an
    edge if and only if the assignment of the pair is not zero, and is then
    costed at the negation of the closure entry of the pair. *)
Theorem residual_graph delta_neq delta_pos s :
  Forall (λ np, is_Some (cost s !! np) ∧ is_Some (feasible s !! np))
         (product delta_neq delta_pos) →
  Forall (λ n, n ∉ delta_pos) delta_neq →
  ∃ r, _get_residual_diblob_manager_for_cpt delta_neq delta_pos s = (Ret r, s)
    ∧ nodes r = nodes s
    ∧ (∀ e, e ∈ edges r ↔
            e ∈ product delta_neq delta_pos
            ∨ e ∈ reverse_edges (feasible s) (product delta_neq delta_pos))
    ∧ (∀ n p, n ∈ delta_neq → p ∈ delta_pos →
         (n, p) ∈ edges r
         ∧ cost r !! (n, p) = cost s !! (n, p)
         ∧ ((p, n) ∈ edges r ↔ feasible s !! (n, p) ≠ Some 0)
         ∧ ((p, n) ∈ edges r → cost r !! (p, n) = Z.opp <$> cost s !! (n, p))).
Proof.
  intros Hdef Hdisj. pose proof (product_disjoint _ _ Hdisj) as Hrev.
  destruct (residual_loop_spec _ [] ∅ s Hdef Hrev) as (es & rc & Hrun & Hes & Hrc).
  unfold _get_residual_diblob_manager_for_cpt.
  rewrite (bind_ret _ _ _ _ _ Hrun). unfold bind, gets, ret. simpl.
  eexists. split; [reflexivity|]. split; [reflexivity|].
  assert (∀ e, e ∈ es ↔ e ∈ product delta_neq delta_pos
                        ∨ e ∈ reverse_edges (feasible s) (product delta_neq delta_pos))
    as Hes'.
  { intros e. rewrite Hes, elem_of_nil. tauto. }
  split; [exact Hes'|].
  intros n p Hn Hp.
  assert ((n, p) ∈ product delta_neq delta_pos) as Hin by by apply elem_of_product.
  assert ((p, n) ∉ product delta_neq delta_pos) as Hnin.
  { rewrite Forall_forall in Hrev. apply (Hrev (n, p) Hin). }
  rewrite Forall_forall in Hdef. destruct (Hdef _ Hin) as [[w Hw] _].
  assert ((p, n) ∈ es ↔ feasible s !! (n, p) ≠ Some 0) as Hpn.
  { rewrite Hes', elem_of_reverse_edges. simpl. tauto. }
  split; [apply Hes'; by left|]. split.
  { rewrite new_cost_lookup, decide_True by (apply Hes'; by left).
    unfold dict_get. rewrite Hrc, decide_True by done. by rewrite Hw. }
  split; [exact Hpn|].
  intros Hr. rewrite new_cost_lookup, decide_True by done.
  unfold dict_get. rewrite Hrc, decide_False by done.
  rewrite decide_True.
  - simpl. by rewrite Hw.
  - apply elem_of_reverse_edges. simpl. split; [done|]. by apply Hpn.
Qed.

Lemma residual_graph_witness :
  let s := (first_assignment cpt_test).2 in
  ∃ r, _get_residual_diblob_manager_for_cpt ["D"] ["A"] s = (Ret r, s)
    ∧ nodes r = nodes s
    ∧ (∀ e, e ∈ edges r ↔
            e ∈ product ["D"] ["A"]
            ∨ e ∈ reverse_edges (feasible s) (product ["D"] ["A"]))
    ∧ (∀ n p, n ∈ ["D"] → p ∈ ["A"] →
         (n, p) ∈ edges r
         ∧ cost r !! (n, p) = cost s !! (n, p)
         ∧ ((p, n) ∈ edges r ↔ feasible s !! (n, p) ≠ Some 0)
         ∧ ((p, n) ∈ edges r → cost r !! (p, n) = Z.opp <$> cost s !! (n, p))).
Proof.
  apply (residual_graph ["D"] ["A"] (first_assignment cpt_test).2);
    apply (bool_decide_unpack _); vm_compute; exact I.
Defined.

(** ** The feasible assignment *)

Lemma sumZ_ext {A} (g h : A → Z) l :
  (∀ x, x ∈ l → g x = h x) → sumZ g l = sumZ h l.
Proof.
  induction l as [|x l IH]; intros Hgh; simpl; [done|].
  rewrite Hgh by by left. rewrite IH; [done|]. intros y Hy. apply Hgh. by right.
Qed.

Lemma sumZ_zero {A} (g : A → Z) l :
  (∀ x, x ∈ l → g x = 0) → sumZ g l = 0.
Proof.
  induction l as [|x l IH]; intros Hg; simpl; [done|].
  rewrite Hg by by left. rewrite IH; [done|]. intros y Hy. apply Hg. by right.
Qed.

Lemma sumZ_nonneg_zero {A} (g : A → Z) l :
  (∀ x, x ∈ l → 0 ≤ g x) → sumZ g l = 0 → ∀ x, x ∈ l → g x = 0.
Proof.
  induction l as [|y l IH]; intros Hg Hs x Hx; [by apply elem_of_nil in Hx|].
  simpl in Hs.
  assert (0 ≤ g y) by (apply Hg; by left).
  assert (0 ≤ sumZ g l) as Hl.
  { clear -Hg. induction l as [|z l IH] in Hg |- *; simpl; [done|].
    assert (0 ≤ g z) by (apply Hg; right; by left).
    assert (0 ≤ sumZ g l); [|lia].
    apply IH. intros w [->|Hw]%elem_of_cons; apply Hg; [by left|].
    right. by right. }
  apply elem_of_cons in Hx as [->|Hx]; [lia|].
  apply IH; [|lia|done]. intros z Hz. apply Hg. by right.
Qed.

Lemma for_in_app {X} (l1 l2 : list X) (body : X → M bool) s s1 :
  for_in l1 body s = (Ret false, s1) →
  for_in (l1 ++ l2) body s = for_in l2 body s1.
Proof.
  revert s. induction l1 as [|x l1 IH]; intros s Hrun; simpl in *.
  - unfold ret in Hrun. by injection Hrun as <-.
  - unfold bind in *. destruct (body x s) as [[[|]|e|] s']; try done.
    by apply IH.
Qed.

(** One pass of the loop of [_find_feasible], for a pair of two different
    nodes that both have an imbalance entry. *)
Lemma feasible_step_run n p a b s :
  n ≠ p → delta s !! n = Some a → delta s !! p = Some b →
  let x := if bool_decide (- a < b) then - a else b in
  ∃ s', feasible_step (n, p) s = (Ret false, s')
    ∧ feasible s' = <[(n, p) := x]> (feasible s)
    ∧ delta s' = <[p := b - x]> (<[n := a + x]> (delta s)).
Proof.
  intros Hne Ha Hb x. unfold feasible_step. cbn [fst snd].
  unfold bind at 1, gets at 1. cbn [fst snd].
  unfold bind at 1. rewrite (getitem_Some _ _ _ _ Ha).
  unfold bind at 1. rewrite (getitem_Some _ _ _ _ Hb).
  unfold bind at 1, modify at 1.
  unfold bind at 1, gets at 1. cbn [fst snd feasible with_feasible].
  unfold bind at 1, getitem at 1. rewrite lookup_insert_eq. unfold ret at 1.
  unfold bind at 1, gets at 1. cbn [fst snd delta with_feasible].
  unfold bind at 1. rewrite (getitem_Some _ _ _ _ Ha).
  unfold bind at 1, modify at 1.
  unfold bind at 1, gets at 1. cbn [fst snd feasible with_feasible with_delta].
  unfold bind at 1, getitem at 1. rewrite lookup_insert_eq. unfold ret at 1.
  unfold bind at 1, gets at 1. cbn [fst snd delta with_feasible with_delta].
  unfold bind at 1, getitem at 1. rewrite lookup_insert_ne by done. rewrite Hb.
  unfold ret at 1. unfold bind, modify, ret.
  eexists. split; [reflexivity|]. by split.
Qed.

Lemma elem_of_row (n : node) (ps : list node) e :
  e ∈ map (λ p, (n, p)) ps ↔ e.1 = n ∧ e.2 ∈ ps.
Proof.
  rewrite list_elem_of_fmap. split.
  - by intros (p & -> & Hin).
  - intros [<- Hin]. exists e.2. by destruct e.
Qed.

(** The passes of the loop for one deficit node [n] against the surplus
    nodes [ps]: what [n] still needs afterwards is what it needed minus what
    was assigned to its pairs, and either [n] needs nothing more or every
    node of [ps] has nothing left. *)
Lemma feasible_row n ps : ∀ s a,
  n ∉ ps → NoDup ps → delta s !! n = Some a → a ≤ 0 →
  (∀ p, p ∈ ps → ∃ b, delta s !! p = Some b ∧ 0 ≤ b) →
  ∃ s' a', for_in (map (λ p, (n, p)) ps) feasible_step s = (Ret false, s')
    ∧ delta s' !! n = Some a' ∧ a ≤ a' ∧ a' ≤ 0
    ∧ a' = a + sumZ (λ p, dict_get (feasible s') (n, p) 0) ps
    ∧ (a' = 0 ∨ ∀ p, p ∈ ps → delta s' !! p = Some 0)
    ∧ (∀ p, p ∈ ps →
         delta s' !! p = Some (dict_get (delta s) p 0 - dict_get (feasible s') (n, p) 0)
         ∧ 0 ≤ dict_get (delta s) p 0 - dict_get (feasible s') (n, p) 0)
    ∧ (∀ x, x ≠ n → x ∉ ps → delta s' !! x = delta s !! x)
    ∧ (∀ e, e ∉ map (λ p, (n, p)) ps → feasible s' !! e = feasible s !! e)
    ∧ (∀ p, p ∈ ps → is_Some (feasible s' !! (n, p))).
Proof.
  induction ps as [|p ps IH]; intros s a Hn Hnd Ha Hle Hps.
  - exists s, a. simpl. split; [done|]. split; [done|].
    split; [lia|]. split; [done|]. split; [lia|].
    split; [right; by intros p ?%elem_of_nil|].
    split; [by intros p ?%elem_of_nil|]. split; [done|].
    split; [done | by intros p ?%elem_of_nil].
  - apply not_elem_of_cons in Hn as [Hnp Hn].
    apply NoDup_cons in Hnd as [Hp Hnd].
    destruct (Hps p) as (b & Hb & Hb0); [by left|].
    destruct (feasible_step_run n p a b s Hnp Ha Hb) as (s1 & Hrun1 & Hf1 & Hd1).
    set (x := if bool_decide (- a < b) then - a else b) in *.
    assert (0 ≤ x ∧ a + x ≤ 0 ∧ 0 ≤ b - x ∧ (a + x = 0 ∨ b - x = 0)) as (Hx0 & Hax & Hbx & Hzero).
    { unfold x. case_bool_decide; lia. }
    assert (delta s1 !! n = Some (a + x)) as Ha1.
    { rewrite Hd1, lookup_insert_ne by done. apply lookup_insert_eq. }
    assert (delta s1 !! p = Some (b - x)) as Hb1.
    { rewrite Hd1. apply lookup_insert_eq. }
    assert (∀ q, q ≠ n → q ≠ p → delta s1 !! q = delta s !! q) as Hother.
    { intros q Hqn Hqp. rewrite Hd1, !lookup_insert_ne by done. done. }
    assert (∀ q, q ∈ ps → ∃ b, delta s1 !! q = Some b ∧ 0 ≤ b) as Hps1.
    { intros q Hq. rewrite Hother; [apply Hps; by right| |]; intros ->; done. }
    destruct (IH s1 (a + x) Hn Hnd Ha1 Hax Hps1)
      as (s' & a' & Hrun & Ha' & Hge & Hle' & Hsum & Hdone & Hdp & Hdx & Hfx & Hfp).
    assert (feasible s' !! (n, p) = Some x) as Hfnp.
    { rewrite Hfx, Hf1; [apply lookup_insert_eq|].
      rewrite elem_of_row. simpl. tauto. }
    exists s', a'. split.
    { cbn [map for_in]. by rewrite (bind_ret _ _ _ _ _ Hrun1). }
    split; [done|]. split; [lia|]. split; [done|]. split.
    { cbn [sumZ foldr]. unfold dict_get at 1. rewrite Hfnp. simpl.
      unfold sumZ in Hsum. lia. }
    split.
    { destruct Hdone as [Hz|Hall]; [by left|].
      destruct (decide (a' = 0)) as [Hz|Hnz]; [by left|]. right.
      intros q [->|Hq]%elem_of_cons; [|by apply Hall].
      rewrite Hdx, Hb1 by done. f_equal. lia. }
    split.
    { intros q [->|Hq]%elem_of_cons.
      - rewrite Hdx, Hb1 by done. unfold dict_get. rewrite Hb, Hfnp. simpl. done.
      - destruct (Hdp q Hq) as [Hq1 Hq2].
        assert (delta s1 !! q = delta s !! q) as Heq.
        { apply Hother; intros ->; done. }
        unfold dict_get in *. rewrite Heq in Hq1, Hq2. done. }
    split.
    { intros y Hyn [Hyp Hy]%not_elem_of_cons. rewrite Hdx by done. by apply Hother. }
    split.
    { intros e He. rewrite elem_of_row, elem_of_cons in He.
      rewrite Hfx.
      - rewrite Hf1. apply lookup_insert_ne. intros <-. simpl in He. tauto.
      - rewrite elem_of_row. tauto. }
    intros q [->|Hq]%elem_of_cons; [by rewrite Hfnp | by apply Hfp].
Qed.

Lemma sumZ_sub {A} (g h : A → Z) l :
  sumZ (λ x, g x - h x) l = sumZ g l - sumZ h l.
Proof. induction l as [|x l IH]; simpl; [done|]. unfold sumZ in *. lia. Qed.

Lemma sumZ_nonpos {A} (g : A → Z) l :
  (∀ x, x ∈ l → g x ≤ 0) → sumZ g l ≤ 0.
Proof.
  induction l as [|x l IH]; intros Hg; simpl; [done|].
  assert (g x ≤ 0) by (apply Hg; by left).
  assert (sumZ g l ≤ 0); [|unfold sumZ in *; lia].
  apply IH. intros y Hy. apply Hg. by right.
Qed.

Lemma product_cons {A B} (x : A) (a : list A) (b : list B) :
  product (x :: a) b = map (λ y, (x, y)) b ++ product a b.
Proof. reflexivity. Qed.

(** The whole loop of [_find_feasible], on deficit nodes with what they
    need (at most zero), surplus nodes with what they offer (at least
    zero), the two in balance. *)
Lemma find_feasible_loop dn : ∀ dp s,
  NoDup dn → NoDup dp → (∀ n, n ∈ dn → n ∉ dp) →
  (∀ n, n ∈ dn → ∃ a, delta s !! n = Some a ∧ a ≤ 0) →
  (∀ p, p ∈ dp → ∃ b, delta s !! p = Some b ∧ 0 ≤ b) →
  sumZ (λ n, dict_get (delta s) n 0) dn + sumZ (λ p, dict_get (delta s) p 0) dp = 0 →
  ∃ s', for_in (product dn dp) feasible_step s = (Ret false, s')
    ∧ (∀ n, n ∈ dn →
         sumZ (λ p, dict_get (feasible s') (n, p) 0) dp = - dict_get (delta s) n 0)
    ∧ (∀ p, p ∈ dp →
         sumZ (λ n, dict_get (feasible s') (n, p) 0) dn = dict_get (delta s) p 0)
    ∧ (∀ e, e ∉ product dn dp → feasible s' !! e = feasible s !! e)
    ∧ (∀ e, e ∈ product dn dp → is_Some (feasible s' !! e)).
Proof.
  induction dn as [|n dn IH]; intros dp s Hnd Hndp Hdisj Hneg Hpos Hbal.
  - exists s. split; [done|]. split; [by intros n ?%elem_of_nil|].
    split; [|split; [done | by intros e ?%elem_of_nil]].
    intros p Hp. simpl in *. symmetry.
    apply (sumZ_nonneg_zero (λ p, dict_get (delta s) p 0) dp); [|lia|done].
    intros q Hq. destruct (Hpos q Hq) as (b & Hb & Hb0). unfold dict_get. by rewrite Hb.
  - apply NoDup_cons in Hnd as [Hn Hnd].
    destruct (Hneg n) as (a & Ha & Ha0); [by left|].
    assert (n ∉ dp) as Hndp' by (apply Hdisj; by left).
    destruct (feasible_row n dp s a Hndp' Hndp Ha Ha0 Hpos)
      as (s1 & a' & Hrun1 & Ha' & Hge & Hle & Hsum & Hdone & Hdp & Hdx & Hfx & Hfp).
    assert (∀ m, m ∈ dn → delta s1 !! m = delta s !! m) as Hdn.
    { intros m Hm. apply Hdx; [by intros ->|]. apply Hdisj. by right. }
    assert (sumZ (λ m, dict_get (delta s1) m 0) dn
            = sumZ (λ m, dict_get (delta s) m 0) dn) as Hsdn.
    { apply sumZ_ext. intros m Hm. unfold dict_get. by rewrite Hdn. }
    assert (sumZ (λ p, dict_get (delta s1) p 0) dp
            = sumZ (λ p, dict_get (delta s) p 0) dp
              - sumZ (λ p, dict_get (feasible s1) (n, p) 0) dp) as Hsdp.
    { rewrite <- sumZ_sub. apply sumZ_ext. intros p Hp.
      destruct (Hdp p Hp) as [Hp1 _]. unfold dict_get at 1. by rewrite Hp1. }
    assert (dict_get (delta s) n 0 = a) as Hga by (unfold dict_get; by rewrite Ha).
    cbn [sumZ foldr] in Hbal. rewrite Hga in Hbal.
    fold (sumZ (λ n, dict_get (delta s) n 0) dn) in Hbal.
    assert (sumZ (λ m, dict_get (delta s1) m 0) dn ≤ 0) as Hnonpos.
    { apply sumZ_nonpos. intros m Hm. unfold dict_get. rewrite Hdn by done.
      destruct (Hneg m) as (am & Ham & Ham0); [by right|]. by rewrite Ham. }
    assert (a' = 0) as ->.
    { destruct Hdone as [?|Hall]; [done|].
      assert (sumZ (λ p, dict_get (delta s1) p 0) dp = 0) as Hz.
      { apply sumZ_zero. intros p Hp. unfold dict_get. by rewrite Hall. }
      lia. }
    destruct (IH dp s1 Hnd Hndp) as (s' & Hrun & Hrows & Hcols & Hfx' & Hfp').
    { intros m Hm. apply Hdisj. by right. }
    { intros m Hm. rewrite Hdn by done. apply Hneg. by right. }
    { intros p Hp. destruct (Hdp p Hp) as [Hp1 Hp2]. eauto. }
    { lia. }
    assert (∀ p, (n, p) ∉ product dn dp) as Hrow_rest.
    { intros p [Hin _]%elem_of_product. done. }
    exists s'. split.
    { rewrite product_cons. by rewrite (for_in_app _ _ _ _ _ Hrun1). }
    split.
    { intros m [->|Hm]%elem_of_cons.
      - rewrite Hga.
        rewrite (sumZ_ext _ (λ p, dict_get (feasible s1) (n, p) 0)); [lia|].
        intros p Hp. unfold dict_get. by rewrite Hfx'.
      - rewrite Hrows by done. unfold dict_get. by rewrite Hdn. }
    split.
    { intros p Hp. cbn [sumZ foldr].
      fold (sumZ (λ n0, dict_get (feasible s') (n0, p) 0) dn).
      rewrite Hcols by done. destruct (Hdp p Hp) as [Hp1 _].
      unfold dict_get at 1 2. rewrite Hfx', Hp1 by done. simpl.
      unfold dict_get. lia. }
    split.
    { intros e He. rewrite product_cons, not_elem_of_app in He.
      destruct He as [He1 He2]. rewrite Hfx' by done. by apply Hfx. }
    intros e He. rewrite product_cons, elem_of_app in He.
    destruct He as [He|He]; [|by apply Hfp'].
    apply elem_of_row in He as [He1 He2]. destruct e as [e1 e2]. simpl in *. subst e1.
    rewrite Hfx' by done. by apply Hfp.
Qed.

Lemma split_loop_spec ns : ∀ a b s,
  (∀ n, n ∈ ns → is_Some (delta s !! n)) →
  split_loop ns a b s
  = (Ret (a ++ filter (λ n, dict_get (delta s) n 0 < 0) ns,
          b ++ filter (λ n, dict_get (delta s) n 0 > 0) ns), s).
Proof.
  induction ns as [|n ns IH]; intros a b s Hdef.
  - simpl. by rewrite !app_nil_r.
  - destruct (Hdef n) as [d Hd]; [by left|].
    assert (∀ m, m ∈ ns → is_Some (delta s !! m)) as Hdef'.
    { intros m Hm. apply Hdef. by right. }
    cbn [split_loop]. unfold bind at 1, gets at 1. cbn [fst snd].
    unfold bind at 1. rewrite (getitem_Some _ _ _ _ Hd).
    assert (dict_get (delta s) n 0 = d) as Hg by (unfold dict_get; by rewrite Hd).
    rewrite !filter_cons, Hg.
    case_bool_decide as Hlt.
    + rewrite IH by done. rewrite decide_True by done.
      rewrite decide_False by lia. by rewrite <- app_assoc.
    + case_bool_decide as Hgt.
      * rewrite IH by done. rewrite decide_False by done.
        rewrite decide_True by done. by rewrite <- app_assoc.
      * rewrite IH by done. rewrite decide_False by done.
        by rewrite decide_False by done.
Qed.

Lemma sumZ_filter_sign {A} (g : A → Z) l :
  sumZ g (filter (λ x, g x < 0) l) + sumZ g (filter (λ x, g x > 0) l) = sumZ g l.
Proof.
  induction l as [|x l IH]; [done|].
  rewrite !filter_cons. cbn [sumZ foldr]. unfold sumZ in *.
  destruct (decide (g x < 0)); destruct (decide (g x > 0)); simpl; lia.
Qed.

Lemma sumZ_indicator (x : node) ns :
  NoDup ns → x ∈ ns → sumZ (λ n, if decide (x = n) then 1 else 0) ns = 1.
Proof.
  induction ns as [|n ns IH]; intros Hnd Hx; [by apply elem_of_nil in Hx|].
  apply NoDup_cons in Hnd as [Hn Hnd]. cbn [sumZ foldr].
  fold (sumZ (λ n, if decide (x = n) then 1 else 0) ns).
  apply elem_of_cons in Hx as [->|Hx].
  - rewrite decide_True by done. rewrite sumZ_zero; [done|].
    intros m Hm. rewrite decide_False; [done|]. by intros <-.
  - rewrite decide_False by (by intros ->). rewrite IH by done. done.
Qed.

Lemma sumZ_add {A} (g h : A → Z) l :
  sumZ (λ x, g x + h x) l = sumZ g l + sumZ h l.
Proof. induction l as [|x l IH]; simpl; [done|]. unfold sumZ in *. lia. Qed.

(** The degrees of the nodes add up to the number of edges. *)
Lemma sum_degree (π : edge → node) ns es :
  NoDup ns → Forall (λ e, π e ∈ ns) es →
  sumZ (λ n, Z.of_nat (length (filter (λ e, π e = n) es))) ns = Z.of_nat (length es).
Proof.
  intros Hnd. induction es as [|e es IH]; intros Hes.
  - simpl. by apply sumZ_zero.
  - apply Forall_cons in Hes as [He Hes].
    rewrite (sumZ_ext _ (λ n, (if decide (π e = n) then 1 else 0)
                              + Z.of_nat (length (filter (λ e, π e = n) es)))).
    + rewrite sumZ_add, IH, sumZ_indicator by done. simpl length. lia.
    + intros n _. rewrite filter_cons. destruct (decide (π e = n)); simpl length; lia.
Qed.

(** The imbalances of the nodes of a graph add up to zero. *)
Lemma handshake ns es :
  NoDup ns → Forall (λ e : edge, e.1 ∈ ns ∧ e.2 ∈ ns) es →
  sumZ (imbalance es) ns = 0.
Proof.
  intros Hnd Hes. unfold imbalance, outgoing_dim, incoming_dim.
  rewrite sumZ_sub.
  rewrite (sum_degree fst), (sum_degree snd); [lia|done| |done|].
  - eapply Forall_impl; [exact Hes|]. by intros e [_ ?].
  - eapply Forall_impl; [exact Hes|]. by intros e [? _].
Qed.

(** The split and [_find_feasible] on a well-formed instance. *)
Lemma find_feasible_core s :
  NoDup (nodes s) →
  Forall (λ e : edge, e.1 ∈ nodes s ∧ e.2 ∈ nodes s) (edges s) →
  Forall (λ n, delta s !! n = Some (imbalance (edges s) n)) (nodes s) →
  ∃ delta_neq delta_pos s',
    _split_nodes_based_on_delta s = (Ret (delta_neq, delta_pos), s)
    ∧ _find_feasible delta_neq delta_pos s = (Ret tt, s')
    ∧ (∀ n, n ∈ delta_neq ↔ n ∈ nodes s ∧ imbalance (edges s) n < 0)
    ∧ (∀ p, p ∈ delta_pos ↔ p ∈ nodes s ∧ 0 < imbalance (edges s) p)
    ∧ (∀ n, n ∈ delta_neq →
         sumZ (λ p, dict_get (feasible s') (n, p) 0) delta_pos
         = - imbalance (edges s) n)
    ∧ (∀ p, p ∈ delta_pos →
         sumZ (λ n, dict_get (feasible s') (n, p) 0) delta_neq
         = imbalance (edges s) p)
    ∧ (∀ e, e ∈ product delta_neq delta_pos → is_Some (feasible s' !! e))
    ∧ cost s' = cost s.
Proof.
  intros Hnd Hes Hdelta. rewrite Forall_forall in Hdelta.
  assert (∀ n, n ∈ nodes s → dict_get (delta s) n 0 = imbalance (edges s) n) as Hget.
  { intros n Hn. unfold dict_get. by rewrite (Hdelta n Hn). }
  set (dn := filter (λ n, dict_get (delta s) n 0 < 0) (nodes s)).
  set (dp := filter (λ n, dict_get (delta s) n 0 > 0) (nodes s)).
  assert (∀ n, n ∈ dn ↔ n ∈ nodes s ∧ imbalance (edges s) n < 0) as Hdn.
  { intros n. unfold dn. rewrite list_elem_of_filter. split.
    - intros [Hlt Hn]. rewrite Hget in Hlt by done. done.
    - intros [Hn Hlt]. rewrite Hget by done. done. }
  assert (∀ p, p ∈ dp ↔ p ∈ nodes s ∧ 0 < imbalance (edges s) p) as Hdp.
  { intros p. unfold dp. rewrite list_elem_of_filter. split.
    - intros [Hgt Hp]. rewrite Hget in Hgt by done. split; [done|lia].
    - intros [Hp Hgt]. rewrite Hget by done. split; [lia|done]. }
  destruct (find_feasible_loop dn dp s) as (s' & Hrun & Hrows & Hcols & _ & Hfdef).
  { by apply NoDup_filter. }
  { by apply NoDup_filter. }
  { intros n [_ Hn]%Hdn [_ Hp]%Hdp. lia. }
  { intros n [Hn Hlt]%Hdn. exists (imbalance (edges s) n). split; [by apply Hdelta|lia]. }
  { intros p [Hp Hgt]%Hdp. exists (imbalance (edges s) p). split; [by apply Hdelta|lia]. }
  { unfold dn, dp.
    rewrite (sumZ_filter_sign (λ n, dict_get (delta s) n 0)).
    rewrite (sumZ_ext _ (imbalance (edges s))) by exact Hget.
    by apply handshake. }
  assert (_find_feasible dn dp s = (Ret tt, s')) as Hff.
  { unfold _find_feasible. by rewrite (bind_ret _ _ _ _ _ Hrun). }
  exists dn, dp, s'. split.
  { unfold _split_nodes_based_on_delta, bind, gets. simpl.
    rewrite split_loop_spec; [done|]. intros n Hn. rewrite (Hdelta n Hn). eauto. }
  split; [exact Hff|].
  split; [exact Hdn|]. split; [exact Hdp|]. split.
  { intros n Hn. rewrite Hrows by done. rewrite Hget; [done|]. by apply Hdn. }
  split.
  { intros p Hp. rewrite Hcols by done. apply Hget. by apply Hdp. }
  split; [exact Hfdef|].
  assert (PreOrder (λ s s' : CPTDigraphManager, cost s = cost s')) as HP.
  { split; [by intros ?|]. intros ? ? ? ? ?. congruence. }
  symmetry.
  eapply (respects_run (λ s s', cost s = cost s') any_exn), Hff.
  apply find_feasible_respects; done.
Qed.

(** During a CPT computation the residual graph is built in a state that
    meets the conditions of [residual_loop_spec]: after a check that
    answered True and the feasible assignment, the cost map and the
    assignment map have every (deficit, surplus) pair, and no node is both a
    deficit and a surplus node. *)
Lemma residual_preconditions s :
  NoDup (nodes s) →
  Forall (λ e : edge, e.1 ∈ nodes s ∧ e.2 ∈ nodes s) (edges s) →
  Forall (λ n, delta s !! n = Some (imbalance (edges s) n)) (nodes s) →
  all_pairs_in (nodes s) (cost s) = true →
  ∃ delta_neq delta_pos s',
    _split_nodes_based_on_delta s = (Ret (delta_neq, delta_pos), s)
    ∧ _find_feasible delta_neq delta_pos s = (Ret tt, s')
    ∧ Forall (λ np, is_Some (cost s' !! np) ∧ is_Some (feasible s' !! np))
             (product delta_neq delta_pos)
    ∧ Forall (λ n, n ∉ delta_pos) delta_neq.
Proof.
  intros Hnd Hes Hdelta Hall.
  destruct (find_feasible_core s Hnd Hes Hdelta)
    as (dn & dp & s' & Hsplit & Hff & Hdn & Hdp & _ & _ & Hfdef & Hcost).
  exists dn, dp, s'. split; [done|]. split; [done|]. split.
  - apply Forall_forall. intros [n p] Hin. split; [|by apply Hfdef].
    apply elem_of_product in Hin as [Hn Hp]. rewrite Hcost.
    apply (proj1 (all_pairs_in_true _ _) Hall); [by apply Hdn | by apply Hdp].
  - apply Forall_forall. intros n [_ Hn]%Hdn [_ Hp]%Hdp. lia.
Qed.

(** C7.  On an instance whose node identifiers are distinct, whose edges
    join nodes of the instance, and whose imbalance table holds out-degree
    minus in-degree for every node, the split and [_find_feasible] run
    without raising; the deficit nodes are the nodes of negative imbalance
    and the surplus nodes those of positive imbalance; and in the assignment
    map that results, the amounts of the pairs of a deficit node add up to
    the magnitude of its imbalance, and the amounts of the pairs of a
    surplus node add up to its imbalance. *)
Theorem find_feasible_sums s :
  NoDup (nodes s) →
  Forall (λ e : edge, e.1 ∈ nodes s ∧ e.2 ∈ nodes s) (edges s) →
  Forall (λ n, delta s !! n = Some (imbalance (edges s) n)) (nodes s) →
  ∃ delta_neq delta_pos s',
    _split_nodes_based_on_delta s = (Ret (delta_neq, delta_pos), s)
    ∧ _find_feasible delta_neq delta_pos s = (Ret tt, s')
    ∧ (∀ n, n ∈ delta_neq ↔ n ∈ nodes s ∧ imbalance (edges s) n < 0)
    ∧ (∀ p, p ∈ delta_pos ↔ p ∈ nodes s ∧ 0 < imbalance (edges s) p)
    ∧ (∀ n, n ∈ delta_neq →
         sumZ (λ p, dict_get (feasible s') (n, p) 0) delta_pos
         = - imbalance (edges s) n)
    ∧ (∀ p, p ∈ delta_pos →
         sumZ (λ n, dict_get (feasible s') (n, p) 0) delta_neq
         = imbalance (edges s) p).
Proof.
  intros Hnd Hes Hdelta.
  destruct (find_feasible_core s Hnd Hes Hdelta)
    as (dn & dp & s' & Hsplit & Hff & Hdn & Hdp & Hrows & Hcols & _).
  exists dn, dp, s'. by repeat (split; [done|]).
Qed.

Lemma find_feasible_sums_witness :
  let s := (check_if_digraph_is_strongly_connected cpt_test).2 in
  ∃ delta_neq delta_pos s',
    _split_nodes_based_on_delta s = (Ret (delta_neq, delta_pos), s)
    ∧ _find_feasible delta_neq delta_pos s = (Ret tt, s')
    ∧ (∀ n, n ∈ delta_neq ↔ n ∈ nodes s ∧ imbalance (edges s) n < 0)
    ∧ (∀ p, p ∈ delta_pos ↔ p ∈ nodes s ∧ 0 < imbalance (edges s) p)
    ∧ (∀ n, n ∈ delta_neq →
         sumZ (λ p, dict_get (feasible s') (n, p) 0) delta_pos
         = - imbalance (edges s) n)
    ∧ (∀ p, p ∈ delta_pos →
         sumZ (λ n, dict_get (feasible s') (n, p) 0) delta_neq
         = imbalance (edges s) p).
Proof.
  apply (find_feasible_sums (check_if_digraph_is_strongly_connected cpt_test).2);
    apply (bool_decide_unpack _); vm_compute; exact I.
Defined.

(** ** The cycle canceller *)

Lemma pick_k_min k r : pick_k k false r = foldl Z.min k r.
Proof.
  revert k. induction r as [|a r IH]; intros k; simpl; [done|].
  case_bool_decide.
  - rewrite IH. f_equal. lia.
  - rewrite IH. f_equal. lia.
Qed.

Lemma pick_k_bottleneck amounts : pick_k 0 true amounts = bottleneck amounts.
Proof. destruct amounts as [|a r]; simpl; [done|]. apply pick_k_min. Qed.

Lemma foldl_min_le a r : foldl Z.min a r ≤ a ∧ Forall (λ x, foldl Z.min a r ≤ x) r.
Proof.
  revert a. induction r as [|b r IH]; intros a; simpl.
  { split; [lia | constructor]. }
  destruct (IH (Z.min a b)) as [H1 H2]. split; [lia|].
  constructor; [lia|done].
Qed.

Lemma foldl_min_in a r : foldl Z.min a r ∈ a :: r.
Proof.
  revert a. induction r as [|b r IH]; intros a; simpl; [by left|].
  pose proof (IH (Z.min a b)) as Hin. apply elem_of_cons in Hin as [Heq|Hin].
  - rewrite Heq.
    destruct (Z.min_spec a b) as [[_ ->]|[_ ->]]; [by left | right; by left].
  - right. by right.
Qed.

(** The bottleneck of a non-empty list is one of its amounts and is below
    all of them. *)
Lemma bottleneck_least amounts :
  amounts ≠ [] →
  bottleneck amounts ∈ amounts ∧ Forall (λ a, bottleneck amounts ≤ a) amounts.
Proof.
  destruct amounts as [|a r]; [done|]. intros _. simpl. split.
  - apply foldl_min_in.
  - destruct (foldl_min_le a r). by constructor.
Qed.

Lemma find_k_run fuel rcost rtree node_id : ∀ u l k flag s,
  tree_cycle fuel rtree node_id u = Some l →
  Forall (λ e, is_Some (rcost !! e)) l →
  find_k fuel rcost rtree node_id u k flag s
  = (Ret (pick_k k flag (reverse_amounts rcost (feasible s) l)), s).
Proof.
  induction fuel as [|fuel IH]; intros u l k flag s Hl Hdef; [done|].
  cbn [tree_cycle] in Hl. destruct (rtree !! (u, node_id)) as [v|] eqn:Hv; [|done].
  cbn [find_k]. unfold bind at 1. rewrite (getitem_Some _ _ _ _ Hv).
  assert (∃ l', l = (u, v) :: l') as [l' ->].
  { case_decide; [injection Hl as <-; eauto|].
    destruct (tree_cycle fuel rtree node_id v); [|done]. injection Hl as <-. eauto. }
  apply Forall_cons in Hdef as [[c Hc] Hdef].
  unfold bind at 1. rewrite (getitem_Some _ _ _ _ Hc).
  unfold bind at 1, gets at 1. cbn [fst snd].
  assert (dict_get rcost (u, v) 0 = c) as Hg by (unfold dict_get; by rewrite Hc).
  unfold reverse_amounts. rewrite filter_cons, Hg. simpl fst. simpl snd.
  case_decide as Hvn.
  - injection Hl as <-. rewrite filter_nil. unfold ret.
    destruct (decide (c < 0)) as [Hc0|Hc0].
    + rewrite bool_decide_eq_true_2 by done. simpl.
      by destruct (flag || bool_decide (k > dict_get (feasible s) (v, u) 0)).
    + rewrite bool_decide_eq_false_2 by done. done.
  - destruct (tree_cycle fuel rtree node_id v) as [l''|] eqn:Hl'; [|done].
    injection Hl as <-. rewrite (IH v l'' _ _ s Hl' Hdef).
    destruct (decide (c < 0)) as [Hc0|Hc0].
    + rewrite bool_decide_eq_true_2 by done. simpl.
      by destruct (flag || bool_decide (k > dict_get (feasible s) (v, u) 0)).
    + rewrite bool_decide_eq_false_2 by done. done.
Qed.

Lemma dict_get_insert (f : gmap edge Z) k0 x e :
  dict_get (<[k0 := x]> f) e 0 = if decide (k0 = e) then x else dict_get f e 0.
Proof.
  unfold dict_get. case_decide as Hk.
  - subst. by rewrite lookup_insert_eq.
  - by rewrite lookup_insert_ne.
Qed.

Lemma forward_count_cons rcost e0 l e :
  forward_count rcost (e0 :: l) e
  = (if decide (e0 = e ∧ ¬ dict_get rcost e0 0 < 0) then 1 else 0)
    + forward_count rcost l e.
Proof. reflexivity. Qed.

Lemma reverse_count_cons rcost e0 l e :
  reverse_count rcost (e0 :: l) e
  = (if decide ((e0.2, e0.1) = e ∧ dict_get rcost e0 0 < 0) then 1 else 0)
    + reverse_count rcost l e.
Proof. reflexivity. Qed.

Lemma cancel_k_run fuel rcost rtree node_id k : ∀ u l s,
  tree_cycle fuel rtree node_id u = Some l →
  Forall (λ e, is_Some (rcost !! e)) l →
  ∃ f', cancel_k fuel rcost rtree node_id u k s = (Ret tt, with_feasible f' s)
    ∧ ∀ e, dict_get f' e 0
           = dict_get (feasible s) e 0
             + k * forward_count rcost l e - k * reverse_count rcost l e.
Proof.
  induction fuel as [|fuel IH]; intros u l s Hl Hdef; [done|].
  cbn [tree_cycle] in Hl. destruct (rtree !! (u, node_id)) as [v|] eqn:Hv; [|done].
  cbn [cancel_k]. unfold bind at 1. rewrite (getitem_Some _ _ _ _ Hv).
  assert (∃ l', l = (u, v) :: l') as [l' ->].
  { case_decide; [injection Hl as <-; eauto|].
    destruct (tree_cycle fuel rtree node_id v); [|done]. injection Hl as <-. eauto. }
  apply Forall_cons in Hdef as [[c Hc] Hdef].
  unfold bind at 1. rewrite (getitem_Some _ _ _ _ Hc).
  unfold bind at 1, gets at 1. cbn [fst snd].
  assert (dict_get rcost (u, v) 0 = c) as Hg by (unfold dict_get; by rewrite Hc).
  set (f1 := if bool_decide (c < 0)
             then <[(v, u) := dict_get (feasible s) (v, u) 0 - k]> (feasible s)
             else <[(u, v) := dict_get (feasible s) (u, v) 0 + k]> (feasible s)).
  assert ((if bool_decide (c < 0)
           then modify (with_feasible (<[(v, u) := dict_get (feasible s) (v, u) 0 - k]>
                                         (feasible s)))
           else modify (with_feasible (<[(u, v) := dict_get (feasible s) (u, v) 0 + k]>
                                         (feasible s)))) s
          = (Ret tt, with_feasible f1 s)) as Hstep.
  { unfold f1. by destruct (bool_decide (c < 0)). }
  rewrite (bind_ret _ _ _ _ _ Hstep).
  assert (∀ e, dict_get f1 e 0
               = dict_get (feasible s) e 0
                 + k * (if decide ((u, v) = e ∧ ¬ dict_get rcost (u, v) 0 < 0) then 1 else 0)
                 - k * (if decide ((v, u) = e ∧ dict_get rcost (u, v) 0 < 0) then 1 else 0))
    as Hf1.
  { intros e. unfold f1. rewrite Hg. case_bool_decide as Hc0.
    - rewrite dict_get_insert.
      rewrite (decide_False (P := (u, v) = e ∧ ¬ c < 0)) by tauto.
      destruct (decide ((v, u) = e)) as [<-|Hne].
      + rewrite decide_True by done. lia.
      + rewrite decide_False by tauto. lia.
    - rewrite dict_get_insert.
      rewrite (decide_False (P := (v, u) = e ∧ c < 0)) by tauto.
      destruct (decide ((u, v) = e)) as [<-|Hne].
      + rewrite decide_True by done. lia.
      + rewrite decide_False by tauto. lia. }
  case_decide as Hvn.
  - injection Hl as <-. exists f1. split; [done|].
    intros e. rewrite Hf1. unfold forward_count, reverse_count. simpl. lia.
  - destruct (tree_cycle fuel rtree node_id v) as [l''|] eqn:Hl'; [|done].
    injection Hl as <-.
    destruct (IH v l'' (with_feasible f1 s) Hl' Hdef) as (f' & Hrun & Hf').
    exists f'. split; [exact Hrun|].
    intros e. rewrite Hf'. simpl feasible. rewrite Hf1.
    rewrite forward_count_cons, reverse_count_cons. simpl fst. simpl snd. ring.
Qed.

Lemma improve_at_no rcost rtree fuel m s :
  ¬ dict_get rcost (m, m) 0 < 0 → improve_at fuel rcost rtree m s = (Ret false, s).
Proof. intros Hm. unfold improve_at. by rewrite bool_decide_eq_false_2. Qed.

Lemma improve_scan_no rcost rtree fuel ms s :
  Forall (λ m, ¬ dict_get rcost (m, m) 0 < 0) ms →
  for_in ms (improve_at fuel rcost rtree) s = (Ret false, s).
Proof.
  induction 1 as [|m ms Hm _ IH]; simpl; [done|].
  by rewrite (bind_ret _ _ _ _ _ (improve_at_no _ _ _ _ _ Hm)).
Qed.

Lemma improvements_none fuel residual_cpt s :
  Forall (λ m, ¬ dict_get (cost residual_cpt) (m, m) 0 < 0) (nodes s) →
  _improvements fuel residual_cpt s = (Ret false, s).
Proof.
  intros Hno. unfold _improvements, bind, gets. cbn [fst snd].
  by rewrite improve_scan_no.
Qed.

(** C5.  Let the cost map of the residual graph have a negative self-pair
    at the node n and at no node before n in node order, and let the hops
    of its routing tree lead from n back to n along edges that have a cost
    entry.  Then [_improvements] answers True whatever nodes follow n; k is
    the least of the assignment amounts of the negative-cost edges of that
    cycle; and in the assignment map the entry of a pair has gone down by k
    for each time the cycle takes the pair's reverse edge, and up by k for
    each time the cycle takes the pair as a forward edge, nothing else of
    the instance being changed.  When no node has a negative self-pair,
    [_improvements] answers False and changes nothing. *)
Theorem improvements_cancels fuel residual_cpt s :
  (∀ before n after l,
     nodes s = before ++ n :: after →
     Forall (λ m, ¬ dict_get (cost residual_cpt) (m, m) 0 < 0) before →
     dict_get (cost residual_cpt) (n, n) 0 < 0 →
     tree_cycle fuel (spanning_tree residual_cpt) n n = Some l →
     Forall (λ e, is_Some (cost residual_cpt !! e)) l →
     let amounts := reverse_amounts (cost residual_cpt) (feasible s) l in
     let k := bottleneck amounts in
     (amounts ≠ [] → k ∈ amounts ∧ Forall (λ a, k ≤ a) amounts)
     ∧ ∃ f', _improvements fuel residual_cpt s = (Ret true, with_feasible f' s)
         ∧ ∀ e, dict_get f' e 0
                = dict_get (feasible s) e 0
                  + k * forward_count (cost residual_cpt) l e
                  - k * reverse_count (cost residual_cpt) l e)
  ∧ (Forall (λ m, ¬ dict_get (cost residual_cpt) (m, m) 0 < 0) (nodes s) →
     _improvements fuel residual_cpt s = (Ret false, s)).
Proof.
  split.
  - intros before n after l Hnodes Hbefore Hn Hl Hdef amounts k.
    split; [apply bottleneck_least|].
    destruct (cancel_k_run fuel (cost residual_cpt) (spanning_tree residual_cpt)
                n k n l s Hl Hdef) as (f' & Hrun & Hf').
    exists f'. split; [|exact Hf'].
    unfold _improvements, bind at 1, gets at 1. cbn [fst snd]. rewrite Hnodes.
    rewrite (for_in_app _ _ _ _ _ (improve_scan_no _ _ _ _ _ Hbefore)).
    cbn [for_in]. unfold bind at 1, improve_at at 1.
    rewrite bool_decide_eq_true_2 by done.
    unfold bind at 1. rewrite (find_k_run _ _ _ _ _ _ _ _ _ Hl Hdef).
    rewrite pick_k_bottleneck. fold amounts. fold k.
    unfold bind at 1. rewrite Hrun. done.
  - apply improvements_none.
Qed.

Lemma improvements_cancels_witness :
  let s := (first_assignment cross).2 in
  let l := [("q","n"); ("n","p"); ("p","m"); ("m","q")] in
  let amounts := reverse_amounts (cost cross_residual) (feasible s) l in
  let k := bottleneck amounts in
  (amounts ≠ [] → k ∈ amounts ∧ Forall (λ a, k ≤ a) amounts)
  ∧ ∃ f', _improvements 100 cross_residual s = (Ret true, with_feasible f' s)
      ∧ ∀ e, dict_get f' e 0
             = dict_get (feasible s) e 0
               + k * forward_count (cost cross_residual) l e
               - k * reverse_count (cost cross_residual) l e.
Proof.
  apply (proj1 (improvements_cancels 100 cross_residual (first_assignment cross).2)
           ["m"; "n"; "p"] "q" []).
  - vm_compute. reflexivity.
  - apply (bool_decide_unpack _). vm_compute. exact I.
  - apply (bool_decide_unpack _). vm_compute. exact I.
  - vm_compute. reflexivity.
  - apply (bool_decide_unpack _). vm_compute. exact I.
Defined.

(** On [cross] the cancellation moves the two duplications from the pairs
    (m, p) and (n, q) to the pairs (m, q) and (n, p). *)
Remark improvements_cross :
  let s := (first_assignment cross).2 in
  map_to_list (feasible s) = [("m","q",0); ("m","p",1); ("n","q",1); ("n","p",0)]
  ∧ (_improvements 100 cross_residual s).1 = Ret true
  ∧ map_to_list (feasible (_improvements 100 cross_residual s).2)
    = [("m","q",1); ("m","p",0); ("n","q",0); ("n","p",1)].
Proof. split; [|split]; vm_compute; reflexivity. Qed.

(** The residual graphs that [compute_cpt] passes to [_improvements] come
    straight from [_get_residual_diblob_manager_for_cpt], whose cost map has
    the residual edges only and so no self-pair: on them [_improvements]
    answers False. *)
Remark residual_never_improves fuel delta_neq delta_pos s r :
  Forall (λ np, is_Some (cost s !! np) ∧ is_Some (feasible s !! np))
         (product delta_neq delta_pos) →
  Forall (λ n, n ∉ delta_pos) delta_neq →
  (_get_residual_diblob_manager_for_cpt delta_neq delta_pos s).1 = Ret r →
  _improvements fuel r s = (Ret false, s).
Proof.
  intros Hdef Hdisj Hr. pose proof (product_disjoint _ _ Hdisj) as Hrev.
  destruct (residual_loop_spec _ [] ∅ s Hdef Hrev) as (es & rc & Hrun & Hes & _).
  unfold _get_residual_diblob_manager_for_cpt in Hr.
  rewrite (bind_ret _ _ _ _ _ Hrun) in Hr. unfold bind, gets, ret in Hr.
  simpl in Hr. injection Hr as <-.
  apply improvements_none. apply Forall_forall. intros m _.
  unfold dict_get. rewrite new_cost_lookup, decide_False; [simpl; lia|].
  rewrite Hes, elem_of_nil, elem_of_reverse_edges. simpl.
  rewrite Forall_forall in Hdisj.
  intros [[]|[[Hn Hp]%elem_of_product|[[Hn Hp]%elem_of_product _]]];
    by apply (Hdisj m).
Qed.

(** * Further properties *)

(** ** One relaxation, explicitly *)

Lemma relax_run k i j s a hop :
  cost s !! (i, k) = Some a → spanning_tree s !! (i, k) = Some hop →
  relax k i j s
  = match cost s !! (k, j) with
    | None => (Ret false, s)
    | Some b =>
        if (match cost s !! (i, j) with
            | None => true
            | Some c => bool_decide (c > a + b)
            end)
        then (Ret (bool_decide (i = j) && bool_decide (a + b < 0)),
              with_cost (<[(i, j) := a + b]> (cost s))
                (with_spanning_tree (<[(i, j) := hop]> (spanning_tree s)) s))
        else (Ret false, s)
    end.
Proof.
  intros Ha Hhop. unfold relax, bind at 1, gets at 1. simpl.
  destruct (dict_in (cost s) (k, j)) eqn:Hkj; last first.
  { apply dict_in_false in Hkj. by rewrite Hkj. }
  apply dict_in_true in Hkj as [b Hb]. rewrite Hb.
  assert (∀ better : bool,
    (if better then
       let! t := gets spanning_tree in
       let! hop := getitem t (i, k) in
       modify (with_spanning_tree (<[(i, j) := hop]> t)) >>
       modify (with_cost (<[(i, j) := dict_get (cost s) (i, k) 0
                                     + dict_get (cost s) (k, j) 0]> (cost s))) >>
       if decide (i = j) then
         let! c' := gets cost in
         let! cii := getitem c' (i, j) in
         ret (bool_decide (cii < 0))
       else ret false
     else ret false) s
    = if better
      then (Ret (bool_decide (i = j) && bool_decide (a + b < 0)),
            with_cost (<[(i, j) := a + b]> (cost s))
              (with_spanning_tree (<[(i, j) := hop]> (spanning_tree s)) s))
      else (Ret false, s)) as Hrest.
  { intros [|]; [|done].
    unfold bind, gets, modify, getitem. simpl. rewrite Hhop. simpl.
    unfold dict_get. rewrite Ha, Hb. simpl.
    case_decide as Hij.
    - subst j. simpl. rewrite lookup_insert_eq. unfold ret.
      by rewrite (bool_decide_eq_true_2 (i = i)).
    - unfold ret. by rewrite (bool_decide_eq_false_2 (i = j)). }
  unfold bind at 1.
  destruct (dict_in (cost s) (i, j)) eqn:Hij; simpl.
  - apply dict_in_true in Hij as [c Hc].
    unfold bind at 1 2 3, getitem at 1 2 3. rewrite Hc, Ha, Hb. simpl.
    apply Hrest.
  - apply dict_in_false in Hij. rewrite Hij. unfold ret at 1. apply (Hrest true).
Qed.

(** ** Walks *)

Lemma walk_from_app u w1 w2 k :
  walk_from u w1 = Some k → walk_from u (w1 ++ w2) = walk_from k w2.
Proof.
  revert u. induction w1 as [|[a b] w1 IH]; intros u; simpl.
  - by intros [= ->].
  - case_decide; [apply IH|done].
Qed.

Lemma walk_cost_app cf dc w1 w2 :
  walk_cost cf dc (w1 ++ w2) = walk_cost cf dc w1 + walk_cost cf dc w2.
Proof.
  unfold walk_cost. induction w1 as [|e w1 IH]; simpl; [done|]. rewrite IH. lia.
Qed.

Lemma is_walk_app es i w1 k w2 j :
  is_walk es i w1 k → is_walk es k w2 j → is_walk es i (w1 ++ w2) j.
Proof.
  intros (Hne1 & Hw1 & Hin1) (Hne2 & Hw2 & Hin2). split; [|split].
  - by destruct w1.
  - by rewrite (walk_from_app _ _ _ _ Hw1).
  - by apply Forall_app.
Qed.

Lemma walk_cost_nonneg (es : list edge) cf dc w :
  (∀ e, e ∈ es → 0 ≤ dict_get cf e dc) → Forall (λ e, e ∈ es) w →
  0 ≤ walk_cost cf dc w.
Proof.
  intros Hpos. induction 1 as [|e w He _ IH]; simpl; [done|].
  specialize (Hpos e He). lia.
Qed.

(** ** One relaxation keeps the closure sound and lowers costs *)

Lemma relax_sound es cf dc k i j s a :
  closure_sound es cf dc s → cost s !! (i, k) = Some a →
  ∃ b s', relax k i j s = (Ret b, s')
          ∧ closure_sound es cf dc s' ∧ cost_decreases s s'
          ∧ nodes s' = nodes s
          ∧ (∀ bkj, cost s !! (k, j) = Some bkj →
               ∃ c, cost s' !! (i, j) = Some c ∧ c ≤ a + bkj)
          ∧ (b = true → negative_self i s').
Proof.
  intros Hs Ha.
  assert (cost_decreases s s) as Hrefl by (intros e c ?; exists c; split; [done|lia]).
  destruct (Hs _ _ _ Ha) as (hop & w1 & Hhop & Hw1 & Hc1).
  rewrite (relax_run _ _ _ _ _ _ Ha Hhop).
  destruct (cost s !! (k, j)) as [b|] eqn:Hb; last first.
  { exists false, s. do 4 (split; [done|]). split; [by intros ? [=]|done]. }
  destruct (Hs _ _ _ Hb) as (h2 & w2 & _ & Hw2 & Hc2).
  destruct (match cost s !! (i, j) with
            | Some c => bool_decide (c > a + b) | None => true end) eqn:Hbetter;
    last first.
  { exists false, s. do 4 (split; [done|]). split; [|done].
    intros ? [= <-]. destruct (cost s !! (i, j)) as [c|]; [|done].
    apply bool_decide_eq_false in Hbetter. exists c. split; [done|lia]. }
  eexists _, _. split; [reflexivity|]. split; [|split; [|split; [|split]]].
  - intros u v c. simpl. destruct (decide ((i, j) = (u, v))) as [[= <- <-]|Hne].
    + rewrite !lookup_insert_eq. intros [= <-].
      exists hop, (w1 ++ (k, h2) :: w2). split; [done|]. split.
      * apply (is_walk_app es i ((i, hop) :: w1) k ((k, h2) :: w2) j Hw1 Hw2).
      * rewrite <- Hc1, <- Hc2.
        apply (walk_cost_app cf dc ((i, hop) :: w1) ((k, h2) :: w2)).
    + rewrite !lookup_insert_ne by done. apply Hs.
  - intros e c. simpl. destruct (decide ((i, j) = e)) as [<-|Hne].
    + rewrite lookup_insert_eq. intros Hc. rewrite Hc in Hbetter.
      apply bool_decide_eq_true in Hbetter. eexists. split; [done|lia].
    + rewrite lookup_insert_ne by done. intros ?. exists c. split; [done|lia].
  - done.
  - intros ? [= <-]. simpl. rewrite lookup_insert_eq. eexists. split; [done|lia].
  - intros [Hij Hneg]%andb_true_iff. apply bool_decide_eq_true in Hij as <-.
    apply bool_decide_eq_true in Hneg. exists (a + b). simpl.
    by rewrite lookup_insert_eq.
Qed.

Lemma cost_decreases_refl s : cost_decreases s s.
Proof. intros e c ?. exists c. split; [done|lia]. Qed.

Lemma cost_decreases_trans s1 s2 s3 :
  cost_decreases s1 s2 → cost_decreases s2 s3 → cost_decreases s1 s3.
Proof.
  intros H12 H23 e c Hc. destruct (H12 _ _ Hc) as (c2 & Hc2 & ?).
  destruct (H23 _ _ Hc2) as (c3 & Hc3 & ?). exists c3. split; [done|lia].
Qed.

Lemma relax_loop_sound es cf dc k i js : ∀ s a,
  closure_sound es cf dc s → cost s !! (i, k) = Some a →
  ∃ b s', for_in js (relax k i) s = (Ret b, s')
          ∧ closure_sound es cf dc s' ∧ cost_decreases s s'
          ∧ nodes s' = nodes s
          ∧ (b = false → ∀ j bkj, j ∈ js → cost s !! (k, j) = Some bkj →
               ∃ c, cost s' !! (i, j) = Some c ∧ c ≤ a + bkj)
          ∧ (b = true → negative_self i s').
Proof.
  induction js as [|j js IH]; intros s a Hs Ha; simpl.
  - exists false, s. split; [done|]. split; [done|].
    split; [apply cost_decreases_refl|]. split; [done|].
    split; [|done]. intros _ j b Hj. by apply not_elem_of_nil in Hj.
  - destruct (relax_sound es cf dc k i j s a Hs Ha)
      as (b & s1 & Hrun & Hs1 & Hd1 & Hn1 & Hle1 & Hneg1).
    rewrite (bind_ret _ _ _ _ _ Hrun). destruct b.
    + exists true, s1. by repeat (split; [done|]).
    + destruct (Hd1 _ _ Ha) as (a1 & Ha1 & Hle_a).
      destruct (IH s1 a1 Hs1 Ha1) as (b & s2 & Hrun2 & Hs2 & Hd2 & Hn2 & Hle2 & Hneg2).
      exists b, s2. split; [done|]. split; [done|].
      split; [by eapply cost_decreases_trans|]. split; [congruence|].
      split; [|done]. intros Hb j' b' Hj' Hb'.
      apply elem_of_cons in Hj' as [->|Hj'].
      * destruct (Hle1 _ Hb') as (c1 & Hc1 & ?).
        destruct (Hd2 _ _ Hc1) as (c2 & Hc2 & ?). exists c2. split; [done|lia].
      * destruct (Hd1 _ _ Hb') as (b1 & Hb1 & ?).
        destruct (Hle2 Hb _ _ Hj' Hb1) as (c2 & Hc2 & ?). exists c2. split; [done|lia].
Qed.

Lemma relax_row_sound es cf dc k i s :
  closure_sound es cf dc s →
  ∃ b s', relax_row (k, i) s = (Ret b, s')
          ∧ closure_sound es cf dc s' ∧ cost_decreases s s'
          ∧ nodes s' = nodes s
          ∧ (b = false → ∀ j a bkj, j ∈ nodes s →
               cost s !! (i, k) = Some a → cost s !! (k, j) = Some bkj →
               ∃ c, cost s' !! (i, j) = Some c ∧ c ≤ a + bkj)
          ∧ (b = true → negative_self i s').
Proof.
  intros Hs. unfold relax_row, bind, gets. simpl.
  destruct (dict_in (cost s) (i, k)) eqn:Hik.
  - apply dict_in_true in Hik as [a Ha].
    destruct (relax_loop_sound es cf dc k i (nodes s) s a Hs Ha)
      as (b & s' & Hrun & Hs' & Hd & Hn & Hle & Hneg).
    exists b, s'. rewrite Hrun. do 4 (split; [done|]). split; [|done].
    intros Hb j a' b' Hj Ha' Hb'. assert (a' = a) as -> by congruence. eauto.
  - apply dict_in_false in Hik. exists false, s. split; [done|]. split; [done|].
    split; [apply cost_decreases_refl|]. split; [done|]. split; [|done].
    intros _ j a b _ Ha. congruence.
Qed.

(** The rows of one intermediate node [k]. *)
Lemma rows_sound es cf dc k l : ∀ s,
  closure_sound es cf dc s →
  ∃ b s', for_in (map (λ i, (k, i)) l) relax_row s = (Ret b, s')
          ∧ closure_sound es cf dc s' ∧ cost_decreases s s'
          ∧ nodes s' = nodes s
          ∧ (b = false → ∀ i j a bkj, i ∈ l → j ∈ nodes s →
               cost s !! (i, k) = Some a → cost s !! (k, j) = Some bkj →
               ∃ c, cost s' !! (i, j) = Some c ∧ c ≤ a + bkj)
          ∧ (b = true → ∃ n, negative_self n s').
Proof.
  induction l as [|i l IH]; intros s Hs; simpl.
  - exists false, s. split; [done|]. split; [done|].
    split; [apply cost_decreases_refl|]. split; [done|].
    split; [|done]. intros _ i j a b Hi. by apply not_elem_of_nil in Hi.
  - destruct (relax_row_sound es cf dc k i s Hs)
      as (b & s1 & Hrun & Hs1 & Hd1 & Hn1 & Hle1 & Hneg1).
    rewrite (bind_ret _ _ _ _ _ Hrun). destruct b.
    + exists true, s1. do 4 (split; [done|]). split; [done|]. intros _. eauto.
    + destruct (IH s1 Hs1) as (b & s2 & Hrun2 & Hs2 & Hd2 & Hn2 & Hle2 & Hneg2).
      exists b, s2. split; [done|]. split; [done|].
      split; [by eapply cost_decreases_trans|]. split; [congruence|].
      split; [|done]. intros Hb i' j a' b' Hi' Hj Ha' Hb'.
      apply elem_of_cons in Hi' as [->|Hi'].
      * destruct (Hle1 eq_refl _ _ _ Hj Ha' Hb') as (c1 & Hc1 & ?).
        destruct (Hd2 _ _ Hc1) as (c2 & Hc2 & ?). exists c2. split; [done|lia].
      * destruct (Hd1 _ _ Ha') as (a1 & Ha1 & ?).
        destruct (Hd1 _ _ Hb') as (b1 & Hb1 & ?).
        rewrite <- Hn1 in Hj.
        destruct (Hle2 Hb _ _ _ _ Hi' Hj Ha1 Hb1) as (c2 & Hc2 & ?).
        exists c2. split; [done|lia].
Qed.

(** Any run of rows keeps the closure sound. *)
Lemma closure_loop_sound es cf dc kis : ∀ s,
  closure_sound es cf dc s →
  ∃ b s', for_in kis relax_row s = (Ret b, s')
          ∧ closure_sound es cf dc s' ∧ cost_decreases s s'.
Proof.
  induction kis as [|[k i] kis IH]; intros s Hs; simpl.
  - exists false, s. split; [done|]. split; [done|]. apply cost_decreases_refl.
  - destruct (relax_row_sound es cf dc k i s Hs)
      as (b & s1 & Hrun & Hs1 & Hd1 & _).
    rewrite (bind_ret _ _ _ _ _ Hrun). destruct b.
    + by exists true, s1.
    + destruct (IH s1 Hs1) as (b & s2 & Hrun2 & Hs2 & Hd2).
      exists b, s2. split; [done|]. split; [done|]. by eapply cost_decreases_trans.
Qed.

Lemma new_closure_sound ns es cf dc :
  closure_sound es cf dc (new_CPTDigraphManager ns es cf dc).
Proof.
  intros i j c. rewrite new_cost_lookup, new_spanning_tree_lookup.
  case_decide as Hin; [|done]. intros [= <-].
  exists j, []. split; [done|]. split.
  - split; [done|]. split.
    + simpl. by rewrite decide_True.
    + by apply Forall_singleton.
  - simpl. lia.
Qed.

(** ** Walks through a set of intermediate nodes *)

Lemma via_mono es K K' i w j :
  (∀ x, x ∈ K → x ∈ K') → via es K i w j → via es K' i w j.
Proof.
  intros Hsub. induction 1 as [|i m w j He Hm _ IH]; [by constructor|].
  constructor; [done|by apply Hsub|done].
Qed.

Lemma via_is_walk es K i w j : via es K i w j → is_walk es i w j.
Proof.
  induction 1 as [i j He|i m w j He Hm _ (Hne & Hw & Hall)].
  - split; [done|]. split; [simpl; by rewrite decide_True|by apply Forall_singleton].
  - split; [done|]. split; [simpl; by rewrite decide_True|by constructor].
Qed.

Lemma is_walk_via es ns w : ∀ i j,
  Forall (λ e : edge, e.1 ∈ ns ∧ e.2 ∈ ns) es →
  is_walk es i w j → via es ns i w j.
Proof.
  induction w as [|[a b] w IH]; intros i j Hends (Hne & Hw & Hall); [done|].
  simpl in Hw. case_decide as Hai; [subst a|done].
  apply Forall_cons in Hall as [He Hall].
  destruct w as [|e w].
  - simpl in Hw. injection Hw as ->. by constructor.
  - constructor; [done| |by apply IH].
    rewrite Forall_forall in Hends. by destruct (Hends _ He).
Qed.

Lemma via_ends (es : list edge) K i w j :
  via es K i w j → (∃ h, (i, h) ∈ es) ∧ (∃ t, (t, j) ∈ es).
Proof.
  induction 1 as [i j He|i m w j He Hm _ [_ IH]]; split; eauto.
Qed.

Lemma via_split es cf dc k K i w j :
  (∀ w1, via es K k w1 k → 0 ≤ walk_cost cf dc w1) →
  via es (k :: K) i w j →
  via es K i w j
  ∨ ∃ w1 w2, via es K i w1 k ∧ via es K k w2 j
             ∧ walk_cost cf dc w1 + walk_cost cf dc w2 ≤ walk_cost cf dc w.
Proof.
  intros Hpos.
  induction 1 as [i j He|i m w j He Hm Hw IH]; [left; by constructor|].
  destruct (decide (m = k)) as [->|Hmk].
  - right. destruct IH as [Hv|(w1 & w2 & Hv1 & Hv2 & Hle)].
    + exists [(i, k)], w. split; [by constructor|]. split; [done|]. simpl. lia.
    + exists [(i, k)], w2. split; [by constructor|]. split; [done|].
      assert (0 ≤ walk_cost cf dc w1) by (by apply Hpos).
      simpl. lia.
  - assert (m ∈ K) as HmK by (apply elem_of_cons in Hm as [?|?]; done).
    destruct IH as [Hv|(w1 & w2 & Hv1 & Hv2 & Hle)].
    + left. by constructor.
    + right. exists ((i, m) :: w1), w2. split; [by constructor|]. split; [done|].
      simpl. lia.
Qed.

Lemma nonneg_closed_walks (es : list edge) cf dc :
  Forall (λ e, 0 ≤ dict_get cf e dc) es → closed_walks_nonneg es cf dc.
Proof.
  intros Hpos u w (_ & _ & Hall). rewrite Forall_forall in Hpos.
  by eapply walk_cost_nonneg.
Qed.

Lemma not_negative_cycle_closed_walks ns es cf dc :
  ¬ negative_cycle (new_CPTDigraphManager ns es cf dc) →
  closed_walks_nonneg es cf dc.
Proof.
  intros Hno u w (Hne & Hw & Hall).
  destruct (decide (0 ≤ walk_cost cf dc w)) as [|Hlt]; [done|].
  destruct Hno. exists u, w. repeat split; [done..|]. simpl. lia.
Qed.

Lemma sound_self_nonneg es cf dc s n c :
  closed_walks_nonneg es cf dc →
  closure_sound es cf dc s → cost s !! (n, n) = Some c → 0 ≤ c.
Proof.
  intros Hpos Hs Hc.
  destruct (Hs _ _ _ Hc) as (h & w & _ & Hw & <-). by apply (Hpos n).
Qed.

(** ** The rows of [k] bring the closure below the walks through [k] *)

Lemma rows_below ns es cf dc k K s :
  closed_walks_nonneg es cf dc →
  Forall (λ e : edge, e.1 ∈ ns ∧ e.2 ∈ ns) es →
  closure_sound es cf dc s → closure_below es cf dc K s → nodes s = ns →
  ∃ s', for_in (map (λ i, (k, i)) ns) relax_row s = (Ret false, s')
        ∧ closure_sound es cf dc s' ∧ cost_decreases s s' ∧ nodes s' = ns
        ∧ closure_below es cf dc (k :: K) s'.
Proof.
  intros Hpos Hends Hs Hbelow Hns.
  destruct (rows_sound es cf dc k ns s Hs) as (b & s' & Hrun & Hs' & Hd & Hn & Hle & Hneg).
  destruct b.
  { destruct (Hneg eq_refl) as (n & c & Hc & Hlt).
    pose proof (sound_self_nonneg _ _ _ _ _ _ Hpos Hs' Hc). lia. }
  exists s'. split; [done|]. split; [done|]. split; [done|]. split; [congruence|].
  assert (∀ w1, via es K k w1 k → 0 ≤ walk_cost cf dc w1) as Hloops.
  { intros w1 Hw1. by eapply Hpos, via_is_walk. }
  intros i j w Hw. destruct (via_split _ _ _ _ _ _ _ _ Hloops Hw)
    as [Hv|(w1 & w2 & Hv1 & Hv2 & Hcost)].
  - destruct (Hbelow _ _ _ Hv) as (c & Hc & ?).
    destruct (Hd _ _ Hc) as (c' & Hc' & ?). exists c'. split; [done|lia].
  - destruct (Hbelow _ _ _ Hv1) as (a & Ha & ?).
    destruct (Hbelow _ _ _ Hv2) as (bkj & Hb & ?).
    rewrite Forall_forall in Hends.
    destruct (via_ends _ _ _ _ _ Hw) as [(h & Hih) (t & Htj)].
    destruct (Hends _ Hih) as [Hi _]. destruct (Hends _ Htj) as [_ Hj].
    simpl in Hi, Hj. rewrite <- Hns in Hj.
    destruct (Hle eq_refl i j a bkj Hi Hj Ha Hb) as (c & Hc & ?).
    exists c. split; [done|lia].
Qed.

Lemma closure_loop_below ns es cf dc ks : ∀ K s,
  closed_walks_nonneg es cf dc →
  Forall (λ e : edge, e.1 ∈ ns ∧ e.2 ∈ ns) es →
  closure_sound es cf dc s → closure_below es cf dc K s → nodes s = ns →
  ∃ s', for_in (product ks ns) relax_row s = (Ret false, s')
        ∧ closure_sound es cf dc s' ∧ nodes s' = ns
        ∧ closure_below es cf dc (ks ++ K) s'.
Proof.
  induction ks as [|k ks IH]; intros K s Hpos Hends Hs Hbelow Hns.
  - exists s. by repeat (split; [done|]).
  - destruct (rows_below ns es cf dc k K s Hpos Hends Hs Hbelow Hns)
      as (s1 & Hrun1 & Hs1 & _ & Hn1 & Hb1).
    destruct (IH (k :: K) s1 Hpos Hends Hs1 Hb1 Hn1) as (s2 & Hrun2 & Hs2 & Hn2 & Hb2).
    exists s2. rewrite product_cons, (for_in_app _ _ _ _ _ Hrun1).
    split; [done|]. split; [done|]. split; [done|].
    intros i j w Hw. apply Hb2. revert Hw. apply via_mono.
    intros x. change ((k :: ks) ++ K) with (k :: (ks ++ K)).
    rewrite elem_of_cons, !elem_of_app, elem_of_cons. tauto.
Qed.

Lemma new_closure_below ns es cf dc :
  closure_below es cf dc [] (new_CPTDigraphManager ns es cf dc).
Proof.
  intros i j w Hw. inversion Hw as [i' j' He|i' m w' j' He Hm]; subst.
  - rewrite new_cost_lookup, decide_True by done. eexists. split; [done|].
    simpl. lia.
  - by apply not_elem_of_nil in Hm.
Qed.

Lemma least_cost_paths_run_below ns es cf dc :
  closed_walks_nonneg es cf dc →
  Forall (λ e : edge, e.1 ∈ ns ∧ e.2 ∈ ns) es →
  ∃ s', least_cost_paths_run (new_CPTDigraphManager ns es cf dc) = (Ret false, s')
        ∧ closure_sound es cf dc s' ∧ closure_below es cf dc ns s'.
Proof.
  intros Hpos Hends. unfold least_cost_paths_run, bind, gets. simpl.
  destruct (closure_loop_below ns es cf dc ns [] (new_CPTDigraphManager ns es cf dc)
              Hpos Hends (new_closure_sound _ _ _ _) (new_closure_below _ _ _ _) eq_refl)
    as (s' & Hrun & Hs' & _ & Hb).
  exists s'. split; [done|]. split; [done|]. by rewrite app_nil_r in Hb.
Qed.

(** ** What the cost closure holds *)

Lemma tc_is_walk es u v : tc (edge_rel es) u v → ∃ w, is_walk es u w v.
Proof.
  induction 1 as [u v He|u m v He _ (w & Hne & Hw & Hall)].
  - exists [(u, v)]. split; [done|]. split; [simpl; by rewrite decide_True|].
    by apply Forall_singleton.
  - exists ((u, m) :: w). split; [done|]. split; [simpl; by rewrite decide_True|].
    by constructor.
Qed.

Lemma is_walk_tc es w : ∀ u v, is_walk es u w v → tc (edge_rel es) u v.
Proof.
  induction w as [|[a b] w IH]; intros u v (Hne & Hw & Hall); [done|].
  simpl in Hw. case_decide; [subst a|done].
  apply Forall_cons in Hall as [He Hall]. destruct w as [|e w].
  - simpl in Hw. injection Hw as ->. by apply tc_once.
  - eapply tc_l; [exact He|]. by apply IH.
Qed.

Lemma least_cost_paths_of_run s s' b :
  least_cost_paths_run s = (Ret b, s') → least_cost_paths s = (Ret tt, s').
Proof. intros Hrun. unfold least_cost_paths. by rewrite (bind_ret _ _ _ _ _ Hrun). Qed.

(** X1.  Whatever the costs, [least_cost_paths] on a freshly built instance
    returns without raising, and every entry of the cost map it leaves is
    the cost of a walk of the graph from the first node of the pair to the
    second, the routing entry of the pair being the first hop of that
    walk. *)
Theorem least_cost_paths_sound ns es cf dc :
  ∃ s', least_cost_paths (new_CPTDigraphManager ns es cf dc) = (Ret tt, s')
        ∧ ∀ i j c, cost s' !! (i, j) = Some c →
            ∃ h w, spanning_tree s' !! (i, j) = Some h
                   ∧ is_walk es i ((i, h) :: w) j
                   ∧ walk_cost cf dc ((i, h) :: w) = c.
Proof.
  unfold least_cost_paths_run.
  destruct (closure_loop_sound es cf dc (product ns ns)
              (new_CPTDigraphManager ns es cf dc) (new_closure_sound _ _ _ _))
    as (b & s' & Hrun & Hs' & _).
  exists s'. split; [|exact Hs'].
  apply (least_cost_paths_of_run _ _ b).
  unfold least_cost_paths_run, bind, gets. simpl. exact Hrun.
Qed.

(** X2.  When the graph has no cycle of negative cost and every edge joins
    nodes of the instance, the cost map that [least_cost_paths] leaves on a
    freshly built instance holds exactly the least costs: a pair has an
    entry if and only if some non-empty walk of the graph joins it, and the
    entry is the cost of such a walk and at most the cost of every other
    one. *)
Theorem least_cost_paths_least ns es cf dc :
  ¬ negative_cycle (new_CPTDigraphManager ns es cf dc) →
  Forall (λ e : edge, e.1 ∈ ns ∧ e.2 ∈ ns) es →
  ∃ s', least_cost_paths (new_CPTDigraphManager ns es cf dc) = (Ret tt, s')
        ∧ ∀ i j,
            match cost s' !! (i, j) with
            | Some c => (∃ w, is_walk es i w j ∧ walk_cost cf dc w = c)
                        ∧ ∀ w, is_walk es i w j → c ≤ walk_cost cf dc w
            | None => ∀ w, ¬ is_walk es i w j
            end.
Proof.
  intros Hpos%not_negative_cycle_closed_walks Hends.
  destruct (least_cost_paths_run_below ns es cf dc Hpos Hends) as (s' & Hrun & Hs' & Hb).
  exists s'. split; [by eapply least_cost_paths_of_run|].
  intros i j. destruct (cost s' !! (i, j)) as [c|] eqn:Hc.
  - split.
    + destruct (Hs' _ _ _ Hc) as (h & w & _ & Hw & Hcost). eauto.
    + intros w Hw. destruct (Hb i j w (is_walk_via _ _ _ _ _ Hends Hw)) as (c' & Hc' & ?).
      assert (c' = c) as -> by congruence. done.
  - intros w Hw. destruct (Hb i j w (is_walk_via _ _ _ _ _ Hends Hw)) as (c' & Hc' & ?).
    congruence.
Qed.

(** X3.  Under the same conditions (no cycle of negative cost, edges between
    nodes of the instance) the connectivity check answers True if
    and only if every ordered pair of nodes, a node with itself included, is
    joined by a non-empty path. *)
Theorem check_if_digraph_is_strongly_connected_iff ns es cf dc :
  ¬ negative_cycle (new_CPTDigraphManager ns es cf dc) →
  Forall (λ e : edge, e.1 ∈ ns ∧ e.2 ∈ ns) es →
  ∃ b, (check_if_digraph_is_strongly_connected (new_CPTDigraphManager ns es cf dc)).1
       = Ret b
       ∧ (b = true ↔ ∀ u v, u ∈ ns → v ∈ ns → tc (edge_rel es) u v).
Proof.
  intros Hpos%not_negative_cycle_closed_walks Hends.
  destruct (check_closure es _ (new_closure_inv ns es cf dc))
    as (s1 & Hrun & [Hpath _] & _ & Hl).
  destruct (least_cost_paths_run_below ns es cf dc Hpos Hends) as (s' & Hrun' & _ & Hb).
  apply least_cost_paths_of_run in Hrun'.
  assert (s' = s1) as -> by congruence.
  eexists. rewrite Hrun. split; [reflexivity|].
  rewrite all_pairs_in_true. simpl. split.
  - intros Hall u v Hu Hv. by apply Hpath, Hall.
  - intros Hall u v Hu Hv. destruct (tc_is_walk _ _ _ (Hall u v Hu Hv)) as (w & Hw).
    destruct (Hb u v w (is_walk_via _ _ _ _ _ Hends Hw)) as (c & Hc & _). eauto.
Qed.

(** X4.  Whatever the costs, [compute_cpt] raises NotSCGException as soon as
    some ordered pair of nodes has no non-empty path; the pair may be a node
    with itself, so a graph of one node and no edge is rejected. *)
Theorem compute_cpt_rejects_unjoined_pair ns es cf dc fuel start_node u v :
  u ∈ ns → v ∈ ns → ¬ tc (edge_rel es) u v →
  (compute_cpt fuel start_node (new_CPTDigraphManager ns es cf dc)).1
  = Raise NotSCGException.
Proof.
  intros Hu Hv Hno.
  destruct (check_closure es _ (new_closure_inv ns es cf dc))
    as (s' & Hrun & [Hpath _] & _ & _).
  rewrite compute_cpt_phases, (bind_ret _ _ _ _ _ Hrun).
  destruct (all_pairs_in _ _) eqn:Hall; [|done].
  destruct Hno. apply Hpath. by apply (proj1 (all_pairs_in_true _ _) Hall).
Qed.

(** ** Following the routing tree *)

Lemma least_cost_paths_closure_least ns es cf dc :
  closed_walks_nonneg es cf dc →
  Forall (λ e : edge, e.1 ∈ ns ∧ e.2 ∈ ns) es →
  ∃ s', least_cost_paths (new_CPTDigraphManager ns es cf dc) = (Ret tt, s')
        ∧ closure_least es cf dc s'.
Proof.
  intros Hpos Hends.
  destruct (least_cost_paths_run_below ns es cf dc Hpos Hends) as (s' & Hrun & Hs' & Hb).
  exists s'. split; [by eapply least_cost_paths_of_run|]. split; [done|].
  intros i j w Hw. apply Hb. by eapply is_walk_via.
Qed.

Lemma positive_nonneg (es : list edge) cf dc :
  Forall (λ e, 0 < dict_get cf e dc) es → Forall (λ e, 0 ≤ dict_get cf e dc) es.
Proof. intros H. eapply Forall_impl; [exact H|]. intros e ?. simpl in *. lia. Qed.

(** The routing entry of a pair is an edge out of its first node, and what
    is left of the least cost after that edge is the least cost from the
    hop. *)
Lemma hop_step es cf dc s u v c :
  Forall (λ e, 0 ≤ dict_get cf e dc) es →
  closure_least es cf dc s → cost s !! (u, v) = Some c →
  ∃ p, spanning_tree s !! (u, v) = Some p ∧ (u, p) ∈ es
       ∧ if decide (p = v) then c = dict_get cf (u, p) dc
         else cost s !! (p, v) = Some (c - dict_get cf (u, p) dc).
Proof.
  intros Hpos [Hs Hb] Hc.
  destruct (Hs _ _ _ Hc) as (p & w & Hp & (_ & Hw & Hall) & Hcost).
  apply Forall_cons in Hall as [He Hall].
  simpl in Hw. rewrite decide_True in Hw by done.
  assert (0 ≤ walk_cost cf dc w) as Hw0.
  { rewrite Forall_forall in Hpos. by eapply walk_cost_nonneg. }
  exists p. split; [done|]. split; [done|]. simpl in Hcost.
  case_decide as Hpv.
  - subst p. destruct (Hb u v [(u, v)]) as (c' & Hc' & Hle).
    { split; [done|]. split; [simpl; by rewrite decide_True|by apply Forall_singleton]. }
    assert (c' = c) as -> by congruence. simpl in Hle. lia.
  - assert (is_walk es p w v) as Hpw.
    { split; [|done]. intros ->. simpl in Hw. by injection Hw. }
    destruct (Hb _ _ _ Hpw) as (c' & Hc' & Hle).
    destruct (Hs _ _ _ Hc') as (h' & w' & _ & (_ & Hw' & Hall') & Hcost').
    destruct (Hb u v ((u, p) :: (p, h') :: w')) as (c2 & Hc2 & Hle2).
    { split; [done|]. split; [simpl; rewrite decide_True by done; exact Hw'|].
      by constructor. }
    assert (c2 = c) as -> by congruence.
    rewrite Hc'. f_equal.
    change (walk_cost cf dc ((u, p) :: (p, h') :: w'))
      with (dict_get cf (u, p) dc + walk_cost cf dc ((p, h') :: w')) in Hle2.
    lia.
Qed.

Lemma closure_least_positive es cf dc s e c :
  Forall (λ e, 0 < dict_get cf e dc) es →
  closure_least es cf dc s → cost s !! e = Some c → 0 < c.
Proof.
  intros Hpos [Hs _] Hc. destruct e as [i j].
  destruct (Hs _ _ _ Hc) as (h & w & _ & (_ & _ & Hall) & <-).
  apply Forall_cons in Hall as [He Hall].
  rewrite Forall_forall in Hpos. pose proof (Hpos _ He).
  assert (0 ≤ walk_cost cf dc w).
  { eapply walk_cost_nonneg; [|exact Hall]. intros e' He'. specialize (Hpos e' He'). lia. }
  simpl. lia.
Qed.

Lemma walk_path_run es cf dc t bound : ∀ s u v c cpt,
  Forall (λ e, 0 < dict_get cf e dc) es →
  closure_least es cf dc t →
  spanning_tree s = spanning_tree t →
  cost t !! (u, v) = Some c → u ≠ v → c ≤ Z.of_nat bound →
  ∃ p, walk_path bound u v cpt s = (Ret (cpt ++ p), s)
       ∧ is_walk es u p v ∧ walk_cost cf dc p = c.
Proof.
  induction bound as [|bound IH]; intros s u v c cpt Hpos Ht Htree Hc Huv Hbound.
  { pose proof (closure_least_positive _ _ _ _ _ _ Hpos Ht Hc). lia. }
  destruct (hop_step es cf dc t u v c (positive_nonneg _ _ _ Hpos) Ht Hc)
    as (p & Hp & He & Hrest).
  assert (0 < dict_get cf (u, p) dc) as Hup.
  { rewrite Forall_forall in Hpos. by apply Hpos. }
  simpl. rewrite decide_False by done.
  unfold bind at 1, gets at 1. cbn [fst snd].
  unfold bind at 1. rewrite Htree, (getitem_Some _ _ _ _ Hp).
  case_decide as Hpv.
  - subst p. destruct bound; simpl; rewrite decide_True by done.
    all: exists [(u, v)]; split; [done|]; split; [|simpl; lia].
    all: split; [done|]; split; [simpl; by rewrite decide_True|by apply Forall_singleton].
  - destruct (IH s p v _ (cpt ++ [(u, p)]) Hpos Ht Htree Hrest Hpv) as (q & Hrun & Hq & Hcq);
      [lia|].
    exists ((u, p) :: q). rewrite Hrun. split; [by rewrite <- app_assoc|].
    destruct Hq as (Hne & Hwq & Hall). split.
    + split; [done|]. split; [simpl; by rewrite decide_True|by constructor].
    + simpl. fold (walk_cost cf dc q). lia.
Qed.

(** X5.  With positive costs, the inner loop of [_get_cpt] run on the routing
    tree that [least_cost_paths] has left appends a least-cost path: for
    two different nodes with a closure entry, given a bound of at least
    that entry, it returns without a KeyError, and what it appends to the
    tour is a walk of the graph from the one to the other whose cost is the
    closure entry, which no walk between the two undercuts. *)
Theorem walk_path_least_cost ns es cf dc s u v c cpt bound :
  Forall (λ e, 0 < dict_get cf e dc) es →
  Forall (λ e : edge, e.1 ∈ ns ∧ e.2 ∈ ns) es →
  spanning_tree s
  = spanning_tree (least_cost_paths (new_CPTDigraphManager ns es cf dc)).2 →
  cost (least_cost_paths (new_CPTDigraphManager ns es cf dc)).2 !! (u, v) = Some c →
  u ≠ v → c ≤ Z.of_nat bound →
  ∃ p, walk_path bound u v cpt s = (Ret (cpt ++ p), s)
       ∧ is_walk es u p v ∧ walk_cost cf dc p = c
       ∧ ∀ w, is_walk es u w v → walk_cost cf dc p ≤ walk_cost cf dc w.
Proof.
  intros Hpos Hends Htree Hc Huv Hbound.
  destruct (least_cost_paths_closure_least ns es cf dc
              (nonneg_closed_walks _ _ _ (positive_nonneg _ _ _ Hpos)) Hends)
    as (t & Hl & Hleast).
  rewrite Hl in Htree, Hc. simpl in Htree, Hc.
  destruct (walk_path_run es cf dc t bound s u v c cpt Hpos Hleast Htree Hc Huv Hbound)
    as (p & Hrun & Hp & Hcost).
  exists p. split; [done|]. split; [done|]. split; [done|].
  intros w Hw. destruct (proj2 Hleast u v w Hw) as (c' & Hc' & Hle).
  assert (c' = c) as -> by congruence. lia.
Qed.

(** ** The tour extraction terminates *)

Lemma filter_length_le {A} (P Q : A → Prop) `{∀ x, Decision (P x)}
    `{∀ x, Decision (Q x)} (l : list A) :
  (∀ y, y ∈ l → Q y → P y) →
  (length (filter Q l) ≤ length (filter P l))%nat.
Proof.
  induction l as [|y l IH]; intros Hsub; [done|].
  rewrite !filter_cons.
  assert (length (filter Q l) ≤ length (filter P l))%nat as Hle.
  { apply IH. intros z Hz. apply Hsub. by right. }
  destruct (decide (Q y)) as [HQ|HQ].
  - rewrite decide_True by (apply Hsub; [by left|done]). simpl. lia.
  - destruct (decide (P y)); simpl; lia.
Qed.

Lemma filter_length_lt {A} (P Q : A → Prop) `{∀ x, Decision (P x)}
    `{∀ x, Decision (Q x)} (l : list A) x :
  (∀ y, y ∈ l → Q y → P y) → x ∈ l → P x → ¬ Q x →
  (length (filter Q l) < length (filter P l))%nat.
Proof.
  induction l as [|y l IH]; intros Hsub Hx HP HQ; [by apply not_elem_of_nil in Hx|].
  rewrite !filter_cons.
  assert (∀ z, z ∈ l → Q z → P z) as Hsub' by (intros z Hz; apply Hsub; by right).
  apply elem_of_cons in Hx as [<-|Hx].
  - rewrite decide_False, decide_True by done. simpl.
    pose proof (filter_length_le P Q l Hsub'). lia.
  - specialize (IH Hsub' Hx HP HQ).
    destruct (decide (Q y)) as [HQy|HQy].
    + rewrite decide_True by (apply Hsub; [by left|done]). simpl. lia.
    + destruct (decide (P y)); simpl; lia.
Qed.

Lemma pending_serve ns f u v :
  u ∈ ns → v ∈ ns → 0 < dict_get f (u, v) 0 →
  (pending ns (<[(u, v) := (-1)%Z]> f) < pending ns f)%nat.
Proof.
  intros Hu Hv Hpos. unfold pending.
  apply (filter_length_lt _ _ _ (u, v)).
  - intros e _. unfold dict_get. destruct (decide (e = (u, v))) as [->|Hne].
    + rewrite lookup_insert_eq. simpl. lia.
    + by rewrite lookup_insert_ne.
  - by apply elem_of_product.
  - done.
  - unfold dict_get. rewrite lookup_insert_eq. simpl. lia.
Qed.

Lemma walk_path_same bound u cpt s : walk_path bound u u cpt s = (Ret cpt, s).
Proof. destruct bound; simpl; by rewrite decide_True. Qed.

Lemma find_path_Some ns frm f v :
  _find_path ns frm f = Some v → v ∈ ns ∧ 0 < dict_get f (frm, v) 0.
Proof.
  unfold _find_path. intros [Hin Hb]%find_some.
  apply list_elem_of_In in Hin. apply bool_decide_eq_true in Hb. split; [done|lia].
Qed.

Lemma unused_edge_spec ns es used u bridge_node :
  (u, bridge_node) ∈ es → (u, bridge_node) ∉ used →
  (u, unused_edge ns es used u bridge_node) ∈ es
  ∧ (u, unused_edge ns es used u bridge_node) ∉ used.
Proof.
  intros Hb Hnb. unfold unused_edge.
  destruct (List.find _ ns) as [n|] eqn:Hfind; simpl; [|done].
  apply find_some in Hfind as [_ Hc].
  apply andb_true_iff in Hc as [[_ He]%andb_true_iff Hu].
  apply bool_decide_eq_true in He. apply negb_true_iff, bool_decide_eq_false in Hu.
  done.
Qed.

Section tour.
Variables (ns : list node) (es : list edge) (cf : gmap edge Z) (dc : Z).
Variable t : CPTDigraphManager.
Variables (bound : nat) (start_node : node).
Hypothesis Hpos : Forall (λ e, 0 < dict_get cf e dc) es.
Hypothesis Hends : Forall (λ e : edge, e.1 ∈ ns ∧ e.2 ∈ ns) es.
Hypothesis Hleast : closure_least es cf dc t.
Hypothesis Hall : ∀ u v, u ∈ ns → v ∈ ns → is_Some (cost t !! (u, v)).
Hypothesis Hbound : ∀ e c, cost t !! e = Some c → c ≤ Z.of_nat bound.
Hypothesis Hstart : start_node ∈ ns.

Lemma walk_path_total s u v cpt :
  spanning_tree s = spanning_tree t → u ∈ ns → v ∈ ns →
  ∃ p, walk_path bound u v cpt s = (Ret (cpt ++ p), s)
       ∧ walk_from u p = Some v ∧ Forall (λ e, e ∈ es) p.
Proof.
  intros Htree Hu Hv. destruct (decide (u = v)) as [->|Huv].
  - exists []. rewrite walk_path_same, app_nil_r. by repeat split.
  - destruct (Hall u v Hu Hv) as [c Hc].
    destruct (walk_path_run es cf dc t bound s u v c cpt Hpos Hleast Htree Hc Huv)
      as (p & Hrun & (_ & Hw & Hp) & _); [by eapply Hbound|].
    by exists p.
Qed.

Lemma tour_loop_run fuel : ∀ s v used cpt,
  nodes s = ns → edges s = es → spanning_tree s = spanning_tree t →
  v ∈ ns → walk_from start_node cpt = Some v → Forall (λ e, e ∈ es) cpt →
  used ⊆ list_to_set es →
  (pending ns (feasible s) + size (list_to_set es : gset edge)
   < fuel + size used)%nat →
  ∃ cpt' v' s', tour_loop bound fuel start_node v used cpt s = (Ret cpt', s')
                ∧ walk_from start_node cpt' = Some v'
                ∧ Forall (λ e, e ∈ es) cpt'.
Proof.
  induction fuel as [|fuel IH]; intros s v used cpt Hn He Htree Hv Hw Hcpt Hused Hm.
  { pose proof (subseteq_size _ _ Hused). lia. }
  cbn [tour_loop]. unfold bind at 1, gets at 1. cbn [fst snd].
  unfold bind at 1, gets at 1. cbn [fst snd]. rewrite Hn.
  destruct (_find_path ns v (feasible s)) as [v'|] eqn:Hfind.
  - apply find_path_Some in Hfind as [Hv' Hf].
    set (s1 := with_feasible (<[(v, v') := -1]> (feasible s)) s).
    destruct (walk_path_total s1 v v' cpt Htree Hv Hv') as (p & Hrun & Hp & Hpe).
    unfold bind at 1, serve_path, bind at 1, modify at 1. cbn [fst snd].
    fold s1. rewrite Hrun.
    apply (IH s1 v' used (cpt ++ p)); try done.
    + by rewrite (walk_from_app _ _ _ _ Hw).
    + by apply Forall_app.
    + pose proof (pending_serve ns (feasible s) v v' Hv Hv' Hf). simpl. lia.
  - destruct (Hall v start_node Hv Hstart) as [c Hc].
    destruct (hop_step es cf dc t v start_node c (positive_nonneg _ _ _ Hpos) Hleast Hc)
      as (bridge_node & Hb & Hbe & _).
    unfold bind at 1, gets at 1. cbn [fst snd].
    unfold bind at 1. rewrite Htree, (getitem_Some _ _ _ _ Hb).
    case_decide as Hin; [by exists cpt, v, s|].
    unfold bind at 1, gets at 1. cbn [fst snd]. rewrite He.
    destruct (unused_edge_spec ns es used v bridge_node Hbe Hin) as [Hue Hun].
    set (v' := unused_edge ns es used v bridge_node) in *.
    apply IH; try done.
    + rewrite Forall_forall in Hends. by destruct (Hends _ Hue).
    + rewrite (walk_from_app _ _ _ _ Hw). simpl. by rewrite decide_True.
    + apply Forall_app. split; [done|]. by apply Forall_singleton.
    + apply union_least; [done|]. apply singleton_subseteq_l.
      by apply elem_of_list_to_set.
    + rewrite size_union by set_solver. rewrite size_singleton. lia.
Qed.

End tour.

(** ** More fuel changes no outcome *)

Lemma refines_refl {A} (m : M A) : refines m m.
Proof. by intros s o s'. Qed.

Lemma refines_bind {A B} (m m' : M A) (k k' : A → M B) :
  refines m m' → (∀ a, refines (k a) (k' a)) → refines (bind m k) (bind m' k').
Proof.
  intros Hm Hk s o s' Hrun Ho. unfold bind in *.
  destruct (m s) as [[a|e|] s1] eqn:Hms.
  - rewrite (Hm _ _ _ Hms) by done. by apply Hk.
  - rewrite (Hm _ _ _ Hms) by done. done.
  - by injection Hrun as <- _.
Qed.

Lemma refines_for_in {X} (l : list X) (body body' : X → M bool) :
  (∀ x, refines (body x) (body' x)) → refines (for_in l body) (for_in l body').
Proof.
  intros Hb. induction l as [|x l IH]; simpl; [apply refines_refl|].
  apply refines_bind; [apply Hb|]. intros [|]; [apply refines_refl | apply IH].
Qed.

Lemma refines_out_of_fuel {A} (m : M A) : refines out_of_fuel m.
Proof. intros s o s' [= <- _] Ho. done. Qed.

Lemma find_k_refines rc rt n fuel : ∀ fuel' u k flag,
  (fuel ≤ fuel')%nat →
  refines (find_k fuel rc rt n u k flag) (find_k fuel' rc rt n u k flag).
Proof.
  induction fuel as [|fuel IH]; intros fuel' u k flag Hle; [apply refines_out_of_fuel|].
  destruct fuel' as [|fuel']; [lia|]. simpl.
  do 3 (apply refines_bind; [apply refines_refl|intros ?]).
  case_decide; [apply refines_refl|]. apply IH. lia.
Qed.

Lemma cancel_k_refines rc rt n k fuel : ∀ fuel' u,
  (fuel ≤ fuel')%nat →
  refines (cancel_k fuel rc rt n u k) (cancel_k fuel' rc rt n u k).
Proof.
  induction fuel as [|fuel IH]; intros fuel' u Hle; [apply refines_out_of_fuel|].
  destruct fuel' as [|fuel']; [lia|]. simpl.
  do 4 (apply refines_bind; [apply refines_refl|intros ?]).
  case_decide; [apply refines_refl|]. apply IH. lia.
Qed.

Lemma improvements_refines fuel fuel' r :
  (fuel ≤ fuel')%nat → refines (_improvements fuel r) (_improvements fuel' r).
Proof.
  intros Hle. unfold _improvements.
  apply refines_bind; [apply refines_refl|intros ns].
  apply refines_for_in. intros n. unfold improve_at.
  destruct (bool_decide _); [|apply refines_refl].
  apply refines_bind; [by apply find_k_refines|intros k].
  apply refines_bind; [by apply cancel_k_refines|intros ?]. apply refines_refl.
Qed.

Lemma improve_loop_refines fuel fuel' a b n : ∀ n' r,
  (fuel ≤ fuel')%nat → (n ≤ n')%nat →
  refines (improve_loop fuel n a b r) (improve_loop fuel' n' a b r).
Proof.
  induction n as [|n IH]; intros n' r Hle Hn; [apply refines_out_of_fuel|].
  destruct n' as [|n']; [lia|]. simpl.
  apply refines_bind; [by apply improvements_refines|intros improved].
  destruct improved; [|apply refines_refl].
  apply refines_bind; [apply refines_refl|intros ?]. apply IH; lia.
Qed.

Lemma walk_path_refines v fuel : ∀ fuel' u cpt,
  (fuel ≤ fuel')%nat →
  refines (walk_path fuel u v cpt) (walk_path fuel' u v cpt).
Proof.
  induction fuel as [|fuel IH]; intros fuel' u cpt Hle.
  - destruct fuel'; simpl; case_decide; try apply refines_refl;
      apply refines_out_of_fuel.
  - destruct fuel' as [|fuel']; [lia|]. simpl.
    case_decide; [apply refines_refl|].
    do 2 (apply refines_bind; [apply refines_refl|intros ?]). apply IH. lia.
Qed.

Lemma tour_loop_refines bound bound' start fuel : ∀ fuel' v used cpt,
  (bound ≤ bound')%nat → (fuel ≤ fuel')%nat →
  refines (tour_loop bound fuel start v used cpt)
          (tour_loop bound' fuel' start v used cpt).
Proof.
  induction fuel as [|fuel IH]; intros fuel' v used cpt Hb Hle;
    [apply refines_out_of_fuel|].
  destruct fuel' as [|fuel']; [lia|]. simpl.
  do 2 (apply refines_bind; [apply refines_refl|intros ?]).
  destruct (_find_path _ _ _).
  - apply refines_bind; [|intros ?; apply IH; lia].
    unfold serve_path. apply refines_bind; [apply refines_refl|intros ?].
    by apply walk_path_refines.
  - do 2 (apply refines_bind; [apply refines_refl|intros ?]).
    case_decide; [apply refines_refl|].
    apply refines_bind; [apply refines_refl|intros ?]. apply IH; lia.
Qed.

Lemma compute_cpt_refines fuel fuel' start_node :
  (fuel ≤ fuel')%nat →
  refines (compute_cpt fuel start_node) (compute_cpt fuel' start_node).
Proof.
  intros Hle. unfold compute_cpt.
  apply refines_bind; [apply refines_refl|intros sc].
  destruct (negb sc); [apply refines_refl|].
  do 3 (apply refines_bind; [apply refines_refl|intros ?]).
  apply refines_bind; [by apply improve_loop_refines|intros ?].
  apply refines_bind; [by apply tour_loop_refines|intros ?].
  apply refines_refl.
Qed.

(** ** [compute_cpt] returns *)

Lemma sumZ_elem_le {A} (g : A → Z) (l : list A) x :
  (∀ y, y ∈ l → 0 ≤ g y) → x ∈ l → g x ≤ sumZ g l.
Proof.
  induction l as [|y l IH]; intros Hpos Hx; [by apply not_elem_of_nil in Hx|].
  assert (0 ≤ sumZ g l).
  { clear IH Hx. induction l as [|z l IH]; simpl; [done|].
    assert (0 ≤ g z) by (apply Hpos; right; by left).
    assert (0 ≤ sumZ g l); [|unfold sumZ in *; lia].
    apply IH. intros w Hw. apply Hpos. apply elem_of_cons in Hw as [->|Hw].
    - by left.
    - right. by right. }
  assert (0 ≤ g y) by (apply Hpos; by left).
  apply elem_of_cons in Hx as [->|Hx]; simpl.
  - unfold sumZ in *. lia.
  - assert (g x ≤ sumZ g l); [|unfold sumZ in *; lia].
    apply IH; [|done]. intros z Hz. apply Hpos. by right.
Qed.

Lemma routing_kept_preorder : PreOrder routing_kept.
Proof.
  split.
  - intros s. by repeat split.
  - intros s1 s2 s3 (H1 & H2 & H3) (H1' & H2' & H3').
    pose proof static_preorder. split; [by etrans|]. split; congruence.
Qed.

Lemma compute_cpt_returns_each ns es cf dc start_node :
  NoDup ns →
  Forall (λ e, 0 < dict_get cf e dc) es →
  Forall (λ e : edge, e.1 ∈ ns ∧ e.2 ∈ ns) es →
  (∀ u v, u ∈ ns → v ∈ ns → tc (edge_rel es) u v) →
  start_node ∈ ns →
  ∃ fuel0 : nat, ∀ fuel, (fuel0 ≤ fuel)%nat →
    ∃ cpt total v,
      compute_cpt fuel start_node (new_CPTDigraphManager ns es cf dc)
      = (Ret (cpt, total), new_CPTDigraphManager ns es cf dc)
      ∧ walk_from start_node cpt = Some v ∧ Forall (λ e, e ∈ es) cpt.
Proof.
  intros Hnd Hpos Hends Hjoin Hstart.
  set (s0 := new_CPTDigraphManager ns es cf dc).
  destruct (check_closure es s0 (new_closure_inv ns es cf dc))
    as (s1 & Hcheck & _ & (Hst1 & Hd1 & _ & _) & Hl).
  destruct (least_cost_paths_closure_least ns es cf dc
              (nonneg_closed_walks _ _ _ (positive_nonneg _ _ _ Hpos)) Hends)
    as (s1' & Hl' & Hleast).
  assert (s1' = s1) as -> by (fold s0 in Hl'; congruence).
  destruct Hst1 as (Hn1 & He1 & _ & _). simpl in Hn1, He1.
  assert (∀ u v, u ∈ ns → v ∈ ns → is_Some (cost s1 !! (u, v))) as Hall.
  { intros u v Hu Hv. destruct (tc_is_walk _ _ _ (Hjoin u v Hu Hv)) as (w & Hw).
    destruct (proj2 Hleast u v w Hw) as (c & Hc & _). eauto. }
  assert (all_pairs_in ns (cost s1) = true) as Hpairs by by apply all_pairs_in_true.
  simpl in Hcheck. rewrite Hpairs in Hcheck.
  destruct (residual_preconditions s1) as (dn & dp & s2 & Hsplit & Hff & Hdef & Hdisj).
  { by rewrite <- Hn1. }
  { by rewrite <- Hn1, <- He1. }
  { rewrite <- Hn1, <- He1, <- Hd1. apply Forall_forall. intros n Hn.
    unfold s0. rewrite new_delta_lookup, decide_True by done. done. }
  { by rewrite <- Hn1. }
  pose proof routing_kept_preorder as HP.
  assert (routing_kept s1 s2) as ((Hn2 & He2 & _ & _) & _ & Ht2).
  { eapply (respects_run routing_kept any_exn), Hff.
    apply find_feasible_respects; [done|by intros; repeat split..]. }
  destruct (residual_loop_spec _ [] ∅ s2 Hdef (product_disjoint _ _ Hdisj))
    as (res & rc & Hres & _).
  set (r := new_CPTDigraphManager (nodes s2) res rc (default_cost s2)).
  assert (_get_residual_diblob_manager_for_cpt dn dp s2 = (Ret r, s2)) as Hr.
  { unfold _get_residual_diblob_manager_for_cpt.
    by rewrite (bind_ret _ _ _ _ _ Hres). }
  set (B := sumZ (λ kv : edge * Z, kv.2) (map_to_list (cost s1))).
  exists (S (pending ns (feasible s2) + size (list_to_set es : gset edge)) + Z.to_nat B)%nat.
  intros fuel Hfuel.
  assert (_improvements fuel r s2 = (Ret false, s2)) as Himp.
  { apply (residual_never_improves fuel dn dp s2 r Hdef Hdisj). by rewrite Hr. }
  assert (improve_loop fuel fuel dn dp r s2 = (Ret tt, s2)) as Hloop.
  { destruct fuel as [|n]; [lia|]. simpl. by rewrite (bind_ret _ _ _ _ _ Himp). }
  destruct (tour_loop_run ns es cf dc s1 fuel start_node Hpos Hends Hleast Hall)
    with (fuel := fuel) (s := s2) (v := start_node) (used := (∅ : gset edge))
         (cpt := @nil edge)
    as (cpt & v & s3 & Htour & Hw & Hcpt); try done.
  { intros e c Hc.
    assert (c ≤ B); [|lia].
    apply (sumZ_elem_le (λ kv : edge * Z, kv.2) _ (e, c)).
    - intros [e' c'] Hin%elem_of_map_to_list. simpl.
      pose proof (closure_least_positive _ _ _ _ _ _ Hpos Hleast Hin). lia.
    - by apply elem_of_map_to_list. }
  { congruence. }
  { congruence. }
  { rewrite size_empty. lia. }
  destruct (compute_cpt fuel start_node s0) as [o s4] eqn:Hrun.
  assert (∃ total, o = Ret (cpt, total)) as [total ->].
  { unfold compute_cpt in Hrun.
    rewrite (bind_ret _ _ _ _ _ Hcheck) in Hrun. simpl in Hrun.
    rewrite (bind_ret _ _ _ _ _ Hsplit) in Hrun. simpl in Hrun.
    rewrite (bind_ret _ _ _ _ _ Hff) in Hrun.
    rewrite (bind_ret _ _ _ _ _ Hr) in Hrun.
    rewrite (bind_ret _ _ _ _ _ Hloop) in Hrun.
    unfold _get_cpt in Hrun.
    rewrite (bind_ret _ _ _ _ _ Htour) in Hrun.
    unfold bind, _get_cost, gets, _set_cost, _set_spanning_tree, _set_delta,
      _set_basic_cost, modify, ret in Hrun. simpl in Hrun.
    injection Hrun as <- _. eauto. }
  exists cpt, total, v. split; [|done].
  by rewrite (compute_cpt_Ret _ _ _ _ _ Hrun).
Qed.

(** X6.  On a freshly built instance with distinct nodes, edges between
    nodes of the instance, positive costs, and a non-empty path between
    every ordered pair of nodes, [compute_cpt] from a node of the graph
    returns once it is given enough fuel, and what it returns does not
    depend on the fuel: it raises nothing, puts the instance back in the
    state it started from, and the tour it returns is a walk that starts at
    the start node and takes edges of the graph only. *)
Theorem compute_cpt_returns ns es cf dc start_node :
  NoDup ns →
  Forall (λ e, 0 < dict_get cf e dc) es →
  Forall (λ e : edge, e.1 ∈ ns ∧ e.2 ∈ ns) es →
  (∀ u v, u ∈ ns → v ∈ ns → tc (edge_rel es) u v) →
  start_node ∈ ns →
  ∃ (fuel0 : nat) cpt total v,
    walk_from start_node cpt = Some v ∧ Forall (λ e, e ∈ es) cpt
    ∧ ∀ fuel, (fuel0 ≤ fuel)%nat →
        compute_cpt fuel start_node (new_CPTDigraphManager ns es cf dc)
        = (Ret (cpt, total), new_CPTDigraphManager ns es cf dc).
Proof.
  intros Hnd Hpos Hends Hjoin Hstart.
  destruct (compute_cpt_returns_each ns es cf dc start_node Hnd Hpos Hends Hjoin Hstart)
    as (fuel0 & Hret).
  destruct (Hret fuel0 (le_n _)) as (cpt & total & v & Hrun & Hw & Hall).
  exists fuel0, cpt, total, v. split; [done|]. split; [done|].
  intros fuel Hle. by apply (compute_cpt_refines fuel0 fuel _ Hle _ _ _ Hrun).
Qed.

(** ** The properties at the instances *)

Lemma check_true_joined ns es cf dc :
  (check_if_digraph_is_strongly_connected (new_CPTDigraphManager ns es cf dc)).1
    = Ret true →
  ∀ u v, u ∈ ns → v ∈ ns → tc (edge_rel es) u v.
Proof.
  intros Hc.
  destruct (check_closure es _ (new_closure_inv ns es cf dc))
    as (s1 & Hrun & [Hpath _] & _ & _).
  rewrite Hrun in Hc. injection Hc as Hall.
  intros u v Hu Hv. apply Hpath.
  by apply (proj1 (all_pairs_in_true ns (cost s1)) Hall).
Qed.

Lemma closed_walks_no_negative_cycle ns es cf dc :
  closed_walks_nonneg es cf dc →
  ¬ negative_cycle (new_CPTDigraphManager ns es cf dc).
Proof.
  intros Hnn (u & w & Hne & Hw & Hall & Hlt). simpl in Hall, Hlt.
  specialize (Hnn u w (conj Hne (conj Hw Hall))). lia.
Qed.

(** A potential on the nodes that no edge undercuts rules negative cycles
    out. *)
Lemma potential_closed_walks (es : list edge) cf dc (π : node → Z) :
  Forall (λ e, 0 ≤ dict_get cf e dc + π e.1 - π e.2) es →
  closed_walks_nonneg es cf dc.
Proof.
  intros Hpot. rewrite Forall_forall in Hpot.
  assert (∀ w u v, walk_from u w = Some v → Forall (λ e, e ∈ es) w →
                   π v - π u ≤ walk_cost cf dc w) as Hwalk.
  { induction w as [|[a b] w IH]; intros u v Hw Hall; simpl in Hw.
    - injection Hw as ->. simpl. lia.
    - case_decide; [subst a|done]. apply Forall_cons in Hall as [He Hall].
      specialize (IH _ _ Hw Hall). specialize (Hpot _ He). simpl in *. lia. }
  intros u w (_ & Hw & Hall). specialize (Hwalk _ _ _ Hw Hall). lia.
Qed.

Lemma discount_no_negative_cycle : ¬ negative_cycle discount.
Proof.
  apply closed_walks_no_negative_cycle.
  apply (potential_closed_walks _ _ _ (λ n, if decide (n = "b") then -1 else 0)).
  apply (bool_decide_unpack _); vm_compute; exact I.
Qed.

Lemma fan_no_negative_cycle : ¬ negative_cycle fan.
Proof.
  apply closed_walks_no_negative_cycle, nonneg_closed_walks.
  apply (bool_decide_unpack _); vm_compute; exact I.
Qed.

Lemma fan_joined u v :
  u ∈ nodes fan → v ∈ nodes fan → tc (edge_rel (edges fan)) u v.
Proof. apply (check_true_joined _ _ ∅ 1). vm_compute. reflexivity. Qed.

Lemma isolated_node_unjoined : ¬ tc (edge_rel []) "a" "a".
Proof.
  intros Ht. inversion Ht as [? ? Hy|? y ? Hy _]; unfold edge_rel in Hy;
    by apply elem_of_nil in Hy.
Qed.

Lemma least_cost_paths_least_witness :
  ∃ s', least_cost_paths discount = (Ret tt, s')
        ∧ ∀ i j,
            match cost s' !! (i, j) with
            | Some c => (∃ w, is_walk (edges discount) i w j
                              ∧ walk_cost {[ ("a","b") := -1 ]} 2 w = c)
                        ∧ ∀ w, is_walk (edges discount) i w j →
                               c ≤ walk_cost {[ ("a","b") := -1 ]} 2 w
            | None => ∀ w, ¬ is_walk (edges discount) i w j
            end.
Proof.
  apply (least_cost_paths_least (nodes discount) (edges discount)
           {[ ("a","b") := -1 ]} 2).
  - exact discount_no_negative_cycle.
  - apply (bool_decide_unpack _); vm_compute; exact I.
Defined.

Lemma check_if_digraph_is_strongly_connected_iff_witness :
  ∃ b, (check_if_digraph_is_strongly_connected discount).1 = Ret b
       ∧ (b = true ↔ ∀ u v, u ∈ ["a"; "b"] → v ∈ ["a"; "b"] →
                      tc (edge_rel [("a","b"); ("b","a")]) u v).
Proof.
  apply (check_if_digraph_is_strongly_connected_iff
           ["a"; "b"] [("a","b"); ("b","a")] {[ ("a","b") := -1 ]} 2).
  - exact discount_no_negative_cycle.
  - apply (bool_decide_unpack _); vm_compute; exact I.
Defined.

Lemma compute_cpt_rejects_unjoined_pair_witness :
  (compute_cpt 10 "a" (new_CPTDigraphManager ["a"] [] ∅ 1)).1
  = Raise NotSCGException.
Proof.
  apply (compute_cpt_rejects_unjoined_pair ["a"] [] ∅ 1 10 "a" "a" "a");
    [by left | by left | exact isolated_node_unjoined].
Defined.

Lemma walk_path_least_cost_witness :
  ∃ p, walk_path 2 "x" "b" [] (least_cost_paths fan).2
       = (Ret ([] ++ p), (least_cost_paths fan).2)
       ∧ is_walk (edges fan) "x" p "b" ∧ walk_cost ∅ 1 p = 2
       ∧ ∀ w, is_walk (edges fan) "x" w "b" → walk_cost ∅ 1 p ≤ walk_cost ∅ 1 w.
Proof.
  apply (walk_path_least_cost (nodes fan) (edges fan) ∅ 1 (least_cost_paths fan).2
           "x" "b" 2 [] 2).
  - apply (bool_decide_unpack _); vm_compute; exact I.
  - apply (bool_decide_unpack _); vm_compute; exact I.
  - reflexivity.
  - vm_compute. reflexivity.
  - done.
  - lia.
Defined.

Lemma compute_cpt_returns_witness :
  ∃ (fuel0 : nat) cpt total v,
    walk_from "a" cpt = Some v ∧ Forall (λ e, e ∈ edges fan) cpt
    ∧ ∀ fuel, (fuel0 ≤ fuel)%nat →
        compute_cpt fuel "a" fan = (Ret (cpt, total), fan).
Proof.
  apply (compute_cpt_returns (nodes fan) (edges fan) ∅ 1 "a").
  - apply (bool_decide_unpack _); vm_compute; exact I.
  - apply (bool_decide_unpack _); vm_compute; exact I.
  - apply (bool_decide_unpack _); vm_compute; exact I.
  - exact fan_joined.
  - apply (bool_decide_unpack _); vm_compute; exact I.
Defined.

(** ** Graphs whose nodes are all balanced *)

(** Along a walk, a node is left as often as it is entered, but for the two
    ends. *)
Lemma walk_balance w : ∀ a b x,
  walk_from a w = Some b →
  (length (out_edges x w) + (if decide (x = b) then 1 else 0)
   = length (in_edges x w) + (if decide (x = a) then 1 else 0))%nat.
Proof.
  induction w as [|[a' b'] w IH]; intros a b x Hw; simpl in Hw.
  - injection Hw as ->. done.
  - case_decide as Ha; [subst a'|done]. specialize (IH _ _ x Hw).
    unfold out_edges, in_edges in *. rewrite !filter_cons. simpl.
    repeat case_decide; simplify_eq/=; lia.
Qed.

Lemma filter_length_sub {A} (P : A → Prop) `{∀ x, Decision (P x)} (l k : list A) :
  NoDup l → (∀ e, e ∈ l → P e → e ∈ k) →
  (length (filter P l) ≤ length (filter P k))%nat.
Proof.
  intros Hnd Hsub. apply submseteq_length, NoDup_submseteq.
  - by apply NoDup_filter.
  - intros e [HP He]%list_elem_of_filter. apply list_elem_of_filter. auto.
Qed.

Lemma filter_full {A} (P : A → Prop) `{∀ x, Decision (P x)} (l k : list A) e :
  NoDup l → (∀ e, e ∈ l → P e → e ∈ k) →
  (length (filter P k) ≤ length (filter P l))%nat →
  e ∈ k → P e → e ∈ l.
Proof.
  intros Hnd Hsub Hlen He HP.
  assert (filter P l ≡ₚ filter P k) as Hperm.
  { apply submseteq_length_Permutation; [|done]. apply NoDup_submseteq.
    - by apply NoDup_filter.
    - intros e' [HP' He']%list_elem_of_filter. apply list_elem_of_filter. auto. }
  assert (e ∈ filter P l) as Hin.
  { rewrite Hperm. by apply list_elem_of_filter. }
  by apply list_elem_of_filter in Hin as [_ ?].
Qed.

Lemma find_path_empty ns frm : _find_path ns frm ∅ = None.
Proof.
  unfold _find_path. induction ns as [|n ns IH]; simpl; [done|].
  assert (dict_get (∅ : gmap edge Z) (frm, n) 0 = 0) as -> by done.
  rewrite bool_decide_eq_false_2 by lia. exact IH.
Qed.

Lemma unused_edge_cases ns es used u bridge_node :
  unused_edge ns es used u bridge_node ≠ bridge_node
  ∨ (unused_edge ns es used u bridge_node = bridge_node
     ∧ ∀ y, y ∈ ns → y ≠ bridge_node → (u, y) ∈ es → (u, y) ∈ used).
Proof.
  unfold unused_edge.
  destruct (List.find _ ns) as [n|] eqn:Hfind; simpl.
  - left. apply find_some in Hfind as [_ Hc].
    apply andb_true_iff in Hc as [[Hn _]%andb_true_iff _].
    by apply bool_decide_eq_true in Hn.
  - right. split; [done|]. intros y Hy Hne He.
    apply list_elem_of_In in Hy.
    pose proof (find_none _ _ Hfind y Hy) as Hc. simpl in Hc.
    rewrite (bool_decide_eq_true_2 _ Hne), (bool_decide_eq_true_2 _ He) in Hc.
    simpl in Hc. apply negb_false_iff, bool_decide_eq_true in Hc. done.
Qed.

Section euler.
Variables (ns : list node) (es : list edge) (cf : gmap edge Z) (dc : Z).
Variable t : CPTDigraphManager.
Variable start_node : node.
Hypothesis Hpos : Forall (λ e, 0 < dict_get cf e dc) es.
Hypothesis Hends : Forall (λ e : edge, e.1 ∈ ns ∧ e.2 ∈ ns) es.
Hypothesis Hleast : closure_least es cf dc t.
Hypothesis Hall : ∀ u v, u ∈ ns → v ∈ ns → is_Some (cost t !! (u, v)).
Hypothesis Hnd : NoDup es.
Hypothesis Hbal : Forall (λ n, imbalance es n = 0) ns.
Hypothesis Hstart : start_node ∈ ns.

Lemma balanced_degrees x :
  x ∈ ns → length (out_edges x es) = length (in_edges x es).
Proof.
  intros Hx. rewrite Forall_forall in Hbal. specialize (Hbal x Hx).
  unfold imbalance, outgoing_dim, incoming_dim in Hbal.
  unfold out_edges, in_edges. lia.
Qed.

Section final.
Variable cpt : list edge.
Hypothesis Hcnd : NoDup cpt.
Hypothesis Hsub : Forall (λ e, e ∈ es) cpt.
Hypothesis Hlast : bridge_last (spanning_tree t) start_node es cpt.

Lemma out_full_length x :
  (∀ y, (x, y) ∈ es → (x, y) ∈ cpt) →
  (length (out_edges x es) ≤ length (out_edges x cpt))%nat.
Proof.
  intros Hout. apply filter_length_sub; [done|].
  intros [a b] He Ha. simpl in Ha. subst a. by apply Hout.
Qed.

Lemma in_sub_length x :
  (length (in_edges x cpt) ≤ length (in_edges x es))%nat.
Proof.
  apply filter_length_sub; [done|]. rewrite Forall_forall in Hsub. auto.
Qed.

(** The extraction stops at the start node. *)
Lemma euler_closed u b :
  walk_from start_node cpt = Some u → u ∈ ns →
  spanning_tree t !! (u, start_node) = Some b → (u, b) ∈ cpt →
  u = start_node.
Proof.
  intros Hw Hu Hb Hin. destruct (decide (u = start_node)) as [|Hne]; [done|].
  pose proof (out_full_length u (Hlast u b Hb Hin)) as Hout.
  pose proof (in_sub_length u) as Hinl.
  pose proof (balanced_degrees u Hu) as Hdeg.
  pose proof (walk_balance cpt start_node u u Hw) as Hwb.
  rewrite decide_True in Hwb by done. rewrite decide_False in Hwb by done.
  lia.
Qed.

Hypothesis Hclosed : walk_from start_node cpt = Some start_node.

Lemma euler_in_full p :
  p ∈ ns → (∀ y, (p, y) ∈ es → (p, y) ∈ cpt) →
  ∀ x, (x, p) ∈ es → (x, p) ∈ cpt.
Proof.
  intros Hp Hout x He.
  pose proof (out_full_length p Hout) as Hlen.
  pose proof (balanced_degrees p Hp) as Hdeg.
  pose proof (walk_balance cpt start_node start_node p Hclosed) as Hwb.
  apply (filter_full (λ e : edge, e.2 = p) cpt es (x, p)); try done.
  - rewrite Forall_forall in Hsub. auto.
  - unfold out_edges, in_edges in *. lia.
Qed.

Lemma euler_out_full b0 n : ∀ x c,
  spanning_tree t !! (start_node, start_node) = Some b0 →
  (start_node, b0) ∈ cpt →
  cost t !! (x, start_node) = Some c → c ≤ Z.of_nat n → x ∈ ns →
  ∀ y, (x, y) ∈ es → (x, y) ∈ cpt.
Proof.
  induction n as [|n IH]; intros x c Hb0 Hin0 Hc Hn Hx.
  { pose proof (closure_least_positive _ _ _ _ _ _ Hpos Hleast Hc). lia. }
  destruct (hop_step es cf dc t x start_node c (positive_nonneg _ _ _ Hpos) Hleast Hc)
    as (p & Hp & He & Hrest).
  apply (Hlast x p Hp).
  assert (0 < dict_get cf (x, p) dc) as Hxp.
  { rewrite Forall_forall in Hpos. by apply Hpos. }
  assert (p ∈ ns) as Hpn.
  { rewrite Forall_forall in Hends. by destruct (Hends _ He). }
  apply euler_in_full; [done| |done].
  case_decide as Hps.
  - subst p. by apply (Hlast start_node b0 Hb0 Hin0).
  - apply (IH p _ Hb0 Hin0 Hrest); [lia|done].
Qed.

End final.

Variable s : CPTDigraphManager.
Variable bound : nat.
Hypothesis Hf : feasible s = ∅.
Hypothesis Hn : nodes s = ns.
Hypothesis He : edges s = es.
Hypothesis Htree : spanning_tree s = spanning_tree t.

Lemma tour_loop_euler fuel : ∀ v used cpt,
  v ∈ ns → walk_from start_node cpt = Some v → NoDup cpt →
  Forall (λ e, e ∈ es) cpt → (∀ e, e ∈ used ↔ e ∈ cpt) →
  bridge_last (spanning_tree t) start_node es cpt →
  (size (list_to_set es : gset edge) < fuel + size used)%nat →
  ∃ cpt' u b, tour_loop bound fuel start_node v used cpt s = (Ret cpt', s)
    ∧ walk_from start_node cpt' = Some u ∧ u ∈ ns ∧ NoDup cpt'
    ∧ Forall (λ e, e ∈ es) cpt'
    ∧ bridge_last (spanning_tree t) start_node es cpt'
    ∧ spanning_tree t !! (u, start_node) = Some b ∧ (u, b) ∈ cpt'.
Proof.
  induction fuel as [|fuel IH]; intros v used cpt Hv Hw Hcnd Hsub Hused Hlast Hm.
  { assert (used ⊆ list_to_set es) as Hle.
    { intros e Hin. apply elem_of_list_to_set. rewrite Forall_forall in Hsub.
      by apply Hsub, Hused. }
    pose proof (subseteq_size _ _ Hle). lia. }
  cbn [tour_loop]. unfold bind at 1, gets at 1. cbn [fst snd].
  unfold bind at 1, gets at 1. cbn [fst snd]. rewrite Hn, Hf, find_path_empty.
  destruct (Hall v start_node Hv Hstart) as [c Hc].
  destruct (hop_step es cf dc t v start_node c (positive_nonneg _ _ _ Hpos) Hleast Hc)
    as (bridge_node & Hb & Hbe & _).
  unfold bind at 1, gets at 1. cbn [fst snd].
  unfold bind at 1. rewrite Htree, (getitem_Some _ _ _ _ Hb).
  case_decide as Hin.
  { exists cpt, v, bridge_node. do 6 (split; [done|]). split; [done|]. by apply Hused. }
  unfold bind at 1, gets at 1. cbn [fst snd]. rewrite He.
  destruct (unused_edge_spec ns es used v bridge_node Hbe Hin) as [Hue Hun].
  pose proof (unused_edge_cases ns es used v bridge_node) as Hcases.
  set (v' := unused_edge ns es used v bridge_node) in *.
  assert ((v, v') ∉ cpt) as Hnew by (by rewrite <- Hused).
  apply IH.
  - rewrite Forall_forall in Hends. by destruct (Hends _ Hue).
  - rewrite (walk_from_app _ _ _ _ Hw). simpl. by rewrite decide_True.
  - apply NoDup_app. split; [done|]. split; [|apply NoDup_singleton].
    intros e He1 ->%list_elem_of_singleton. done.
  - apply Forall_app. split; [done|]. by apply Forall_singleton.
  - intros e. rewrite elem_of_union, elem_of_singleton, elem_of_app,
      list_elem_of_singleton. specialize (Hused e). tauto.
  - intros x b Hxb Hxin y Hy. apply elem_of_app.
    apply elem_of_app in Hxin as [Hxin|Hxin%list_elem_of_singleton].
    + left. by apply (Hlast x b).
    + injection Hxin as -> ->. assert (v' = bridge_node) as Hvb by congruence.
      destruct Hcases as [?|[_ Hrest]]; [done|].
      destruct (decide (y = bridge_node)) as [->|Hyb].
      * right. rewrite Hvb. by apply list_elem_of_singleton.
      * left. apply Hused, Hrest; [|done..].
        rewrite Forall_forall in Hends. by destruct (Hends _ Hy).
  - rewrite size_union by (by apply disjoint_singleton_r).
    rewrite size_singleton. lia.
Qed.

End euler.

Lemma foldl_sumZ {A} (g : A → Z) (l : list A) (init : Z) :
  foldl (λ acc x, acc + g x) init l = init + sumZ g l.
Proof.
  revert init. induction l as [|x l IH]; intros init; simpl; [lia|].
  rewrite IH. unfold sumZ. lia.
Qed.

Lemma sumZ_Permutation {A} (g : A → Z) (l k : list A) :
  l ≡ₚ k → sumZ g l = sumZ g k.
Proof.
  induction 1 as [|x l k _ IH|x y l|l k m _ IH1 _ IH2]; simpl; unfold sumZ in *;
    simpl; lia.
Qed.

Lemma get_cost_empty s :
  feasible s = ∅ → _get_cost s = (Ret (basic_cost s), s).
Proof.
  intros Hf. unfold _get_cost, gets. f_equal. f_equal. rewrite Hf.
  rewrite (foldl_sumZ (λ th, dict_get (cost s) th 0 * - dict_get (∅ : gmap edge Z) th 0)).
  rewrite sumZ_zero; [lia|]. intros th _.
  assert (dict_get (∅ : gmap edge Z) th 0 = 0) as -> by done. lia.
Qed.

Lemma compute_cpt_eulerian_each ns es cf dc start_node :
  NoDup ns → NoDup es →
  Forall (λ e, 0 < dict_get cf e dc) es →
  Forall (λ e : edge, e.1 ∈ ns ∧ e.2 ∈ ns) es →
  (∀ u v, u ∈ ns → v ∈ ns → tc (edge_rel es) u v) →
  Forall (λ n, imbalance es n = 0) ns →
  start_node ∈ ns →
  ∃ fuel0 : nat, ∀ fuel, (fuel0 ≤ fuel)%nat →
    ∃ cpt,
      compute_cpt fuel start_node (new_CPTDigraphManager ns es cf dc)
      = (Ret (cpt, walk_cost cf dc cpt), new_CPTDigraphManager ns es cf dc)
      ∧ closed_walk start_node cpt ∧ cpt ≡ₚ es.
Proof.
  intros Hnd Hnde Hpos Hends Hjoin Hbal Hstart.
  set (s0 := new_CPTDigraphManager ns es cf dc).
  destruct (check_closure es s0 (new_closure_inv ns es cf dc))
    as (s1 & Hcheck & _ & (Hst1 & Hd1 & Hb1 & Hf1) & Hl).
  destruct (least_cost_paths_closure_least ns es cf dc
              (nonneg_closed_walks _ _ _ (positive_nonneg _ _ _ Hpos)) Hends)
    as (s1' & Hl' & Hleast).
  assert (s1' = s1) as -> by (fold s0 in Hl'; congruence).
  destruct Hst1 as (Hn1 & He1 & Hcf1 & Hdc1). simpl in Hn1, He1, Hcf1, Hdc1.
  assert (∀ u v, u ∈ ns → v ∈ ns → is_Some (cost s1 !! (u, v))) as Hall.
  { intros u v Hu Hv. destruct (tc_is_walk _ _ _ (Hjoin u v Hu Hv)) as (w & Hw).
    destruct (proj2 Hleast u v w Hw) as (c & Hc & _). eauto. }
  assert (all_pairs_in ns (cost s1) = true) as Hpairs by by apply all_pairs_in_true.
  simpl in Hcheck. rewrite Hpairs in Hcheck.
  destruct (find_feasible_core s1) as (dn & dp & s2 & Hsplit & Hff & Hdn & Hdp & _).
  { by rewrite <- Hn1. }
  { by rewrite <- Hn1, <- He1. }
  { rewrite <- Hn1, <- He1, <- Hd1. apply Forall_forall. intros n Hn.
    unfold s0. rewrite new_delta_lookup, decide_True by done. done. }
  rewrite Forall_forall in Hbal.
  assert (dn = []) as ->.
  { apply elem_of_nil_inv. intros n [Hn Hlt]%Hdn.
    rewrite <- Hn1 in Hn. rewrite <- He1 in Hlt. specialize (Hbal n Hn). lia. }
  assert (s2 = s1) as ->.
  { unfold _find_feasible in Hff. simpl in Hff. unfold bind, ret in Hff.
    by injection Hff. }
  set (r := new_CPTDigraphManager (nodes s1) [] ∅ (default_cost s1)).
  assert (_get_residual_diblob_manager_for_cpt [] dp s1 = (Ret r, s1)) as Hr by done.
  exists (S (size (list_to_set es : gset edge))). intros fuel Hfuel.
  assert (_improvements fuel r s1 = (Ret false, s1)) as Himp.
  { apply improvements_none. apply Forall_forall. intros m _.
    unfold r, dict_get. rewrite new_cost_lookup, decide_False by apply not_elem_of_nil.
    simpl. lia. }
  assert (improve_loop fuel fuel [] dp r s1 = (Ret tt, s1)) as Hloop.
  { destruct fuel as [|n]; [lia|]. simpl. by rewrite (bind_ret _ _ _ _ _ Himp). }
  assert (feasible s1 = ∅) as Hfe by (by rewrite <- Hf1).
  assert (Forall (λ n, imbalance es n = 0) ns) as HBAL by (by apply Forall_forall).
  destruct (tour_loop_euler ns es cf dc s1 start_node) with (s := s1) (bound := fuel)
      (fuel := fuel) (v := start_node) (used := (∅ : gset edge)) (cpt := @nil edge)
    as (cpt & u & b & Htour & Hw & Hu & Hcnd & Hsub & Hlast & Hb & Hin); try done.
  { apply NoDup_nil_2. }
  { intros e. rewrite elem_of_empty, elem_of_nil. done. }
  { intros x b _ Hin. by apply not_elem_of_nil in Hin. }
  { rewrite size_empty. lia. }
  assert (u = start_node) as ->.
  { by apply (euler_closed ns es s1 start_node) with (cpt := cpt) (b := b). }
  assert (cpt ≡ₚ es) as Hperm.
  { apply NoDup_Permutation; [done..|]. intros [x y]. split.
    - rewrite Forall_forall in Hsub. apply Hsub.
    - intros Hxy.
      assert (x ∈ ns) as Hx.
      { rewrite Forall_forall in Hends. by destruct (Hends _ Hxy). }
      destruct (Hall x start_node Hx Hstart) as [c Hc].
      apply (euler_out_full ns es cf dc s1 start_node) with (b0 := b)
        (n := Z.to_nat c) (c := c); try done. lia. }
  exists cpt. split; [|done].
  destruct (compute_cpt fuel start_node s0) as [o s4] eqn:Hrun.
  assert (o = Ret (cpt, walk_cost cf dc cpt)) as ->.
  { unfold compute_cpt in Hrun.
    rewrite (bind_ret _ _ _ _ _ Hcheck) in Hrun. simpl in Hrun.
    rewrite (bind_ret _ _ _ _ _ Hsplit) in Hrun. simpl in Hrun.
    rewrite (bind_ret _ _ _ _ _ Hff) in Hrun.
    rewrite (bind_ret _ _ _ _ _ Hr) in Hrun.
    rewrite (bind_ret _ _ _ _ _ Hloop) in Hrun.
    unfold _get_cpt in Hrun.
    rewrite (bind_ret _ _ _ _ _ Htour) in Hrun.
    rewrite (bind_ret _ _ _ _ _ (get_cost_empty s1 Hfe)) in Hrun.
    unfold bind, _set_cost, _set_spanning_tree, _set_delta,
      _set_basic_cost, modify, ret in Hrun. simpl in Hrun.
    injection Hrun as <- _. do 2 f_equal.
    rewrite <- Hb1. unfold s0, new_CPTDigraphManager. simpl.
    rewrite (foldl_sumZ (λ e, dict_get cf e dc)).
    rewrite <- (sumZ_Permutation _ _ _ Hperm). unfold walk_cost, sumZ. lia. }
  by rewrite (compute_cpt_Ret _ _ _ _ _ Hrun).
Qed.

(** X7.  On a freshly built instance whose nodes are all balanced (as many
    edges in as out), with distinct nodes, no edge twice, edges between
    nodes of the instance, positive costs and a non-empty path between
    every ordered pair of nodes, [compute_cpt] from a node of the graph
    returns, once it is given enough fuel and whatever the fuel then, a
    tour that is closed at the start node and takes every edge of the graph
    exactly once, together with the cost of that tour, and it puts the
    instance back in the state it started from. *)
Theorem compute_cpt_eulerian ns es cf dc start_node :
  NoDup ns → NoDup es →
  Forall (λ e, 0 < dict_get cf e dc) es →
  Forall (λ e : edge, e.1 ∈ ns ∧ e.2 ∈ ns) es →
  (∀ u v, u ∈ ns → v ∈ ns → tc (edge_rel es) u v) →
  Forall (λ n, imbalance es n = 0) ns →
  start_node ∈ ns →
  ∃ (fuel0 : nat) cpt,
    closed_walk start_node cpt ∧ cpt ≡ₚ es
    ∧ ∀ fuel, (fuel0 ≤ fuel)%nat →
        compute_cpt fuel start_node (new_CPTDigraphManager ns es cf dc)
        = (Ret (cpt, walk_cost cf dc cpt), new_CPTDigraphManager ns es cf dc).
Proof.
  intros Hnd Hnde Hpos Hends Hjoin Hbal Hstart.
  destruct (compute_cpt_eulerian_each ns es cf dc start_node
              Hnd Hnde Hpos Hends Hjoin Hbal Hstart) as (fuel0 & Hret).
  destruct (Hret fuel0 (le_n _)) as (cpt & Hrun & Hw & Hperm).
  exists fuel0, cpt. split; [done|]. split; [done|].
  intros fuel Hle. by apply (compute_cpt_refines fuel0 fuel _ Hle _ _ _ Hrun).
Qed.

Lemma eight_joined u v :
  u ∈ ["a"; "b"; "c"] → v ∈ ["a"; "b"; "c"] →
  tc (edge_rel [("a","b"); ("b","a"); ("a","c"); ("c","a")]) u v.
Proof. apply (check_true_joined _ _ ∅ 1). vm_compute. reflexivity. Qed.

Lemma compute_cpt_eulerian_witness :
  ∃ (fuel0 : nat) cpt,
    closed_walk "a" cpt
    ∧ cpt ≡ₚ [("a","b"); ("b","a"); ("a","c"); ("c","a")]
    ∧ ∀ fuel, (fuel0 ≤ fuel)%nat →
        compute_cpt fuel "a"
          (new_CPTDigraphManager ["a"; "b"; "c"]
             [("a","b"); ("b","a"); ("a","c"); ("c","a")] ∅ 1)
        = (Ret (cpt, walk_cost ∅ 1 cpt),
           new_CPTDigraphManager ["a"; "b"; "c"]
             [("a","b"); ("b","a"); ("a","c"); ("c","a")] ∅ 1).
Proof.
  apply (compute_cpt_eulerian ["a"; "b"; "c"]
           [("a","b"); ("b","a"); ("a","c"); ("c","a")] ∅ 1 "a").
  - apply (bool_decide_unpack _); vm_compute; exact I.
  - apply (bool_decide_unpack _); vm_compute; exact I.
  - apply (bool_decide_unpack _); vm_compute; exact I.
  - apply (bool_decide_unpack _); vm_compute; exact I.
  - exact eight_joined.
  - apply (bool_decide_unpack _); vm_compute; exact I.
  - apply (bool_decide_unpack _); vm_compute; exact I.
Defined.

(** ** A computation reads the cost function only when it resets *)

Lemma ignores_ret {A} (a : A) : ignores_cost_function (ret a).
Proof. by intros cf s. Qed.

Lemma ignores_raise {A} e : ignores_cost_function (raise (A := A) e).
Proof. by intros cf s. Qed.

Lemma ignores_out_of_fuel {A} : ignores_cost_function (out_of_fuel (A := A)).
Proof. by intros cf s. Qed.

Lemma ignores_gets {A} (f : CPTDigraphManager → A) :
  (∀ cf s, f (with_cost_function cf s) = f s) → ignores_cost_function (gets f).
Proof. intros Hf cf s. unfold gets. simpl. by rewrite Hf. Qed.

Lemma ignores_modify f :
  (∀ cf s, f (with_cost_function cf s) = with_cost_function cf (f s)) →
  ignores_cost_function (modify f).
Proof. intros Hf cf s. unfold modify. simpl. by rewrite Hf. Qed.

Lemma ignores_getitem {K V} `{Countable K} (d : gmap K V) k :
  ignores_cost_function (getitem d k).
Proof. intros cf s. unfold getitem. by destruct (d !! k). Qed.

Lemma ignores_bind {A B} (m : M A) (k : A → M B) :
  ignores_cost_function m → (∀ a, ignores_cost_function (k a)) →
  ignores_cost_function (bind m k).
Proof.
  intros Hm Hk cf s. unfold bind. rewrite Hm.
  destruct (m s) as [[a|e|] s1]; simpl; [apply Hk|done..].
Qed.

Lemma ignores_for_in {X} (l : list X) (body : X → M bool) :
  (∀ x, ignores_cost_function (body x)) → ignores_cost_function (for_in l body).
Proof.
  intros Hb. induction l as [|x l IH]; simpl.
  - apply ignores_ret.
  - apply ignores_bind; [apply Hb|]. intros [|]; [apply ignores_ret | apply IH].
Qed.

Ltac ignores_step :=
  first
    [ apply ignores_ret | apply ignores_raise | apply ignores_out_of_fuel
    | apply ignores_gets; intros; reflexivity
    | apply ignores_getitem
    | apply ignores_modify; intros; reflexivity
    | apply ignores_bind; [|intros ?]
    | apply ignores_for_in; intros ?
    | match goal with
      | |- ignores_cost_function (if decide _ then _ else _) => case_decide
      end
    | match goal with
      | |- ignores_cost_function (if ?b then _ else _) => destruct b
      end
    | match goal with
      | |- ignores_cost_function (match ?o with _ => _ end) => destruct o
      end ].

Lemma least_cost_paths_ignores : ignores_cost_function least_cost_paths.
Proof.
  unfold least_cost_paths, least_cost_paths_run, relax_row, relax.
  repeat ignores_step.
Qed.

Lemma check_ignores : ignores_cost_function check_if_digraph_is_strongly_connected.
Proof.
  unfold check_if_digraph_is_strongly_connected.
  apply ignores_bind; [apply least_cost_paths_ignores|intros ?].
  repeat ignores_step.
Qed.

Lemma split_loop_ignores ns : ∀ a b, ignores_cost_function (split_loop ns a b).
Proof.
  induction ns as [|n ns IH]; intros a b; simpl; [apply ignores_ret|].
  do 2 (apply ignores_bind; [ignores_step|intros ?]).
  repeat first [apply IH | ignores_step].
Qed.

Lemma residual_loop_ignores ps : ∀ es rc, ignores_cost_function (residual_loop ps es rc).
Proof.
  induction ps as [|[n p] ps IH]; intros es rc; simpl; [apply ignores_ret|].
  do 4 (apply ignores_bind; [ignores_step|intros ?]).
  case_decide; [|apply IH].
  apply ignores_bind; [ignores_step|intros ?]. apply IH.
Qed.

Lemma residual_ignores a b :
  ignores_cost_function (_get_residual_diblob_manager_for_cpt a b).
Proof.
  unfold _get_residual_diblob_manager_for_cpt.
  apply ignores_bind; [apply residual_loop_ignores|intros ?].
  repeat ignores_step.
Qed.

Lemma find_k_ignores fuel rc rt n : ∀ u k flag,
  ignores_cost_function (find_k fuel rc rt n u k flag).
Proof.
  induction fuel as [|fuel IH]; intros u k flag; simpl; [apply ignores_out_of_fuel|].
  do 3 (apply ignores_bind; [ignores_step|intros ?]).
  case_decide; [apply ignores_ret | apply IH].
Qed.

Lemma cancel_k_ignores fuel rc rt n k : ∀ u,
  ignores_cost_function (cancel_k fuel rc rt n u k).
Proof.
  induction fuel as [|fuel IH]; intros u; simpl; [apply ignores_out_of_fuel|].
  do 3 (apply ignores_bind; [ignores_step|intros ?]).
  apply ignores_bind; [repeat ignores_step|intros ?].
  case_decide; [apply ignores_ret | apply IH].
Qed.

Lemma improvements_ignores fuel r : ignores_cost_function (_improvements fuel r).
Proof.
  unfold _improvements. apply ignores_bind; [ignores_step|intros ns].
  apply ignores_for_in. intros n. unfold improve_at.
  destruct (bool_decide _); [|apply ignores_ret].
  apply ignores_bind; [apply find_k_ignores|intros k].
  apply ignores_bind; [apply cancel_k_ignores|intros ?]. apply ignores_ret.
Qed.

Lemma improve_loop_ignores fuel n a b : ∀ r,
  ignores_cost_function (improve_loop fuel n a b r).
Proof.
  induction n as [|n IH]; intros r; simpl; [apply ignores_out_of_fuel|].
  apply ignores_bind; [apply improvements_ignores|intros improved].
  destruct improved; [|apply ignores_ret].
  apply ignores_bind; [apply residual_ignores|intros ?]. apply IH.
Qed.

Lemma walk_path_ignores fuel v : ∀ u cpt,
  ignores_cost_function (walk_path fuel u v cpt).
Proof.
  induction fuel as [|fuel IH]; intros u cpt; simpl.
  - case_decide; [apply ignores_ret | apply ignores_out_of_fuel].
  - case_decide; [apply ignores_ret|].
    do 2 (apply ignores_bind; [ignores_step|intros ?]). apply IH.
Qed.

Lemma tour_loop_ignores bound fuel start : ∀ v used cpt,
  ignores_cost_function (tour_loop bound fuel start v used cpt).
Proof.
  induction fuel as [|fuel IH]; intros v used cpt; simpl; [apply ignores_out_of_fuel|].
  do 2 (apply ignores_bind; [ignores_step|intros ?]).
  destruct (_find_path _ _ _).
  - apply ignores_bind; [|intros ?; apply IH].
    unfold serve_path. apply ignores_bind; [ignores_step|intros ?].
    apply walk_path_ignores.
  - do 2 (apply ignores_bind; [ignores_step|intros ?]).
    case_decide; [apply ignores_ret|].
    apply ignores_bind; [ignores_step|intros ?]. apply IH.
Qed.

Lemma tour_and_cost_ignores fuel start :
  ignores_cost_function (tour_and_cost fuel start).
Proof.
  unfold tour_and_cost.
  apply ignores_bind; [apply check_ignores|intros sc].
  destruct (negb sc); [apply ignores_raise|].
  apply ignores_bind; [|intros dd].
  { unfold _split_nodes_based_on_delta.
    apply ignores_bind; [ignores_step|intros ?]. apply split_loop_ignores. }
  apply ignores_bind; [|intros ?].
  { unfold _find_feasible, feasible_step. repeat ignores_step. }
  apply ignores_bind; [apply residual_ignores|intros r].
  apply ignores_bind; [apply improve_loop_ignores|intros ?].
  apply ignores_bind; [apply tour_loop_ignores|intros cpt].
  apply ignores_bind; [|intros ?; apply ignores_ret].
  unfold _get_cost. ignores_step.
Qed.

Lemma bind_outcome_ext {A B} (m : M A) (k k' : A → M B) s :
  (∀ a s1, (k a s1).1 = (k' a s1).1) → (bind m k s).1 = (bind m k' s).1.
Proof. intros Hk. unfold bind. destruct (m s) as [[a|e|] s1]; simpl; auto. Qed.

Lemma compute_cpt_outcome fuel start s :
  (compute_cpt fuel start s).1 = (tour_and_cost fuel start s).1.
Proof.
  unfold compute_cpt, tour_and_cost.
  apply bind_outcome_ext. intros sc s1. destruct (negb sc); [done|].
  do 6 (apply bind_outcome_ext; intros ? ?). done.
Qed.

(** X8.  [update_cost_function] changes what no CPT computation reads before
    its reset: on any instance, [compute_cpt] called straight after an
    update of the cost function has the very outcome it has without the
    update (the same tour and total, or the same failure); when it returns,
    the reset leaves the instance as the constructor builds it for the
    updated cost function, so only later calls see the new costs. *)
Theorem compute_cpt_ignores_update_cost_function cf fuel start_node s :
  (compute_cpt fuel start_node (update_cost_function cf s).2).1
  = (compute_cpt fuel start_node s).1
  ∧ ∀ r, (compute_cpt fuel start_node s).1 = Ret r →
      (compute_cpt fuel start_node (update_cost_function cf s).2).2
      = new_CPTDigraphManager (nodes s) (edges s) (cf ∪ cost_function s)
          (default_cost s).
Proof.
  assert ((compute_cpt fuel start_node (update_cost_function cf s).2).1
          = (compute_cpt fuel start_node s).1) as Hsame.
  { rewrite !compute_cpt_outcome. unfold update_cost_function, modify. simpl.
    by rewrite tour_and_cost_ignores. }
  split; [done|]. intros r Hr. rewrite <- Hsame in Hr. clear Hsame.
  destruct (compute_cpt fuel start_node (update_cost_function cf s).2)
    as [o s'] eqn:Hrun.
  simpl in Hr. subst o. by rewrite (compute_cpt_Ret _ _ _ _ _ Hrun).
Qed.

(** ** A start node that is not in the graph *)

Lemma for_in_invariant {X} (I : CPTDigraphManager → Prop) (l : list X)
    (body : X → M bool) :
  (∀ x s, I s → ∃ b s', body x s = (Ret b, s') ∧ I s') →
  ∀ s, I s → ∃ b s', for_in l body s = (Ret b, s') ∧ I s'.
Proof.
  intros Hbody. induction l as [|x l IH]; intros s Hs; simpl.
  - by exists false, s.
  - destruct (Hbody x s Hs) as (b & s1 & Hrun & Hs1).
    rewrite (bind_ret _ _ _ _ _ Hrun). destruct b; [by exists true, s1|]. by apply IH.
Qed.

Lemma relax_keys es cf dc k i j s :
  closure_sound es cf dc s ∧ tree_keys s ∧ is_Some (cost s !! (i, k)) →
  ∃ b s', relax k i j s = (Ret b, s')
          ∧ closure_sound es cf dc s' ∧ tree_keys s' ∧ is_Some (cost s' !! (i, k)).
Proof.
  intros (Hs & Hk & [a Ha]).
  destruct (relax_sound es cf dc k i j s a Hs Ha)
    as (b & s' & Hrun & Hs' & Hd & _).
  exists b, s'. split; [done|]. split; [done|]. split.
  - destruct (Hs _ _ _ Ha) as (hop & w & Hhop & _).
    rewrite (relax_run _ _ _ _ _ _ Ha Hhop) in Hrun.
    destruct (cost s !! (k, j)) as [c|]; [|by injection Hrun as _ <-].
    destruct (match cost s !! (i, j) with
              | Some c0 => bool_decide (c0 > a + c) | None => true end);
      [|by injection Hrun as _ <-].
    injection Hrun as _ <-. intros e. simpl.
    destruct (decide ((i, j) = e)) as [<-|Hne].
    + rewrite !lookup_insert_eq. eauto.
    + rewrite !lookup_insert_ne by done. apply Hk.
  - destruct (Hd _ _ Ha) as (a' & Ha' & _). eauto.
Qed.

Lemma relax_row_keys es cf dc ki s :
  closure_sound es cf dc s ∧ tree_keys s →
  ∃ b s', relax_row ki s = (Ret b, s') ∧ closure_sound es cf dc s' ∧ tree_keys s'.
Proof.
  intros [Hs Hk]. unfold relax_row, bind, gets. simpl.
  destruct (dict_in (cost s) (ki.2, ki.1)) eqn:Hik; [|by exists false, s].
  apply dict_in_true in Hik.
  destruct (for_in_invariant
              (λ s, closure_sound es cf dc s ∧ tree_keys s
                    ∧ is_Some (cost s !! (ki.2, ki.1)))
              (nodes s) (relax ki.1 ki.2)) with (s := s)
    as (b & s' & Hrun & Hs' & Hk' & _); [|done|].
  - intros j s1. apply relax_keys.
  - exists b, s'. by rewrite Hrun.
Qed.

Lemma least_cost_paths_tree_keys ns es cf dc :
  tree_keys (least_cost_paths (new_CPTDigraphManager ns es cf dc)).2.
Proof.
  set (s0 := new_CPTDigraphManager ns es cf dc).
  destruct (for_in_invariant (λ s, closure_sound es cf dc s ∧ tree_keys s)
              (product ns ns) relax_row) with (s := s0)
    as (b & s' & Hrun & _ & Hk).
  - intros ki s. apply relax_row_keys.
  - split; [apply new_closure_sound|]. intros e.
    unfold s0. rewrite new_cost_lookup, new_spanning_tree_lookup.
    case_decide; [eauto|by intros [? ?]].
  - unfold least_cost_paths, least_cost_paths_run, bind, gets. simpl.
    fold s0. by rewrite Hrun.
Qed.

Lemma find_path_None ns frm f :
  (∀ n, n ∈ ns → dict_get f (frm, n) 0 ≤ 0) → _find_path ns frm f = None.
Proof.
  unfold _find_path. induction ns as [|n ns IH]; intros Hno; simpl; [done|].
  rewrite bool_decide_eq_false_2.
  - apply IH. intros m Hm. apply Hno. by right.
  - assert (dict_get f (frm, n) 0 ≤ 0) by (apply Hno; by left). lia.
Qed.

(** The loop of [_find_feasible] writes the entries of its pairs only. *)
Lemma feasible_step_frame e np :
  e ≠ np →
  respects (λ s s', feasible s !! e = feasible s' !! e) any_exn (feasible_step np).
Proof.
  intros Hne.
  set (R := λ s s' : CPTDigraphManager, feasible s !! e = feasible s' !! e).
  assert (PreOrder R) as HP.
  { split; [by intros ?|]. intros ? ? ? ? ?. unfold R in *. congruence. }
  unfold feasible_step.
  repeat first
    [ apply (respects_ret R any_exn) | apply (respects_gets R any_exn)
    | apply (respects_getitem R any_exn); [done]
    | apply (respects_modify R any_exn); intros ?; unfold R; simpl;
      first [reflexivity | by rewrite lookup_insert_ne]
    | apply (respects_bind R any_exn); [|intros ?] ].
Qed.

Lemma find_feasible_frame e dn dp s :
  e ∉ product dn dp →
  feasible (_find_feasible dn dp s).2 !! e = feasible s !! e.
Proof.
  intros He. unfold _find_feasible.
  assert (∀ o s1, for_in (product dn dp) feasible_step s = (o, s1) →
                  feasible s1 !! e = feasible s !! e) as Hloop.
  { revert s. induction (product dn dp) as [|np ps IH]; intros s o s1 Hrun; simpl in Hrun.
    - unfold ret in Hrun. by injection Hrun as _ <-.
    - apply not_elem_of_cons in He as [Hne He].
      pose proof (feasible_step_frame e np Hne s) as [Hstep _].
      unfold bind in Hrun. destruct (feasible_step np s) as [[[|]|ex|] s2]; simpl in *.
      + unfold ret in Hrun. injection Hrun as _ <-. done.
      + rewrite Hstep. by apply (IH He s2 o s1).
      + injection Hrun as _ <-. done.
      + injection Hrun as _ <-. done. }
  unfold bind. destruct (for_in (product dn dp) feasible_step s) as [[b|ex|] s1] eqn:Hrun;
    simpl; by apply (Hloop _ _ eq_refl).
Qed.

(** X9.  On a freshly built instance with distinct nodes, edges between
    nodes of the instance, no cycle of negative cost and a non-empty path
    between every ordered pair of nodes, [compute_cpt] called with a start node
    that is not a node of the graph raises KeyError, and it does so after
    the feasible assignment: the instance is left as the check, the split
    and [_find_feasible] left it, nothing being reset. *)
Theorem compute_cpt_foreign_start ns es cf dc fuel start_node :
  NoDup ns →
  ¬ negative_cycle (new_CPTDigraphManager ns es cf dc) →
  Forall (λ e : edge, e.1 ∈ ns ∧ e.2 ∈ ns) es →
  (∀ u v, u ∈ ns → v ∈ ns → tc (edge_rel es) u v) →
  start_node ∉ ns → (0 < fuel)%nat →
  ∃ dd s',
    first_assignment (new_CPTDigraphManager ns es cf dc) = (Ret dd, s')
    ∧ compute_cpt fuel start_node (new_CPTDigraphManager ns es cf dc)
      = (Raise KeyError, s').
Proof.
  intros Hnd Hpos%not_negative_cycle_closed_walks Hends Hjoin Hstart Hfuel.
  set (s0 := new_CPTDigraphManager ns es cf dc).
  destruct (check_closure es s0 (new_closure_inv ns es cf dc))
    as (s1 & Hcheck & _ & (Hst1 & Hd1 & _ & Hf1) & Hl).
  destruct (least_cost_paths_closure_least ns es cf dc Hpos Hends)
    as (s1' & Hl' & Hleast).
  assert (s1' = s1) as -> by (fold s0 in Hl'; congruence).
  pose proof (least_cost_paths_tree_keys ns es cf dc) as Hkeys.
  fold s0 in Hkeys. rewrite Hl in Hkeys. simpl in Hkeys.
  destruct Hst1 as (Hn1 & He1 & _ & _). simpl in Hn1, He1.
  assert (∀ u v, u ∈ ns → v ∈ ns → is_Some (cost s1 !! (u, v))) as Hall.
  { intros u v Hu Hv. destruct (tc_is_walk _ _ _ (Hjoin u v Hu Hv)) as (w & Hw).
    destruct (proj2 Hleast u v w Hw) as (c & Hc & _). eauto. }
  assert (all_pairs_in ns (cost s1) = true) as Hpairs by by apply all_pairs_in_true.
  simpl in Hcheck. rewrite Hpairs in Hcheck.
  assert (Forall (λ n, delta s1 !! n = Some (imbalance (edges s1) n)) (nodes s1)) as Hdelta.
  { rewrite <- Hn1, <- He1, <- Hd1. apply Forall_forall. intros n Hn.
    unfold s0. rewrite new_delta_lookup, decide_True by done. done. }
  destruct (residual_preconditions s1) as (dn & dp & s2 & Hsplit & Hff & Hdef & Hdisj);
    [by rewrite <- Hn1 | by rewrite <- Hn1, <- He1 | done | by rewrite <- Hn1 |].
  destruct (find_feasible_core s1) as (dn' & dp' & s2' & Hsplit' & _ & Hdn & _);
    [by rewrite <- Hn1 | by rewrite <- Hn1, <- He1 | done |].
  rewrite Hsplit in Hsplit'. injection Hsplit' as <- <-.
  pose proof routing_kept_preorder as HP.
  assert (routing_kept s1 s2) as ((Hn2 & He2 & _ & _) & _ & Ht2).
  { eapply (respects_run routing_kept any_exn), Hff.
    apply find_feasible_respects; [done|by intros; repeat split..]. }
  destruct (residual_loop_spec _ [] ∅ s2 Hdef (product_disjoint _ _ Hdisj))
    as (res & rc & Hres & _).
  set (r := new_CPTDigraphManager (nodes s2) res rc (default_cost s2)).
  assert (_get_residual_diblob_manager_for_cpt dn dp s2 = (Ret r, s2)) as Hr.
  { unfold _get_residual_diblob_manager_for_cpt.
    by rewrite (bind_ret _ _ _ _ _ Hres). }
  assert (_improvements fuel r s2 = (Ret false, s2)) as Himp.
  { apply (residual_never_improves fuel dn dp s2 r Hdef Hdisj). by rewrite Hr. }
  assert (improve_loop fuel fuel dn dp r s2 = (Ret tt, s2)) as Hloop.
  { destruct fuel as [|n]; [lia|]. simpl. by rewrite (bind_ret _ _ _ _ _ Himp). }
  assert (_get_cpt fuel start_node s2 = (Raise KeyError, s2)) as Htour.
  { unfold _get_cpt. destruct fuel as [|n]; [lia|]. cbn [tour_loop].
    unfold bind at 1, gets at 1. cbn [fst snd].
    unfold bind at 1, gets at 1. cbn [fst snd].
    rewrite find_path_None.
    - unfold bind at 1, gets at 1. cbn [fst snd].
      unfold bind, getitem. rewrite <- Ht2.
      destruct (spanning_tree s1 !! (start_node, start_node)) as [h|] eqn:Hh; [|done].
      destruct (Hkeys (start_node, start_node)) as [c Hc]; [by eauto|].
      destruct (proj1 Hleast _ _ _ Hc) as (h' & w & _ & (_ & _ & Hw) & _).
      apply Forall_cons in Hw as [Hin _].
      rewrite Forall_forall in Hends. destruct (Hends _ Hin) as [Hs _]. done.
    - intros m _.
      assert (feasible s2 !! (start_node, m) = None) as Hnone.
      { pose proof (find_feasible_frame (start_node, m) dn dp s1) as Hfr.
        rewrite Hff in Hfr. simpl in Hfr. rewrite Hfr.
        + rewrite <- Hf1. done.
        + intros [Hin _]%elem_of_product. apply Hdn in Hin as [Hin _].
          by rewrite <- Hn1 in Hin. }
      unfold dict_get. rewrite Hnone. simpl. lia. }
  exists (dn, dp), s2. split.
  - unfold first_assignment.
    rewrite (bind_ret _ _ _ _ _ Hcheck), (bind_ret _ _ _ _ _ Hsplit). simpl.
    by rewrite (bind_ret _ _ _ _ _ Hff).
  - unfold compute_cpt.
    rewrite (bind_ret _ _ _ _ _ Hcheck). simpl.
    rewrite (bind_ret _ _ _ _ _ Hsplit). simpl.
    rewrite (bind_ret _ _ _ _ _ Hff), (bind_ret _ _ _ _ _ Hr),
      (bind_ret _ _ _ _ _ Hloop).
    by rewrite (bind_raise _ _ _ _ _ Htour).
Qed.

Lemma compute_cpt_foreign_start_witness :
  ∃ dd s', first_assignment fan = (Ret dd, s')
           ∧ compute_cpt 10 "q" fan = (Raise KeyError, s').
Proof.
  apply (compute_cpt_foreign_start (nodes fan) (edges fan) ∅ 1 10 "q").
  - apply (bool_decide_unpack _); vm_compute; exact I.
  - exact fan_no_negative_cycle.
  - apply (bool_decide_unpack _); vm_compute; exact I.
  - exact fan_joined.
  - apply (bool_decide_unpack _); vm_compute; exact I.
  - lia.
Defined.

(** ** The closure computation is idempotent *)

Lemma relax_fixed es cf dc k i j s a :
  closure_least es cf dc s → cost s !! (i, k) = Some a →
  relax k i j s = (Ret false, s).
Proof.
  intros [Hs Hb] Ha.
  destruct (Hs _ _ _ Ha) as (hop & w1 & Hhop & Hw1 & Hc1).
  rewrite (relax_run _ _ _ _ _ _ Ha Hhop).
  destruct (cost s !! (k, j)) as [b|] eqn:Hkj; [|done].
  destruct (Hs _ _ _ Hkj) as (h2 & w2 & _ & Hw2 & Hc2).
  destruct (Hb i j _ (is_walk_app _ _ _ _ _ _ Hw1 Hw2)) as (c & Hc & Hle).
  rewrite walk_cost_app, Hc1, Hc2 in Hle.
  rewrite Hc, bool_decide_eq_false_2; [done|lia].
Qed.

Lemma relax_row_fixed es cf dc ki s :
  closure_least es cf dc s → relax_row ki s = (Ret false, s).
Proof.
  intros Hleast. unfold relax_row, bind, gets. simpl.
  destruct (dict_in (cost s) (ki.2, ki.1)) eqn:Hik; [|done].
  apply dict_in_true in Hik as [a Ha].
  induction (nodes s) as [|j js IH]; simpl; [done|].
  by rewrite (bind_ret _ _ _ _ _ (relax_fixed _ _ _ _ _ j _ _ Hleast Ha)).
Qed.

Lemma least_cost_paths_fixed es cf dc s :
  closure_least es cf dc s → least_cost_paths s = (Ret tt, s).
Proof.
  intros Hleast. unfold least_cost_paths, least_cost_paths_run, bind at 1, bind at 1, gets.
  simpl.
  assert (for_in (product (nodes s) (nodes s)) relax_row s = (Ret false, s)) as ->; [|done].
  induction (product (nodes s) (nodes s)) as [|ki kis IH]; simpl; [done|].
  by rewrite (bind_ret _ _ _ _ _ (relax_row_fixed _ _ _ ki _ Hleast)).
Qed.

(** X10.  When the graph has no cycle of negative cost and every edge joins
    nodes of the instance, the closure computation is idempotent: on the instance a
    first connectivity check has left, [least_cost_paths] changes nothing,
    a second check gives the same answer, and [compute_cpt] has the very
    outcome and final state it has on the freshly built instance.  Calling
    the check before [compute_cpt] is harmless. *)
Theorem check_then_compute_cpt ns es cf dc fuel start_node :
  ¬ negative_cycle (new_CPTDigraphManager ns es cf dc) →
  Forall (λ e : edge, e.1 ∈ ns ∧ e.2 ∈ ns) es →
  let s1 := (check_if_digraph_is_strongly_connected
               (new_CPTDigraphManager ns es cf dc)).2 in
  least_cost_paths s1 = (Ret tt, s1)
  ∧ check_if_digraph_is_strongly_connected s1
    = ((check_if_digraph_is_strongly_connected
          (new_CPTDigraphManager ns es cf dc)).1, s1)
  ∧ compute_cpt fuel start_node s1
    = compute_cpt fuel start_node (new_CPTDigraphManager ns es cf dc).
Proof.
  intros Hpos%not_negative_cycle_closed_walks Hends.
  set (s0 := new_CPTDigraphManager ns es cf dc).
  destruct (check_closure es s0 (new_closure_inv ns es cf dc))
    as (s1 & Hcheck & _ & ((Hn1 & _) & _) & Hl).
  destruct (least_cost_paths_closure_least ns es cf dc Hpos Hends)
    as (s1' & Hl' & Hleast).
  assert (s1' = s1) as -> by (fold s0 in Hl'; congruence).
  rewrite Hcheck. simpl.
  pose proof (least_cost_paths_fixed _ _ _ _ Hleast) as Hfix.
  assert (check_if_digraph_is_strongly_connected s1
          = (Ret (all_pairs_in (nodes s0) (cost s1)), s1)) as Hcheck1.
  { unfold check_if_digraph_is_strongly_connected.
    rewrite (bind_ret _ _ _ _ _ Hfix). unfold bind, gets. simpl.
    rewrite for_in_pure. unfold ret, all_pairs_in. by rewrite <- Hn1. }
  split; [done|]. split; [done|].
  unfold compute_cpt.
  by rewrite (bind_ret _ _ _ _ _ Hcheck), (bind_ret _ _ _ _ _ Hcheck1).
Qed.

Lemma check_then_compute_cpt_witness :
  let s1 := (check_if_digraph_is_strongly_connected discount).2 in
  least_cost_paths s1 = (Ret tt, s1)
  ∧ check_if_digraph_is_strongly_connected s1
    = ((check_if_digraph_is_strongly_connected discount).1, s1)
  ∧ compute_cpt 100 "a" s1 = compute_cpt 100 "a" discount.
Proof.
  apply (check_then_compute_cpt (nodes discount) (edges discount)
           {[ ("a","b") := -1 ]} 2 100 "a").
  - exact discount_no_negative_cycle.
  - apply (bool_decide_unpack _); vm_compute; exact I.
Defined.

(** ** The feasible assignment uses the imbalances up *)

Lemma find_feasible_loop_delta dn : ∀ dp s,
  NoDup dn → NoDup dp → (∀ n, n ∈ dn → n ∉ dp) →
  (∀ n, n ∈ dn → ∃ a, delta s !! n = Some a ∧ a ≤ 0) →
  (∀ p, p ∈ dp → ∃ b, delta s !! p = Some b ∧ 0 ≤ b) →
  sumZ (λ n, dict_get (delta s) n 0) dn + sumZ (λ p, dict_get (delta s) p 0) dp = 0 →
  ∃ s', for_in (product dn dp) feasible_step s = (Ret false, s')
    ∧ (∀ n, n ∈ dn → delta s' !! n = Some 0)
    ∧ (∀ p, p ∈ dp → delta s' !! p = Some 0)
    ∧ (∀ x, x ∉ dn → x ∉ dp → delta s' !! x = delta s !! x).
Proof.
  induction dn as [|n dn IH]; intros dp s Hnd Hndp Hdisj Hneg Hpos Hbal.
  - exists s. split; [done|]. split; [by intros n ?%elem_of_nil|]. split; [|done].
    intros p Hp. destruct (Hpos p Hp) as (b & Hb & Hb0). rewrite Hb. f_equal.
    simpl in Hbal.
    assert (dict_get (delta s) p 0 = 0) as Hz.
    { apply (sumZ_nonneg_zero (λ p, dict_get (delta s) p 0) dp); [|lia|done].
      intros q Hq. destruct (Hpos q Hq) as (b' & Hb' & ?). unfold dict_get.
      by rewrite Hb'. }
    unfold dict_get in Hz. by rewrite Hb in Hz.
  - apply NoDup_cons in Hnd as [Hn Hnd].
    destruct (Hneg n) as (a & Ha & Ha0); [by left|].
    assert (n ∉ dp) as Hndp' by (apply Hdisj; by left).
    destruct (feasible_row n dp s a Hndp' Hndp Ha Ha0 Hpos)
      as (s1 & a' & Hrun1 & Ha' & Hge & Hle & Hsum & Hdone & Hdp & Hdx & Hfx & Hfp).
    assert (∀ m, m ∈ dn → delta s1 !! m = delta s !! m) as Hdn.
    { intros m Hm. apply Hdx; [by intros ->|]. apply Hdisj. by right. }
    assert (sumZ (λ m, dict_get (delta s1) m 0) dn
            = sumZ (λ m, dict_get (delta s) m 0) dn) as Hsdn.
    { apply sumZ_ext. intros m Hm. unfold dict_get. by rewrite Hdn. }
    assert (sumZ (λ p, dict_get (delta s1) p 0) dp
            = sumZ (λ p, dict_get (delta s) p 0) dp
              - sumZ (λ p, dict_get (feasible s1) (n, p) 0) dp) as Hsdp.
    { rewrite <- sumZ_sub. apply sumZ_ext. intros p Hp.
      destruct (Hdp p Hp) as [Hp1 _]. unfold dict_get at 1. by rewrite Hp1. }
    assert (dict_get (delta s) n 0 = a) as Hga by (unfold dict_get; by rewrite Ha).
    cbn [sumZ foldr] in Hbal. rewrite Hga in Hbal.
    fold (sumZ (λ n, dict_get (delta s) n 0) dn) in Hbal.
    assert (sumZ (λ m, dict_get (delta s1) m 0) dn ≤ 0) as Hnonpos.
    { apply sumZ_nonpos. intros m Hm. unfold dict_get. rewrite Hdn by done.
      destruct (Hneg m) as (am & Ham & Ham0); [by right|]. by rewrite Ham. }
    assert (a' = 0) as ->.
    { destruct Hdone as [?|Hall]; [done|].
      assert (sumZ (λ p, dict_get (delta s1) p 0) dp = 0) as Hz.
      { apply sumZ_zero. intros p Hp. unfold dict_get. by rewrite Hall. }
      lia. }
    destruct (IH dp s1 Hnd Hndp) as (s' & Hrun & Hzn & Hzp & Hframe).
    { intros m Hm. apply Hdisj. by right. }
    { intros m Hm. rewrite Hdn by done. apply Hneg. by right. }
    { intros p Hp. destruct (Hdp p Hp) as [Hp1 Hp2]. eauto. }
    { lia. }
    exists s'. split.
    { rewrite product_cons. by rewrite (for_in_app _ _ _ _ _ Hrun1). }
    split.
    { intros m [->|Hm]%elem_of_cons; [|by apply Hzn].
      by rewrite Hframe. }
    split; [done|].
    intros x [Hxn Hx]%not_elem_of_cons Hxp. rewrite Hframe by done. by apply Hdx.
Qed.

(** The amounts the loop assigns are never negative. *)
Lemma feasible_loop_nonneg (dn dp : list node) ps : ∀ s (P : edge → Prop),
  (∀ n, n ∈ dn → n ∉ dp) →
  Forall (λ np : node * node, np.1 ∈ dn ∧ np.2 ∈ dp) ps →
  (∀ n, n ∈ dn → ∃ a, delta s !! n = Some a ∧ a ≤ 0) →
  (∀ p, p ∈ dp → ∃ b, delta s !! p = Some b ∧ 0 ≤ b) →
  (∀ e, P e → ∃ x, feasible s !! e = Some x ∧ 0 ≤ x) →
  ∃ s', for_in ps feasible_step s = (Ret false, s')
        ∧ ∀ e, P e ∨ e ∈ ps → ∃ x, feasible s' !! e = Some x ∧ 0 ≤ x.
Proof.
  induction ps as [|[n p] ps IH]; intros s P Hdisj Hps Hneg Hpos HP.
  - exists s. split; [done|]. intros e [He|He]; [by apply HP|].
    by apply not_elem_of_nil in He.
  - apply Forall_cons in Hps as [[Hn Hp] Hps]. simpl in Hn, Hp.
    destruct (Hneg n Hn) as (a & Ha & Ha0). destruct (Hpos p Hp) as (b & Hb & Hb0).
    assert (n ≠ p) as Hnp by (intros ->; by apply (Hdisj p)).
    destruct (feasible_step_run n p a b s Hnp Ha Hb) as (s1 & Hrun1 & Hf1 & Hd1).
    set (x := if bool_decide (- a < b) then - a else b) in *.
    assert (0 ≤ x ∧ a + x ≤ 0 ∧ 0 ≤ b - x) as (Hx0 & Hax & Hbx).
    { unfold x. case_bool_decide; lia. }
    destruct (IH s1 (λ e, P e ∨ e = (n, p)) Hdisj Hps) as (s' & Hrun & Hall).
    + intros m Hm. rewrite Hd1.
      assert (m ≠ p) by (intros ->; by apply (Hdisj p)).
      rewrite lookup_insert_ne by done.
      destruct (decide (m = n)) as [->|Hmn].
      * rewrite lookup_insert_eq. eauto.
      * rewrite lookup_insert_ne by done. by apply Hneg.
    + intros q Hq. rewrite Hd1.
      destruct (decide (q = p)) as [->|Hqp].
      * rewrite lookup_insert_eq. eauto.
      * rewrite lookup_insert_ne by done.
        assert (q ≠ n) by (intros ->; by apply (Hdisj n)).
        rewrite lookup_insert_ne by done. by apply Hpos.
    + intros e He. rewrite Hf1. destruct (decide (e = (n, p))) as [->|Hne].
      * rewrite lookup_insert_eq. eauto.
      * rewrite lookup_insert_ne by done. destruct He as [He|He]; [by apply HP|done].
    + exists s'. split.
      { simpl. by rewrite (bind_ret _ _ _ _ _ Hrun1). }
      intros e [He|He]; [apply Hall; by left; left|].
      apply elem_of_cons in He as [->|He]; apply Hall; [left; by right | by right].
Qed.

(** X11.  On an instance whose node identifiers are distinct, whose edges
    join nodes of the instance, and whose imbalance table holds out-degree
    minus in-degree for every node, [_find_feasible] writes the entries of
    the (deficit, surplus) pairs only, every amount it writes is at least
    zero, and it uses the imbalance table up: afterwards the table holds 0
    for every node, so a second split finds neither a deficit nor a surplus
    node. *)
Theorem find_feasible_consumes_delta s :
  NoDup (nodes s) →
  Forall (λ e : edge, e.1 ∈ nodes s ∧ e.2 ∈ nodes s) (edges s) →
  Forall (λ n, delta s !! n = Some (imbalance (edges s) n)) (nodes s) →
  ∃ delta_neq delta_pos s',
    _split_nodes_based_on_delta s = (Ret (delta_neq, delta_pos), s)
    ∧ _find_feasible delta_neq delta_pos s = (Ret tt, s')
    ∧ (∀ e, e ∈ product delta_neq delta_pos →
         ∃ x, feasible s' !! e = Some x ∧ 0 ≤ x)
    ∧ (∀ e, e ∉ product delta_neq delta_pos → feasible s' !! e = feasible s !! e)
    ∧ (∀ n, n ∈ nodes s → delta s' !! n = Some 0)
    ∧ _split_nodes_based_on_delta s' = (Ret ([], []), s').
Proof.
  intros Hnd Hes Hdelta.
  destruct (find_feasible_core s Hnd Hes Hdelta)
    as (dn & dp & s' & Hsplit & Hff & Hdn & Hdp & _).
  rewrite Forall_forall in Hdelta.
  assert (∀ n, n ∈ nodes s → dict_get (delta s) n 0 = imbalance (edges s) n) as Hget.
  { intros n Hn. unfold dict_get. by rewrite (Hdelta n Hn). }
  assert (NoDup dn ∧ NoDup dp) as [Hndn Hndp].
  { unfold _split_nodes_based_on_delta, bind, gets in Hsplit. simpl in Hsplit.
    rewrite split_loop_spec in Hsplit by (intros n Hn; rewrite (Hdelta n Hn); eauto).
    injection Hsplit as <- <-. split; by apply NoDup_filter. }
  assert (∀ n, n ∈ dn → n ∉ dp) as Hdisj.
  { intros n [_ Hn]%Hdn [_ Hp]%Hdp. lia. }
  assert (∀ n, n ∈ dn → ∃ a, delta s !! n = Some a ∧ a ≤ 0) as Hneg.
  { intros n [Hn Hlt]%Hdn. exists (imbalance (edges s) n). split; [by apply Hdelta|lia]. }
  assert (∀ p, p ∈ dp → ∃ b, delta s !! p = Some b ∧ 0 ≤ b) as Hpos.
  { intros p [Hp Hgt]%Hdp. exists (imbalance (edges s) p). split; [by apply Hdelta|lia]. }
  assert (for_in (product dn dp) feasible_step s = (Ret false, s')) as Hrun.
  { destruct (feasible_loop_nonneg dn dp (product dn dp) s (λ _, False) Hdisj)
      as (s1 & Hrun1 & _); try done.
    - apply Forall_forall. by intros [n p] ?%elem_of_product.
    - unfold _find_feasible in Hff. rewrite (bind_ret _ _ _ _ _ Hrun1) in Hff.
      unfold ret in Hff. by injection Hff as <-. }
  exists dn, dp, s'. split; [done|]. split; [done|]. split.
  { destruct (feasible_loop_nonneg dn dp (product dn dp) s (λ _, False) Hdisj)
      as (s1 & Hrun1 & Hall); try done.
    - apply Forall_forall. by intros [n p] ?%elem_of_product.
    - assert (s1 = s') as -> by congruence. intros e He. apply Hall. by right. }
  split.
  { intros e He. pose proof (find_feasible_frame e dn dp s He) as Hfr.
    by rewrite Hff in Hfr. }
  assert (∀ n, n ∈ nodes s → delta s' !! n = Some 0) as Hzero.
  { destruct (find_feasible_loop_delta dn dp s Hndn Hndp Hdisj Hneg Hpos)
      as (s1 & Hrun1 & Hzn & Hzp & Hframe).
    { assert (dn = filter (λ n, dict_get (delta s) n 0 < 0) (nodes s)
              ∧ dp = filter (λ n, dict_get (delta s) n 0 > 0) (nodes s)) as [-> ->].
      { unfold _split_nodes_based_on_delta, bind, gets in Hsplit. simpl in Hsplit.
        rewrite split_loop_spec in Hsplit by (intros n Hn; rewrite (Hdelta n Hn); eauto).
        by injection Hsplit as <- <-. }
      rewrite (sumZ_filter_sign (λ n, dict_get (delta s) n 0)).
      rewrite (sumZ_ext _ (imbalance (edges s))) by exact Hget.
      by apply handshake. }
    assert (s1 = s') as -> by congruence.
    intros n Hn. destruct (decide (n ∈ dn)) as [?|Hnn]; [by apply Hzn|].
    destruct (decide (n ∈ dp)) as [?|Hnp]; [by apply Hzp|].
    rewrite Hframe, (Hdelta n Hn) by done. f_equal.
    destruct (Z.lt_trichotomy (imbalance (edges s) n) 0) as [?|[?|?]]; [|done|].
    - destruct Hnn. by apply Hdn.
    - destruct Hnp. by apply Hdp. }
  split; [done|].
  assert (nodes s' = nodes s) as Hns.
  { pose proof static_preorder as HP. symmetry.
    eapply (respects_run static any_exn), Hff.
    apply find_feasible_respects; [done|by intros; repeat split..]. }
  unfold _split_nodes_based_on_delta, bind, gets. simpl. rewrite Hns.
  rewrite split_loop_spec by (intros n Hn; rewrite (Hzero n Hn); eauto).
  simpl. do 3 f_equal.
  - apply elem_of_nil_inv. intros n [Hlt Hn]%list_elem_of_filter.
    unfold dict_get in Hlt. rewrite (Hzero n Hn) in Hlt. simpl in Hlt. lia.
  - apply elem_of_nil_inv. intros n [Hlt Hn]%list_elem_of_filter.
    unfold dict_get in Hlt. rewrite (Hzero n Hn) in Hlt. simpl in Hlt. lia.
Qed.

Lemma find_feasible_consumes_delta_witness :
  ∃ delta_neq delta_pos s',
    _split_nodes_based_on_delta fan = (Ret (delta_neq, delta_pos), fan)
    ∧ _find_feasible delta_neq delta_pos fan = (Ret tt, s')
    ∧ (∀ e, e ∈ product delta_neq delta_pos →
         ∃ x, feasible s' !! e = Some x ∧ 0 ≤ x)
    ∧ (∀ e, e ∉ product delta_neq delta_pos → feasible s' !! e = feasible fan !! e)
    ∧ (∀ n, n ∈ nodes fan → delta s' !! n = Some 0)
    ∧ _split_nodes_based_on_delta s' = (Ret ([], []), s').
Proof.
  apply (find_feasible_consumes_delta fan);
    apply (bool_decide_unpack _); vm_compute; exact I.
Defined.

(** ** The early return of the closure computation *)

Lemma diag_kept_refl s : diag_kept s s.
Proof. by intros n c. Qed.

Lemma diag_kept_trans s1 s2 s3 :
  diag_kept s1 s2 → diag_kept s2 s3 → diag_kept s1 s3.
Proof. intros H12 H23 n c Hc Hlt. apply H12; [|done]. by apply H23. Qed.

(** A relaxation that does not end the loop writes no negative self-pair. *)
Lemma relax_diag es cf dc k i j s a s' :
  closure_sound es cf dc s → cost s !! (i, k) = Some a →
  relax k i j s = (Ret false, s') → diag_kept s s'.
Proof.
  intros Hs Ha Hrun.
  destruct (Hs _ _ _ Ha) as (hop & w & Hhop & _).
  rewrite (relax_run _ _ _ _ _ _ Ha Hhop) in Hrun.
  destruct (cost s !! (k, j)) as [b|];
    [|injection Hrun as <-; apply diag_kept_refl].
  destruct (match cost s !! (i, j) with
            | Some c0 => bool_decide (c0 > a + b) | None => true end);
    [|injection Hrun as <-; apply diag_kept_refl].
  injection Hrun as Hflag <-. intros n c. simpl.
  destruct (decide ((i, j) = (n, n))) as [[= -> ->]|Hne].
  - rewrite lookup_insert_eq. intros [= <-] Hlt.
    rewrite bool_decide_eq_true_2 in Hflag by done.
    rewrite bool_decide_eq_true_2 in Hflag by done. done.
  - by rewrite lookup_insert_ne.
Qed.

Lemma relax_loop_diag es cf dc k i js : ∀ s a s',
  closure_sound es cf dc s → cost s !! (i, k) = Some a →
  for_in js (relax k i) s = (Ret false, s') → diag_kept s s'.
Proof.
  induction js as [|j js IH]; intros s a s' Hs Ha Hrun; simpl in Hrun.
  - unfold ret in Hrun. injection Hrun as <-. apply diag_kept_refl.
  - destruct (relax_sound es cf dc k i j s a Hs Ha)
      as (b & s1 & Hrun1 & Hs1 & Hd1 & _).
    rewrite (bind_ret _ _ _ _ _ Hrun1) in Hrun. destruct b; [done|].
    destruct (Hd1 _ _ Ha) as (a1 & Ha1 & _).
    eapply diag_kept_trans; [by eapply relax_diag|by eapply IH].
Qed.

Lemma relax_row_diag es cf dc ki s s' :
  closure_sound es cf dc s →
  relax_row ki s = (Ret false, s') → diag_kept s s'.
Proof.
  intros Hs Hrun. unfold relax_row, bind, gets in Hrun. simpl in Hrun.
  destruct (dict_in (cost s) (ki.2, ki.1)) eqn:Hik.
  - apply dict_in_true in Hik as [a Ha]. by eapply relax_loop_diag.
  - unfold ret in Hrun. injection Hrun as <-. apply diag_kept_refl.
Qed.

Lemma closure_loop_diag es cf dc kis : ∀ s s',
  closure_sound es cf dc s →
  for_in kis relax_row s = (Ret false, s') → diag_kept s s'.
Proof.
  induction kis as [|[k i] kis IH]; intros s s' Hs Hrun; simpl in Hrun.
  - unfold ret in Hrun. injection Hrun as <-. apply diag_kept_refl.
  - destruct (relax_row_sound es cf dc k i s Hs) as (b & s1 & Hrun1 & Hs1 & _).
    rewrite (bind_ret _ _ _ _ _ Hrun1) in Hrun. destruct b; [done|].
    eapply diag_kept_trans; [by eapply relax_row_diag|by eapply IH].
Qed.

Lemma for_in_app_stop {X} (l1 l2 : list X) (body : X → M bool) s s1 :
  for_in l1 body s = (Ret true, s1) →
  for_in (l1 ++ l2) body s = (Ret true, s1).
Proof.
  revert s. induction l1 as [|x l1 IH]; intros s Hrun; simpl in *; [done|].
  unfold bind in *. destruct (body x s) as [[[|]|e|] s']; try done.
  by apply IH.
Qed.

(** The rows of [k], when they run to their end: the self-pair of [k] was
    not negative when they started, and the closure is below the walks
    through [k]. *)
Lemma rows_below_run ns es cf dc k K s s' :
  Forall (λ e : edge, e.1 ∈ ns ∧ e.2 ∈ ns) es →
  closure_sound es cf dc s → closure_below es cf dc K s → nodes s = ns →
  k ∈ ns →
  for_in (map (λ i, (k, i)) ns) relax_row s = (Ret false, s') →
  closure_sound es cf dc s' ∧ nodes s' = ns ∧ diag_kept s s'
  ∧ (∀ c, cost s !! (k, k) = Some c → 0 ≤ c)
  ∧ closure_below es cf dc (k :: K) s'.
Proof.
  intros Hends Hs Hbelow Hns Hk Hrun.
  destruct (rows_sound es cf dc k ns s Hs)
    as (b & s2 & Hrun2 & Hs' & Hd & Hn & Hle & _).
  rewrite Hrun in Hrun2. injection Hrun2 as <- <-.
  pose proof (closure_loop_diag _ _ _ _ _ _ Hs Hrun) as Hdiag.
  assert (∀ c, cost s !! (k, k) = Some c → 0 ≤ c) as Hkk.
  { intros c Hc. destruct (decide (0 ≤ c)) as [|Hlt]; [done|].
    destruct (Hle eq_refl k k c c Hk) as (c' & Hc' & Hle'); [by rewrite Hns|done..|].
    assert (cost s !! (k, k) = Some c') as Hc2 by (apply Hdiag; [done|lia]).
    assert (c' = c) by congruence. lia. }
  split; [done|]. split; [congruence|]. split; [done|]. split; [done|].
  assert (∀ w1, via es K k w1 k → 0 ≤ walk_cost cf dc w1) as Hloops.
  { intros w1 Hw1. destruct (Hbelow _ _ _ Hw1) as (c & Hc & ?).
    specialize (Hkk c Hc). lia. }
  intros i j w Hw. destruct (via_split _ _ _ _ _ _ _ _ Hloops Hw)
    as [Hv|(w1 & w2 & Hv1 & Hv2 & Hcost)].
  - destruct (Hbelow _ _ _ Hv) as (c & Hc & ?).
    destruct (Hd _ _ Hc) as (c' & Hc' & ?). exists c'. split; [done|lia].
  - destruct (Hbelow _ _ _ Hv1) as (a & Ha & ?).
    destruct (Hbelow _ _ _ Hv2) as (bkj & Hb & ?).
    rewrite Forall_forall in Hends.
    destruct (via_ends _ _ _ _ _ Hw) as [(h & Hih) (t & Htj)].
    destruct (Hends _ Hih) as [Hi _]. destruct (Hends _ Htj) as [_ Hj].
    simpl in Hi, Hj. rewrite <- Hns in Hj.
    destruct (Hle eq_refl i j a bkj Hi Hj Ha Hb) as (c & Hc & ?).
    exists c. split; [done|lia].
Qed.

Lemma closure_loop_below_run ns es cf dc ks : ∀ K s s',
  Forall (λ e : edge, e.1 ∈ ns ∧ e.2 ∈ ns) es →
  (∀ k, k ∈ ks → k ∈ ns) →
  closure_sound es cf dc s → closure_below es cf dc K s → nodes s = ns →
  diag_nonneg K s →
  for_in (product ks ns) relax_row s = (Ret false, s') →
  closure_below es cf dc (ks ++ K) s' ∧ diag_nonneg (ks ++ K) s'.
Proof.
  induction ks as [|k ks IH]; intros K s s' Hends Hks Hs Hbelow Hns Hdn Hrun.
  - simpl in Hrun. unfold ret in Hrun. by injection Hrun as <-.
  - rewrite product_cons in Hrun.
    destruct (rows_sound es cf dc k ns s Hs) as (b & s1 & Hrun1 & _).
    destruct b.
    { by rewrite (for_in_app_stop _ _ _ _ _ Hrun1) in Hrun. }
    rewrite (for_in_app _ _ _ _ _ Hrun1) in Hrun.
    destruct (rows_below_run ns es cf dc k K s s1 Hends Hs Hbelow Hns)
      as (Hs1 & Hn1 & Hdiag & Hkk & Hb1); [apply Hks; by left|done|].
    destruct (IH (k :: K) s1 s' Hends) as [Hb' Hd']; try done.
    + intros k' Hk'. apply Hks. by right.
    + intros n c Hn Hc. destruct (decide (0 ≤ c)) as [|Hlt]; [done|].
      assert (cost s !! (n, n) = Some c) as Hc0 by (apply Hdiag; [done|lia]).
      apply elem_of_cons in Hn as [->|Hn]; [by apply Hkk|by apply (Hdn n)].
    + assert (∀ x, x ∈ ks ++ k :: K → x ∈ (k :: ks) ++ K) as Hsub.
      { intros x. change ((k :: ks) ++ K) with (k :: (ks ++ K)).
        rewrite elem_of_cons, !elem_of_app, elem_of_cons. tauto. }
      assert (∀ x, x ∈ (k :: ks) ++ K → x ∈ ks ++ k :: K) as Hsub'.
      { intros x. change ((k :: ks) ++ K) with (k :: (ks ++ K)).
        rewrite elem_of_cons, !elem_of_app, elem_of_cons. tauto. }
      split.
      * intros i j w Hw. apply Hb'. revert Hw. by apply via_mono.
      * intros n c Hn. apply Hd'. by apply Hsub'.
Qed.

(** X12.  [least_cost_paths] takes its early return exactly on the graphs
    that have a cycle of negative cost: on a freshly built instance whose
    edges join nodes of the instance, the closure computation stops early
    if and only if some closed walk along edges of the graph has a cost
    below zero.  Either way it returns without raising. *)
Theorem early_return_iff_negative_cycle ns es cf dc :
  Forall (λ e : edge, e.1 ∈ ns ∧ e.2 ∈ ns) es →
  ∃ b, (least_cost_paths_run (new_CPTDigraphManager ns es cf dc)).1 = Ret b
       ∧ (b = true ↔ negative_cycle (new_CPTDigraphManager ns es cf dc)).
Proof.
  intros Hends.
  set (s0 := new_CPTDigraphManager ns es cf dc).
  destruct (closure_loop_sound es cf dc (product ns ns) s0 (new_closure_sound _ _ _ _))
    as (b & s' & Hloop & Hs' & _).
  destruct (least_cost_paths_run_closure es s0 (new_closure_inv _ _ _ _))
    as (b' & s'' & Hrun & _ & Hneg).
  assert (b' = b ∧ s'' = s') as [-> ->].
  { unfold least_cost_paths_run, bind, gets in Hrun. simpl in Hrun.
    rewrite Hloop in Hrun. by injection Hrun as <- <-. }
  exists b. rewrite Hrun. split; [done|]. split.
  - intros Hb. destruct (Hneg Hb) as (n & _ & c & Hc & Hlt).
    destruct (Hs' _ _ _ Hc) as (h & w & _ & (Hne & Hw & Hall) & Hcost).
    exists n, ((n, h) :: w). split; [done|]. split; [done|]. split; [done|].
    simpl. simpl in Hcost. lia.
  - intros (u & w & Hne & Hw & Hall & Hlt). simpl in Hall, Hlt.
    destruct b; [done|]. exfalso.
    destruct (closure_loop_below_run ns es cf dc ns [] s0 s' Hends) as [Hb Hd];
      try done.
    { apply new_closure_sound. }
    { apply new_closure_below. }
    { intros n c Hn. by apply not_elem_of_nil in Hn. }
    rewrite app_nil_r in Hb, Hd.
    assert (is_walk es u w u) as Hwalk by done.
    destruct (Hb u u w (is_walk_via _ _ _ _ _ Hends Hwalk)) as (c & Hc & Hle).
    assert (u ∈ ns) as Hu.
    { destruct (via_ends _ _ _ _ _ (is_walk_via _ _ _ _ _ Hends Hwalk)) as [(h & Hh) _].
      rewrite Forall_forall in Hends. by destruct (Hends _ Hh). }
    specialize (Hd u c Hu Hc). lia.
Qed.

Lemma early_return_iff_negative_cycle_witness :
  ∃ b, (least_cost_paths_run neg_cycle).1 = Ret b
       ∧ (b = true ↔ negative_cycle neg_cycle).
Proof.
  apply (early_return_iff_negative_cycle ["a"; "b"; "c"]
           [("a","b"); ("b","a"); ("b","c"); ("c","b")] {[ ("c","b") := -5 ]} 1).
  apply (bool_decide_unpack _); vm_compute; exact I.
Defined.

(** ** Graphs whose nodes are out of balance by one edge at most *)

Lemma sumZ_app {A} (g : A → Z) (l k : list A) :
  sumZ g (l ++ k) = sumZ g l + sumZ g k.
Proof. induction l as [|x l IH]; simpl; [done|]. unfold sumZ in *. lia. Qed.

Section unit_flows.
Variables (ns : list node) (es : list edge) (cf : gmap edge Z) (dc : Z).
Variable t : CPTDigraphManager.
Variables (bound : nat) (start_node : node).
Variable f0 : gmap edge Z.
Hypothesis Hpos : Forall (λ e, 0 < dict_get cf e dc) es.
Hypothesis Hends : Forall (λ e : edge, e.1 ∈ ns ∧ e.2 ∈ ns) es.
Hypothesis Hleast : closure_least es cf dc t.
Hypothesis Hall : ∀ u v, u ∈ ns → v ∈ ns → is_Some (cost t !! (u, v)).
Hypothesis Hbound : ∀ e c, cost t !! e = Some c → c ≤ Z.of_nat bound.
Hypothesis Hstart : start_node ∈ ns.
Hypothesis Hunit : ∀ e x, f0 !! e = Some x → x = 0 ∨ x = 1.
Hypothesis Hkeys : ∀ n p, f0 !! (n, p) = Some 1 → n ∈ ns ∧ p ∈ ns.
Hypothesis Hirr : ∀ n, f0 !! (n, n) ≠ Some 1.

Lemma pending_iff s (LS : list edge) e :
  (∀ e, feasible s !! e = if decide (e ∈ LS) then Some (-1) else f0 !! e) →
  0 < dict_get (feasible s) e 0 ↔ f0 !! e = Some 1 ∧ e ∉ LS.
Proof.
  intros Hf. unfold dict_get. rewrite Hf. case_decide as Hin; simpl.
  - split; [lia|]. by intros [_ ?].
  - destruct (f0 !! e) as [x|] eqn:Hx; simpl.
    + destruct (Hunit _ _ Hx) as [->| ->]; split; try lia; try done.
      by intros [[=] _].
    + split; [lia|]. by intros [[=] _].
Qed.

Lemma tour_loop_unit fuel : ∀ s v used cpt LU LS M,
  nodes s = ns → edges s = es → spanning_tree s = spanning_tree t → v ∈ ns →
  tour_inv es cf dc t start_node f0 s v used cpt LU LS M →
  (pending ns (feasible s) + size (list_to_set es : gset edge)
   < fuel + size used)%nat →
  ∃ cpt' s' used' LU' LS' M' u b,
    tour_loop bound fuel start_node v used cpt s = (Ret cpt', s')
    ∧ cost s' = cost s ∧ basic_cost s' = basic_cost s ∧ nodes s' = ns
    ∧ u ∈ ns
    ∧ tour_inv es cf dc t start_node f0 s' u used' cpt' LU' LS' M'
    ∧ spanning_tree t !! (u, start_node) = Some b ∧ (u, b) ∈ LU'
    ∧ (∀ p, f0 !! (u, p) = Some 1 → (u, p) ∈ LS').
Proof.
  induction fuel as [|fuel IH]; intros s v used cpt LU LS M Hn He Htree Hv Hinv Hm.
  { destruct Hinv as (_ & _ & _ & _ & Hused & Hsub & _).
    assert (used ⊆ list_to_set es) as Hle.
    { intros e Hin. apply elem_of_list_to_set. rewrite Forall_forall in Hsub.
      by apply Hsub, Hused. }
    pose proof (subseteq_size _ _ Hle). lia. }
  destruct Hinv as (Hf & HndS & HS1 & HndU & Hused & HsubU & HwM & HpM & Hw & Hsub
                    & HUc & Hcost & Hlast & HJ).
  cbn [tour_loop]. unfold bind at 1, gets at 1. cbn [fst snd].
  unfold bind at 1, gets at 1. cbn [fst snd]. rewrite Hn.
  destruct (_find_path ns v (feasible s)) as [v'|] eqn:Hfind.
  - apply find_path_Some in Hfind as [Hv' Hpend].
    pose proof (proj1 (pending_iff s LS (v, v') Hf) Hpend) as [Hf0 HnS].
    assert (v ≠ v') as Hne by (intros <-; by apply (Hirr v)).
    set (s1 := with_feasible (<[(v, v') := -1]> (feasible s)) s).
    destruct (Hall v v' Hv Hv') as [c Hc].
    destruct (walk_path_run es cf dc t bound s1 v v' c cpt Hpos Hleast Htree Hc Hne)
      as (p & Hrun & (_ & Hpw & Hpe) & Hpc); [by eapply Hbound|].
    unfold bind at 1, serve_path, bind at 1, modify at 1. cbn [fst snd].
    fold s1. rewrite Hrun.
    destruct (IH s1 v' used (cpt ++ p) LU (LS ++ [(v, v')]) (M ++ [(v, v')]))
      as (cpt' & s' & used' & LU' & LS' & M' & u & b & Hrun' & Hc' & Hb' & Hn'
          & Hu & Hinv' & Hbr & HbU & Hnop); try done.
    + split.
      { intros e. simpl. destruct (decide (e = (v, v'))) as [->|Hev].
        - rewrite lookup_insert_eq. rewrite decide_True; [done|].
          apply elem_of_app. right. by apply list_elem_of_singleton.
        - rewrite lookup_insert_ne by done. rewrite Hf.
          destruct (decide (e ∈ LS)) as [Hin|Hin].
          + rewrite decide_True; [done|]. apply elem_of_app. by left.
          + rewrite decide_False; [done|].
            intros [?|?%list_elem_of_singleton]%elem_of_app; done. }
      split.
      { apply NoDup_app. split; [done|]. split; [|apply NoDup_singleton].
        intros e He1 ->%list_elem_of_singleton. done. }
      split.
      { intros e [?| ->%list_elem_of_singleton]%elem_of_app; [by apply HS1|done]. }
      split; [done|]. split; [done|]. split; [done|]. split.
      { rewrite (walk_from_app _ _ _ _ HwM). simpl. by rewrite decide_True. }
      split.
      { rewrite HpM. by rewrite <- app_assoc. }
      split.
      { by rewrite (walk_from_app _ _ _ _ Hw). }
      split.
      { by apply Forall_app. }
      split.
      { intros e He1. apply elem_of_app. left. by apply HUc. }
      split.
      { rewrite walk_cost_app, Hcost, Hpc, sumZ_app. simpl.
        assert (dict_get (cost t) (v, v') 0 = c) as ->; [|lia].
        unfold dict_get. by rewrite Hc. }
      split; [done|].
      intros x y q Hxy Hq. apply elem_of_app. left. by apply (HJ x y).
    + pose proof (pending_serve ns (feasible s) v v' Hv Hv' Hpend). simpl. lia.
    + exists cpt', s', used', LU', LS', M', u, b. by repeat (split; [done|]).
  - assert (∀ p, f0 !! (v, p) = Some 1 → (v, p) ∈ LS) as Hnop.
    { intros p Hp. destruct (decide ((v, p) ∈ LS)) as [|HnS]; [done|]. exfalso.
      pose proof (proj2 (pending_iff s LS (v, p) Hf) (conj Hp HnS)) as Hpend.
      destruct (Hkeys _ _ Hp) as [_ Hpn]. apply list_elem_of_In in Hpn.
      unfold _find_path in Hfind.
      pose proof (find_none _ _ Hfind p Hpn) as Hc. simpl in Hc.
      apply bool_decide_eq_false in Hc. lia. }
    destruct (Hall v start_node Hv Hstart) as [c Hc].
    destruct (hop_step es cf dc t v start_node c (positive_nonneg _ _ _ Hpos) Hleast Hc)
      as (bridge_node & Hb & Hbe & _).
    unfold bind at 1, gets at 1. cbn [fst snd].
    unfold bind at 1. rewrite Htree, (getitem_Some _ _ _ _ Hb).
    case_decide as Hin.
    { exists cpt, s, used, LU, LS, M, v, bridge_node.
      do 5 (split; [done|]). split; [by repeat (split; [done|])|].
      split; [done|]. split; [by apply Hused|done]. }
    unfold bind at 1, gets at 1. cbn [fst snd]. rewrite He.
    destruct (unused_edge_spec ns es used v bridge_node Hbe Hin) as [Hue Hun].
    pose proof (unused_edge_cases ns es used v bridge_node) as Hcases.
    set (v' := unused_edge ns es used v bridge_node) in *.
    assert ((v, v') ∉ LU) as Hnew by (by rewrite <- Hused).
    assert (v' ∈ ns) as Hv'.
    { rewrite Forall_forall in Hends. by destruct (Hends _ Hue). }
    destruct (IH s v' (used ∪ {[(v, v')]}) (cpt ++ [(v, v')]) (LU ++ [(v, v')]) LS
                (M ++ [(v, v')]))
      as (cpt' & s' & used' & LU' & LS' & M' & u & b & Hrun' & Hc' & Hb' & Hn'
          & Hu & Hinv' & Hbr & HbU & Hnop'); try done.
    + split; [done|]. split; [done|]. split; [done|]. split.
      { apply NoDup_app. split; [done|]. split; [|apply NoDup_singleton].
        intros e He1 ->%list_elem_of_singleton. done. }
      split.
      { intros e. rewrite elem_of_union, elem_of_singleton, elem_of_app,
          list_elem_of_singleton. specialize (Hused e). tauto. }
      split.
      { apply Forall_app. split; [done|]. by apply Forall_singleton. }
      split.
      { rewrite (walk_from_app _ _ _ _ HwM). simpl. by rewrite decide_True. }
      split.
      { rewrite HpM. rewrite <- !app_assoc. apply Permutation_app_head.
        apply Permutation_app_comm. }
      split.
      { rewrite (walk_from_app _ _ _ _ Hw). simpl. by rewrite decide_True. }
      split.
      { apply Forall_app. split; [done|]. by apply Forall_singleton. }
      split.
      { intros e [?|?]%elem_of_app; apply elem_of_app; [left; by apply HUc|by right]. }
      split.
      { rewrite walk_cost_app, Hcost, sumZ_app. simpl. lia. }
      split.
      { intros x b Hxb Hxin y Hy. apply elem_of_app.
        apply elem_of_app in Hxin as [Hxin|Hxin%list_elem_of_singleton].
        - left. by apply (Hlast x b).
        - injection Hxin as -> ->. assert (v' = bridge_node) as Hvb by congruence.
          destruct Hcases as [?|[_ Hrest]]; [done|].
          destruct (decide (y = bridge_node)) as [->|Hyb].
          + right. rewrite Hvb. by apply list_elem_of_singleton.
          + left. apply Hused, Hrest; [|done..].
            rewrite Forall_forall in Hends. by destruct (Hends _ Hy). }
      intros x y q [Hxy|Hxy%list_elem_of_singleton]%elem_of_app Hq.
      * by apply (HJ x y).
      * injection Hxy as -> ->. by apply Hnop.
    + rewrite size_union by (by apply disjoint_singleton_r).
      rewrite size_singleton. lia.
    + exists cpt', s', used', LU', LS', M', u, b. by repeat (split; [done|]).
Qed.

End unit_flows.

Section unit_final.
Variables (ns : list node) (es : list edge) (cf : gmap edge Z) (dc : Z).
Variable t : CPTDigraphManager.
Variable start_node : node.
Variable f0 : gmap edge Z.
Hypothesis Hpos : Forall (λ e, 0 < dict_get cf e dc) es.
Hypothesis Hends : Forall (λ e : edge, e.1 ∈ ns ∧ e.2 ∈ ns) es.
Hypothesis Hleast : closure_least es cf dc t.
Hypothesis Hnd : NoDup es.
Hypothesis Hnn : NoDup ns.
Hypothesis Hkeys : ∀ n p, f0 !! (n, p) = Some 1 → n ∈ ns ∧ p ∈ ns.
Hypothesis Hdeg : ∀ x, x ∈ ns →
  (length (out_edges x es) + length (flows_out ns f0 x)
   = length (in_edges x es) + length (flows_in ns f0 x))%nat.
Variables (LU LS M : list edge).
Hypothesis HndS : NoDup LS.
Hypothesis HS1 : ∀ e, e ∈ LS → f0 !! e = Some 1.
Hypothesis HndU : NoDup LU.
Hypothesis HsubU : Forall (λ e, e ∈ es) LU.
Hypothesis HpM : M ≡ₚ LU ++ LS.
Hypothesis Hlast : bridge_last (spanning_tree t) start_node es LU.
Hypothesis HJ : ∀ x y p, (x, y) ∈ LU → f0 !! (x, p) = Some 1 → (x, p) ∈ LS.

Lemma meta_out_length x :
  length (out_edges x M) = (length (out_edges x LU) + length (out_edges x LS))%nat.
Proof. unfold out_edges. by rewrite HpM, filter_app, length_app. Qed.

Lemma meta_in_length x :
  length (in_edges x M) = (length (in_edges x LU) + length (in_edges x LS))%nat.
Proof. unfold in_edges. by rewrite HpM, filter_app, length_app. Qed.

Lemma served_out_length x :
  (∀ p, f0 !! (x, p) = Some 1 → (x, p) ∈ LS) →
  length (out_edges x LS) = length (flows_out ns f0 x).
Proof.
  intros Hserved.
  rewrite <- (length_fmap (λ p, (x, p)) (flows_out ns f0 x)).
  apply Permutation_length, NoDup_Permutation.
  - by apply NoDup_filter.
  - apply NoDup_fmap_2; [by intros p q [=]|]. by apply NoDup_filter.
  - intros [a b]. unfold out_edges, flows_out.
    rewrite list_elem_of_filter, list_elem_of_fmap. simpl. split.
    + intros [-> Hin]. exists b. split; [done|]. apply list_elem_of_filter.
      pose proof (HS1 _ Hin) as Hb. split; [done|]. by destruct (Hkeys _ _ Hb).
    + intros (p & [= -> ->] & [Hp _]%list_elem_of_filter). split; [done|].
      by apply Hserved.
Qed.

Lemma served_in_length x :
  (length (in_edges x LS) ≤ length (flows_in ns f0 x))%nat.
Proof.
  rewrite <- (length_fmap (λ n, (n, x)) (flows_in ns f0 x)).
  apply submseteq_length, NoDup_submseteq; [by apply NoDup_filter|].
  intros [a b]. unfold in_edges, flows_in.
  rewrite list_elem_of_filter, list_elem_of_fmap. simpl.
  intros [-> Hin]. exists a. split; [done|]. apply list_elem_of_filter.
  pose proof (HS1 _ Hin) as Ha. split; [done|]. by destruct (Hkeys _ _ Ha).
Qed.

Lemma unit_out_full_length x :
  (∀ y, (x, y) ∈ es → (x, y) ∈ LU) →
  length (out_edges x LU) = length (out_edges x es).
Proof.
  intros Hout. apply Nat.le_antisymm.
  - apply filter_length_sub; [done|]. rewrite Forall_forall in HsubU. auto.
  - apply filter_length_sub; [done|].
    intros [a b] He Ha. simpl in Ha. subst a. by apply Hout.
Qed.

(** The extraction stops at the start node. *)
Lemma unit_closed u b :
  walk_from start_node M = Some u → u ∈ ns →
  spanning_tree t !! (u, start_node) = Some b → (u, b) ∈ LU →
  u = start_node.
Proof.
  intros Hw Hu Hb Hin. destruct (decide (u = start_node)) as [|Hne]; [done|].
  pose proof (unit_out_full_length u (Hlast u b Hb Hin)) as Hout.
  pose proof (served_out_length u (λ p, HJ u b p Hin)) as Hso.
  pose proof (served_in_length u) as Hsi.
  assert (length (in_edges u LU) ≤ length (in_edges u es))%nat as Hil.
  { apply filter_length_sub; [done|]. rewrite Forall_forall in HsubU. auto. }
  pose proof (Hdeg u Hu) as Hd.
  pose proof (walk_balance M start_node u u Hw) as Hwb.
  rewrite decide_True in Hwb by done. rewrite decide_False in Hwb by done.
  rewrite meta_out_length, meta_in_length in Hwb.
  lia.
Qed.

Hypothesis Hclosed : walk_from start_node M = Some start_node.

Lemma unit_in_full p y0 :
  p ∈ ns → (p, y0) ∈ LU → (∀ y, (p, y) ∈ es → (p, y) ∈ LU) →
  ∀ x, (x, p) ∈ es → (x, p) ∈ LU.
Proof.
  intros Hp Hy0 Hout x He.
  pose proof (unit_out_full_length p Hout) as Hlen.
  pose proof (served_out_length p (λ q, HJ p y0 q Hy0)) as Hso.
  pose proof (served_in_length p) as Hsi.
  pose proof (Hdeg p Hp) as Hd.
  pose proof (walk_balance M start_node start_node p Hclosed) as Hwb.
  rewrite meta_out_length, meta_in_length in Hwb.
  apply (filter_full (λ e : edge, e.2 = p) LU es (x, p)); try done.
  - rewrite Forall_forall in HsubU. auto.
  - unfold out_edges, in_edges in *. lia.
Qed.

Lemma unit_bridge_taken b0 n : ∀ x c,
  spanning_tree t !! (start_node, start_node) = Some b0 →
  (start_node, b0) ∈ LU →
  cost t !! (x, start_node) = Some c → c ≤ Z.of_nat n → x ∈ ns →
  ∃ b, spanning_tree t !! (x, start_node) = Some b ∧ (x, b) ∈ LU.
Proof.
  induction n as [|n IH]; intros x c Hb0 Hin0 Hc Hn Hx.
  { pose proof (closure_least_positive _ _ _ _ _ _ Hpos Hleast Hc). lia. }
  destruct (hop_step es cf dc t x start_node c (positive_nonneg _ _ _ Hpos) Hleast Hc)
    as (p & Hp & He & Hrest).
  exists p. split; [done|].
  assert (0 < dict_get cf (x, p) dc) as Hxp.
  { rewrite Forall_forall in Hpos. by apply Hpos. }
  assert (p ∈ ns) as Hpn.
  { rewrite Forall_forall in Hends. by destruct (Hends _ He). }
  case_decide as Hps.
  - subst p. apply (unit_in_full start_node b0); [done..| |done].
    by apply (Hlast start_node b0).
  - destruct (IH p _ Hb0 Hin0 Hrest) as (b & Hb & Hbin); [lia|done|].
    apply (unit_in_full p b); [done..| |done]. by apply (Hlast p b).
Qed.

End unit_final.

Lemma NoDup_product {A B} (a : list A) (b : list B) :
  NoDup a → NoDup b → NoDup (product a b).
Proof.
  intros Ha Hb. induction Ha as [|x a Hx Ha IH]; [apply NoDup_nil_2|].
  rewrite product_cons. apply NoDup_app. split; [|split; [|done]].
  - apply NoDup_fmap_2; [by intros y z [=]|done].
  - intros [u v] (y & [= -> ->] & _)%list_elem_of_fmap [Hin _]%elem_of_product. done.
Qed.

Lemma sumZ_filter_indicator {A} (P : A → Prop) `{∀ x, Decision (P x)}
    (g : A → Z) (l : list A) :
  sumZ (λ x, if decide (P x) then g x else 0) l = sumZ g (filter P l).
Proof.
  induction l as [|x l IH]; [done|]. rewrite filter_cons. cbn [sumZ foldr].
  fold (sumZ (λ x, if decide (P x) then g x else 0) l). rewrite IH.
  destruct (decide (P x)); simpl; unfold sumZ; lia.
Qed.

Lemma sumZ_indicator_subset {A} `{EqDecision A} (g : A → Z) (L S : list A) :
  NoDup L → NoDup S → (∀ x, x ∈ S → x ∈ L) →
  sumZ (λ x, if decide (x ∈ S) then g x else 0) L = sumZ g S.
Proof.
  intros HL HS Hsub. rewrite (sumZ_filter_indicator (λ x, x ∈ S)).
  apply sumZ_Permutation, NoDup_Permutation; [by apply NoDup_filter|done|].
  intros x. rewrite list_elem_of_filter. split; [by intros [? _]|]. auto.
Qed.

Lemma count_sum {A} (g : A → Z) (l : list A) :
  (∀ p, p ∈ l → g p = 0 ∨ g p = 1) →
  Z.of_nat (length (filter (λ p, g p = 1) l)) = sumZ g l.
Proof.
  induction l as [|x l IH]; intros Hg; [done|]. rewrite filter_cons.
  cbn [sumZ foldr]. fold (sumZ g l).
  assert (Z.of_nat (length (filter (λ p, g p = 1) l)) = sumZ g l) as IH'.
  { apply IH. intros p Hp. apply Hg. by right. }
  destruct (Hg x) as [Hx|Hx]; [by left|..].
  - rewrite decide_False by lia. lia.
  - rewrite decide_True by done. simpl length. lia.
Qed.

(** What the feasible assignment holds when every deficit is of one edge,
    or every surplus is. *)
Lemma unit_assignment s dn dp s' :
  NoDup (nodes s) →
  Forall (λ e : edge, e.1 ∈ nodes s ∧ e.2 ∈ nodes s) (edges s) →
  Forall (λ n, delta s !! n = Some (imbalance (edges s) n)) (nodes s) →
  feasible s = ∅ →
  Forall (λ n, -1 ≤ imbalance (edges s) n) (nodes s)
  ∨ Forall (λ n, imbalance (edges s) n ≤ 1) (nodes s) →
  _split_nodes_based_on_delta s = (Ret (dn, dp), s) →
  _find_feasible dn dp s = (Ret tt, s') →
  (∀ e x, feasible s' !! e = Some x → x = 0 ∨ x = 1)
  ∧ (∀ n p, feasible s' !! (n, p) = Some 1 → n ∈ nodes s ∧ p ∈ nodes s)
  ∧ (∀ n, feasible s' !! (n, n) ≠ Some 1)
  ∧ (∀ x, x ∈ nodes s →
       (length (out_edges x (edges s)) + length (flows_out (nodes s) (feasible s') x)
        = length (in_edges x (edges s))
          + length (flows_in (nodes s) (feasible s') x))%nat).
Proof.
  intros Hnd Hes Hdelta Hempty Hunit Hsplit Hff.
  destruct (find_feasible_core s Hnd Hes Hdelta)
    as (dn' & dp' & s2 & Hsplit' & Hff' & Hdn & Hdp & Hrows & Hcols & _).
  rewrite Hsplit in Hsplit'. injection Hsplit' as <- <-.
  rewrite Hff in Hff'. injection Hff' as <-.
  rewrite Forall_forall in Hdelta.
  assert (NoDup dn ∧ NoDup dp) as [Hndn Hndp].
  { unfold _split_nodes_based_on_delta, bind, gets in Hsplit. simpl in Hsplit.
    rewrite split_loop_spec in Hsplit by (intros n Hn; rewrite (Hdelta n Hn); eauto).
    injection Hsplit as <- <-. split; by apply NoDup_filter. }
  assert (∀ n, n ∈ dn → n ∉ dp) as Hdisj.
  { intros n [_ Hn]%Hdn [_ Hp]%Hdp. lia. }
  assert (∀ e, e ∈ product dn dp → ∃ x, feasible s' !! e = Some x ∧ 0 ≤ x) as Hnonneg.
  { destruct (feasible_loop_nonneg dn dp (product dn dp) s (λ _, False) Hdisj)
      as (s1 & Hrun1 & Hall); try done.
    - apply Forall_forall. by intros [n p] ?%elem_of_product.
    - intros n [Hn Hlt]%Hdn. exists (imbalance (edges s) n).
      split; [by apply Hdelta|lia].
    - intros p [Hp Hgt]%Hdp. exists (imbalance (edges s) p).
      split; [by apply Hdelta|lia].
    - unfold _find_feasible in Hff. rewrite (bind_ret _ _ _ _ _ Hrun1) in Hff.
      unfold ret in Hff. injection Hff as <-. intros e He. apply Hall. by right. }
  assert (∀ e, e ∉ product dn dp → feasible s' !! e = None) as Hnone.
  { intros e He. pose proof (find_feasible_frame e dn dp s He) as Hfr.
    rewrite Hff in Hfr. simpl in Hfr. by rewrite Hfr, Hempty. }
  assert (∀ n p, 0 ≤ dict_get (feasible s') (n, p) 0) as Hge.
  { intros n p. unfold dict_get.
    destruct (decide ((n, p) ∈ product dn dp)) as [Hin|Hin].
    - destruct (Hnonneg _ Hin) as (x & -> & ?). done.
    - by rewrite (Hnone _ Hin). }
  assert (∀ n p x, feasible s' !! (n, p) = Some x →
                   n ∈ dn ∧ p ∈ dp ∧ 0 ≤ x ∧ x ≤ - imbalance (edges s) n
                   ∧ x ≤ imbalance (edges s) p) as Hentry.
  { intros n p x Hx.
    destruct (decide ((n, p) ∈ product dn dp)) as [Hin|Hin];
      [|by rewrite (Hnone _ Hin) in Hx].
    apply elem_of_product in Hin as [Hn Hp].
    assert (dict_get (feasible s') (n, p) 0 = x) as Hgx.
    { unfold dict_get. by rewrite Hx. }
    split; [done|]. split; [done|]. split; [rewrite <- Hgx; apply Hge|]. split.
    - rewrite <- (Hrows n Hn), <- Hgx.
      apply (sumZ_elem_le (λ p, dict_get (feasible s') (n, p) 0)); [|done].
      intros q _. apply Hge.
    - rewrite <- (Hcols p Hp), <- Hgx.
      apply (sumZ_elem_le (λ n, dict_get (feasible s') (n, p) 0)); [|done].
      intros q _. apply Hge. }
  assert (∀ e x, feasible s' !! e = Some x → x = 0 ∨ x = 1) as H01.
  { intros [n p] x Hx. destruct (Hentry _ _ _ Hx) as (Hn & Hp & H0 & Hr & Hc).
    apply Hdn in Hn as [Hn _]. apply Hdp in Hp as [Hp _].
    rewrite !Forall_forall in Hunit. destruct Hunit as [Hu|Hu].
    - specialize (Hu n Hn). lia.
    - specialize (Hu p Hp). lia. }
  split; [done|]. split.
  { intros n p Hx. destruct (Hentry _ _ _ Hx) as (Hn & Hp & _).
    apply Hdn in Hn as [Hn _]. apply Hdp in Hp as [Hp _]. done. }
  split.
  { intros n Hx. destruct (Hentry _ _ _ Hx) as (Hn & Hp & _). by apply (Hdisj n). }
  assert (∀ n p, dict_get (feasible s') (n, p) 0 = 0
                 ∨ dict_get (feasible s') (n, p) 0 = 1) as Hg01.
  { intros n p. unfold dict_get. destruct (feasible s' !! (n, p)) as [x|] eqn:Hx;
      simpl; [by eapply H01|by left]. }
  assert (∀ n p, feasible s' !! (n, p) = Some 1
                 ↔ dict_get (feasible s') (n, p) 0 = 1) as Hiff.
  { intros n p. unfold dict_get. destruct (feasible s' !! (n, p)) as [x|]; simpl.
    - split; [by intros [= ->]|by intros ->].
    - split; [done|lia]. }
  assert (∀ x, Z.of_nat (length (flows_out (nodes s) (feasible s') x))
               = sumZ (λ p, dict_get (feasible s') (x, p) 0) (nodes s)) as Hfo.
  { intros x. rewrite <- count_sum by (intros p _; apply Hg01).
    f_equal. f_equal. unfold flows_out. apply list_filter_iff. intros p. apply Hiff. }
  assert (∀ x, Z.of_nat (length (flows_in (nodes s) (feasible s') x))
               = sumZ (λ n, dict_get (feasible s') (n, x) 0) (nodes s)) as Hfi.
  { intros x. rewrite <- count_sum by (intros p _; apply Hg01).
    f_equal. f_equal. unfold flows_in. apply list_filter_iff. intros p. apply Hiff. }
  assert (∀ n p, p ∉ dp → dict_get (feasible s') (n, p) 0 = 0) as Hzp.
  { intros n p Hp. unfold dict_get. rewrite Hnone; [done|].
    by intros [_ ?]%elem_of_product. }
  assert (∀ n p, n ∉ dn → dict_get (feasible s') (n, p) 0 = 0) as Hzn.
  { intros n p Hn. unfold dict_get. rewrite Hnone; [done|].
    by intros [? _]%elem_of_product. }
  assert (∀ x, sumZ (λ p, dict_get (feasible s') (x, p) 0) (nodes s)
               = sumZ (λ p, dict_get (feasible s') (x, p) 0) dp) as Hsum_out.
  { intros x. rewrite <- (sumZ_indicator_subset _ (nodes s) dp); [|done..|].
    - apply sumZ_ext. intros p _. case_decide; [done|by apply Hzp].
    - intros p Hp. by apply Hdp in Hp as [? _]. }
  assert (∀ x, sumZ (λ n, dict_get (feasible s') (n, x) 0) (nodes s)
               = sumZ (λ n, dict_get (feasible s') (n, x) 0) dn) as Hsum_in.
  { intros x. rewrite <- (sumZ_indicator_subset _ (nodes s) dn); [|done..|].
    - apply sumZ_ext. intros p _. case_decide; [done|by apply Hzn].
    - intros p Hp. by apply Hdn in Hp as [? _]. }
  intros x Hx.
  assert (Z.of_nat (length (out_edges x (edges s)))
          - Z.of_nat (length (in_edges x (edges s))) = imbalance (edges s) x) as Himb.
  { unfold imbalance, outgoing_dim, incoming_dim, out_edges, in_edges. done. }
  assert (Z.of_nat (length (flows_out (nodes s) (feasible s') x))
          = if decide (x ∈ dn) then - imbalance (edges s) x else 0) as Hout.
  { rewrite Hfo, Hsum_out. destruct (decide (x ∈ dn)) as [Hxn|Hxn]; [by apply Hrows|].
    apply sumZ_zero. intros p _. by apply Hzn. }
  assert (Z.of_nat (length (flows_in (nodes s) (feasible s') x))
          = if decide (x ∈ dp) then imbalance (edges s) x else 0) as Hin.
  { rewrite Hfi, Hsum_in. destruct (decide (x ∈ dp)) as [Hxp|Hxp]; [by apply Hcols|].
    apply sumZ_zero. intros p _. by apply Hzp. }
  destruct (decide (x ∈ dn)) as [Hxn|Hxn], (decide (x ∈ dp)) as [Hxp|Hxp].
  - by destruct (Hdisj x).
  - lia.
  - lia.
  - assert (imbalance (edges s) x = 0); [|lia].
    destruct (Z.lt_trichotomy (imbalance (edges s) x) 0) as [?|[?|?]]; [|done|].
    + destruct Hxn. by apply Hdn.
    + destruct Hxp. by apply Hdp.
Qed.

Lemma compute_cpt_unit_each ns es cf dc start_node :
  NoDup ns → NoDup es →
  Forall (λ e, 0 < dict_get cf e dc) es →
  Forall (λ e : edge, e.1 ∈ ns ∧ e.2 ∈ ns) es →
  (∀ u v, u ∈ ns → v ∈ ns → tc (edge_rel es) u v) →
  Forall (λ n, -1 ≤ imbalance es n) ns ∨ Forall (λ n, imbalance es n ≤ 1) ns →
  start_node ∈ ns →
  ∃ fuel0 : nat, ∀ fuel, (fuel0 ≤ fuel)%nat →
    ∃ cpt,
      compute_cpt fuel start_node (new_CPTDigraphManager ns es cf dc)
      = (Ret (cpt, walk_cost cf dc cpt), new_CPTDigraphManager ns es cf dc)
      ∧ closed_walk start_node cpt ∧ Forall (λ e, e ∈ es) cpt
      ∧ ∀ e, e ∈ es → e ∈ cpt.
Proof.
  intros Hnd Hnde Hpos Hends Hjoin Hunit Hstart.
  set (s0 := new_CPTDigraphManager ns es cf dc).
  destruct (check_closure es s0 (new_closure_inv ns es cf dc))
    as (s1 & Hcheck & _ & (Hst1 & Hd1 & Hb1 & Hf1) & Hl).
  destruct (least_cost_paths_closure_least ns es cf dc
              (nonneg_closed_walks _ _ _ (positive_nonneg _ _ _ Hpos)) Hends)
    as (s1' & Hl' & Hleast).
  assert (s1' = s1) as -> by (fold s0 in Hl'; congruence).
  destruct Hst1 as (Hn1 & He1 & _ & _). simpl in Hn1, He1.
  assert (∀ u v, u ∈ ns → v ∈ ns → is_Some (cost s1 !! (u, v))) as Hall.
  { intros u v Hu Hv. destruct (tc_is_walk _ _ _ (Hjoin u v Hu Hv)) as (w & Hw).
    destruct (proj2 Hleast u v w Hw) as (c & Hc & _). eauto. }
  assert (all_pairs_in ns (cost s1) = true) as Hpairs by by apply all_pairs_in_true.
  simpl in Hcheck. rewrite Hpairs in Hcheck.
  assert (Forall (λ n, delta s1 !! n = Some (imbalance (edges s1) n)) (nodes s1)) as Hdelta.
  { rewrite <- Hn1, <- He1, <- Hd1. apply Forall_forall. intros n Hn.
    unfold s0. rewrite new_delta_lookup, decide_True by done. done. }
  destruct (residual_preconditions s1) as (dn & dp & s2 & Hsplit & Hff & Hdef & Hdisj);
    [by rewrite <- Hn1 | by rewrite <- Hn1, <- He1 | done | by rewrite <- Hn1 |].
  destruct (unit_assignment s1 dn dp s2) as (H01 & Hkeys & Hirr & Hdeg);
    [by rewrite <- Hn1 | by rewrite <- Hn1, <- He1 | done | by rewrite <- Hf1
    | by rewrite <- Hn1, <- He1 | done | done |].
  rewrite <- Hn1 in Hkeys, Hdeg. rewrite <- He1 in Hdeg.
  pose proof routing_kept_preorder as HP.
  assert (routing_kept s1 s2) as ((Hn2 & He2 & _ & _) & Hc2 & Ht2).
  { eapply (respects_run routing_kept any_exn), Hff.
    apply find_feasible_respects; [done|by intros; repeat split..]. }
  assert (basic_cost s1 = basic_cost s2) as Hb2.
  { assert (PreOrder (λ s s' : CPTDigraphManager, basic_cost s = basic_cost s')) as HPb.
    { split; [by intros ?|]. intros ? ? ? ? ?. congruence. }
    eapply (respects_run (λ s s', basic_cost s = basic_cost s') any_exn), Hff.
    apply find_feasible_respects; done. }
  destruct (residual_loop_spec _ [] ∅ s2 Hdef (product_disjoint _ _ Hdisj))
    as (res & rc & Hres & _).
  set (r := new_CPTDigraphManager (nodes s2) res rc (default_cost s2)).
  assert (_get_residual_diblob_manager_for_cpt dn dp s2 = (Ret r, s2)) as Hr.
  { unfold _get_residual_diblob_manager_for_cpt.
    by rewrite (bind_ret _ _ _ _ _ Hres). }
  set (B := sumZ (λ kv : edge * Z, kv.2) (map_to_list (cost s1))).
  exists (S (pending ns (feasible s2) + size (list_to_set es : gset edge)) + Z.to_nat B)%nat.
  intros fuel Hfuel.
  assert (_improvements fuel r s2 = (Ret false, s2)) as Himp.
  { apply (residual_never_improves fuel dn dp s2 r Hdef Hdisj). by rewrite Hr. }
  assert (improve_loop fuel fuel dn dp r s2 = (Ret tt, s2)) as Hloop.
  { destruct fuel as [|n]; [lia|]. simpl. by rewrite (bind_ret _ _ _ _ _ Himp). }
  assert (∀ e c, cost s1 !! e = Some c → c ≤ Z.of_nat fuel) as Hbound.
  { intros e c Hc.
    assert (c ≤ B); [|lia].
    apply (sumZ_elem_le (λ kv : edge * Z, kv.2) _ (e, c)).
    - intros [e' c'] Hin%elem_of_map_to_list. simpl.
      pose proof (closure_least_positive _ _ _ _ _ _ Hpos Hleast Hin). lia.
    - by apply elem_of_map_to_list. }
  destruct (tour_loop_unit ns es cf dc s1 fuel start_node (feasible s2)
              Hpos Hends Hleast Hall Hbound Hstart H01 Hkeys Hirr
              fuel s2 start_node ∅ [] [] [] [])
    as (cpt & s3 & used & LU & LS & M & u & b & Htour & Hc3 & Hb3 & Hn3 & Hu
        & Hinv & Hbr & HbU & Hnop); try done; try congruence.
  { split; [done|]. split; [apply NoDup_nil_2|]. split; [by intros e ?%elem_of_nil|].
    split; [apply NoDup_nil_2|]. split.
    { intros e. rewrite elem_of_empty, elem_of_nil. done. }
    do 7 (split; [done|]). split.
    { intros x y _ Hin. by apply elem_of_nil in Hin. }
    intros x y p Hin. by apply elem_of_nil in Hin. }
  { rewrite size_empty. lia. }
  destruct Hinv as (Hf & HndS & HS1 & HndU & _ & HsubU & HwM & HpM & Hw & Hsub
                    & HUc & Hcost & Hlast & HJ).
  assert (u = start_node) as ->.
  { by apply (unit_closed ns es s1 start_node (feasible s2) Hnde Hnd Hkeys Hdeg
                LU LS M HndS HS1 HndU HsubU HpM Hlast HJ u b). }
  assert (∀ x, x ∈ ns → ∃ bx, spanning_tree s1 !! (x, start_node) = Some bx
                              ∧ (x, bx) ∈ LU) as Hbridges.
  { intros x Hx. destruct (Hall x start_node Hx Hstart) as [c Hc].
    apply (unit_bridge_taken ns es cf dc s1 start_node (feasible s2)
             Hpos Hends Hleast Hnde Hnd Hkeys Hdeg LU LS M HndS HS1 HndU HsubU HpM
             Hlast HJ HwM b (Z.to_nat c) x c); [done..|lia|done]. }
  assert (∀ e, e ∈ es → e ∈ LU) as Hcover.
  { intros [x y] Hxy.
    assert (x ∈ ns) as Hx.
    { rewrite Forall_forall in Hends. by destruct (Hends _ Hxy). }
    destruct (Hbridges x Hx) as (bx & Hbx & Hin). by apply (Hlast x bx). }
  assert (LU ≡ₚ es) as Hperm.
  { apply NoDup_Permutation; [done..|]. intros e. split; [|apply Hcover].
    rewrite Forall_forall in HsubU. apply HsubU. }
  assert (∀ x p, feasible s2 !! (x, p) = Some 1 → (x, p) ∈ LS) as Hserved.
  { intros x p Hxp. destruct (Hkeys _ _ Hxp) as [Hx _].
    destruct (Hbridges x Hx) as (bx & _ & Hin). by apply (HJ x bx). }
  assert (_get_cost s3 = (Ret (walk_cost cf dc cpt), s3)) as Hgc.
  { unfold _get_cost, gets. f_equal. f_equal. rewrite Hn3, Hc3, Hb3, <- Hc2, <- Hb2, <- Hb1.
    rewrite (foldl_sumZ (λ th, dict_get (cost s1) th 0 * - dict_get (feasible s3) th 0)).
    rewrite (sumZ_ext _ (λ th, if decide (th ∈ LS) then dict_get (cost s1) th 0 else 0)).
    - rewrite sumZ_indicator_subset; [|by apply NoDup_product|done|].
      + rewrite Hcost, (sumZ_Permutation _ _ _ Hperm).
        unfold s0, new_CPTDigraphManager. simpl.
        rewrite (foldl_sumZ (λ e, dict_get cf e dc)). lia.
      + intros [x p] Hin. apply elem_of_product. apply Hkeys. by apply HS1.
    - intros [x p] _. unfold dict_get at 2. rewrite Hf.
      destruct (decide ((x, p) ∈ LS)) as [Hin|Hin]; simpl; [lia|].
      destruct (feasible s2 !! (x, p)) as [a|] eqn:Ha; simpl; [|lia].
      destruct (H01 _ _ Ha) as [->| ->]; [lia|]. destruct Hin. by apply Hserved. }
  exists cpt.
  destruct (compute_cpt fuel start_node s0) as [o s4] eqn:Hrun.
  assert (o = Ret (cpt, walk_cost cf dc cpt)) as ->.
  { unfold compute_cpt in Hrun.
    rewrite (bind_ret _ _ _ _ _ Hcheck) in Hrun. simpl in Hrun.
    rewrite (bind_ret _ _ _ _ _ Hsplit) in Hrun. simpl in Hrun.
    rewrite (bind_ret _ _ _ _ _ Hff) in Hrun.
    rewrite (bind_ret _ _ _ _ _ Hr) in Hrun.
    rewrite (bind_ret _ _ _ _ _ Hloop) in Hrun.
    unfold _get_cpt in Hrun.
    rewrite (bind_ret _ _ _ _ _ Htour) in Hrun.
    rewrite (bind_ret _ _ _ _ _ Hgc) in Hrun.
    unfold bind, _set_cost, _set_spanning_tree, _set_delta,
      _set_basic_cost, modify, ret in Hrun. simpl in Hrun.
    by injection Hrun as <- _. }
  split; [by rewrite (compute_cpt_Ret _ _ _ _ _ Hrun)|].
  split; [done|]. split; [done|]. intros e He. by apply HUc, Hcover.
Qed.

(** X13. [compute_cpt] on a graph whose nodes are out of balance by one edge
    at most.  Take a freshly built instance with distinct nodes, no repeated
    edge, positive edge costs, every edge between two nodes of the graph and
    every ordered pair of nodes joined by a path, in which no node has more
    than one incoming edge in excess (every imbalance is at least -1) or no
    node has more than one outgoing edge in excess (every imbalance is at
    most 1).  Then, for every start node of the graph and every sufficient
    bound on the loops, [compute_cpt] returns a tour that starts and ends at
    the start node, consists of edges of the graph and takes every edge of
    the graph at least once; the total it returns is the cost of that tour
    under the cost function, and the instance is handed back as it was
    built. *)
Theorem compute_cpt_unit_imbalance ns es cf dc start_node :
  NoDup ns → NoDup es →
  Forall (λ e, 0 < dict_get cf e dc) es →
  Forall (λ e : edge, e.1 ∈ ns ∧ e.2 ∈ ns) es →
  (∀ u v, u ∈ ns → v ∈ ns → tc (edge_rel es) u v) →
  Forall (λ n, -1 ≤ imbalance es n) ns ∨ Forall (λ n, imbalance es n ≤ 1) ns →
  start_node ∈ ns →
  ∃ (fuel0 : nat) cpt,
    closed_walk start_node cpt ∧ Forall (λ e, e ∈ es) cpt
    ∧ (∀ e, e ∈ es → e ∈ cpt)
    ∧ ∀ fuel, (fuel0 ≤ fuel)%nat →
        compute_cpt fuel start_node (new_CPTDigraphManager ns es cf dc)
        = (Ret (cpt, walk_cost cf dc cpt), new_CPTDigraphManager ns es cf dc).
Proof.
  intros Hnd Hnde Hpos Hends Hjoin Hunit Hstart.
  destruct (compute_cpt_unit_each ns es cf dc start_node
              Hnd Hnde Hpos Hends Hjoin Hunit Hstart) as (fuel0 & Hret).
  destruct (Hret fuel0 (le_n _)) as (cpt & Hrun & Hw & Hsub & Hcover).
  exists fuel0, cpt. do 3 (split; [done|]).
  intros fuel Hle. by apply (compute_cpt_refines fuel0 fuel _ Hle _ _ _ Hrun).
Qed.

Lemma square_joined u v :
  u ∈ ["A"; "B"; "C"; "D"; "s"; "t"] → v ∈ ["A"; "B"; "C"; "D"; "s"; "t"] →
  tc (edge_rel [("A","B"); ("A","C"); ("B","D"); ("C","D");
                ("s","A"); ("D","t"); ("t","s")]) u v.
Proof. apply (check_true_joined _ _ ∅ 1). vm_compute. reflexivity. Qed.

Lemma compute_cpt_unit_imbalance_witness :
  ∃ (fuel0 : nat) cpt,
    closed_walk "s" cpt
    ∧ Forall (λ e, e ∈ [("A","B"); ("A","C"); ("B","D"); ("C","D");
                        ("s","A"); ("D","t"); ("t","s")]) cpt
    ∧ (∀ e, e ∈ [("A","B"); ("A","C"); ("B","D"); ("C","D");
                 ("s","A"); ("D","t"); ("t","s")] → e ∈ cpt)
    ∧ ∀ fuel, (fuel0 ≤ fuel)%nat →
        compute_cpt fuel "s"
          (new_CPTDigraphManager ["A"; "B"; "C"; "D"; "s"; "t"]
             [("A","B"); ("A","C"); ("B","D"); ("C","D");
              ("s","A"); ("D","t"); ("t","s")] ∅ 1)
        = (Ret (cpt, walk_cost ∅ 1 cpt),
           new_CPTDigraphManager ["A"; "B"; "C"; "D"; "s"; "t"]
             [("A","B"); ("A","C"); ("B","D"); ("C","D");
              ("s","A"); ("D","t"); ("t","s")] ∅ 1).
Proof.
  apply (compute_cpt_unit_imbalance ["A"; "B"; "C"; "D"; "s"; "t"]
           [("A","B"); ("A","C"); ("B","D"); ("C","D");
            ("s","A"); ("D","t"); ("t","s")] ∅ 1 "s").
  - apply (bool_decide_unpack _); vm_compute; exact I.
  - apply (bool_decide_unpack _); vm_compute; exact I.
  - apply (bool_decide_unpack _); vm_compute; exact I.
  - apply (bool_decide_unpack _); vm_compute; exact I.
  - exact square_joined.
  - left. apply (bool_decide_unpack _); vm_compute; exact I.
  - apply (bool_decide_unpack _); vm_compute; exact I.
Defined.
